(** * SimpleVector: a shallow embedding of [simple_vector.h]

    The container is a class template over an element type [Type].  It owns
    an [ArrayPtr<Type>] buffer together with two [size_t] counters.  The
    embedding keeps

    - [size_t] values as [Z] in [[0, 2^64)], with the wrap-around of every
      arithmetic operation written out ([to_size_t]); [int] values as [Z]
      with the conversion [to_int] (LP64/LLP64: 32-bit [int], 64-bit
      [size_t] and [ptrdiff_t]);
    - the buffer as the list of its slots; a slot access outside the
      allocation is undefined behaviour;
    - iterators ([Type*]) as either a pointer to a slot of the buffer, given
      by the slot's index, or the null pointer advanced by some number of
      elements.  Arithmetic on a null-based pointer only changes its offset;
      dereferencing one is undefined behaviour;
    - a member function as a function from the receiver's state to an
      [outcome]: normal return, a thrown exception (with the state the
      object is left in), or undefined behaviour.  [Resize] and [Reserve]
      call each other; their recursion is unfolded a fixed number of times,
      which is shown to be enough.

    - a parameter of type [const Type&] or [Type&&] as what the reference
      is bound to: an object outside the vector's buffer, or a slot of the
      buffer the vector owns when the call is made.  The object is read
      where the code reads it.

    Element operations (copy, move, value-initialisation) are assumed not to
    throw.  What [std::move] leaves behind in a moved-from element is the
    parameter [moved_from].  The comparison operators at the end of the
    header are embedded for an element type with [==] and [<]. *)

From stdpp Require Import base numbers list.

#[local] Open Scope Z_scope.

(** ** Machine integers *)

Definition SIZE_MAX : Z := 2 ^ 64 - 1.
Definition PTRDIFF_MAX : Z := 2 ^ 63 - 1.
Definition INT_MAX : Z := 2 ^ 31 - 1.

(** Conversion of an integer value to [size_t] (modulo 2^64). *)
Definition to_size_t (z : Z) : Z := z mod 2 ^ 64.

(** Conversion of an integer value to [int] (two's complement, 32 bits). *)
Definition to_int (z : Z) : Z := (z + 2 ^ 31) mod 2 ^ 32 - 2 ^ 31.

Definition is_size_t (z : Z) : Prop := 0 ≤ z ≤ SIZE_MAX.

(** ** The element type and the allocator *)

(** The template parameter [Type]: what the container needs from it. *)
Class Element (T : Type) := {
  value_init : T;          (* Type{} *)
  moved_from : T → T;      (* the state std::move leaves in its source *)
}.

(** Modelled from the spec: the free store behind [ArrayPtr], which is not
    part of the sources.  An allocation of [n] slots is granted exactly when
    [n <= alloc_limit], and fails otherwise; no array object has more than
    [PTRDIFF_MAX] elements. *)
Class Heap := {
  alloc_limit : Z;
  alloc_limit_range : (0 <=? alloc_limit) && (alloc_limit <=? PTRDIFF_MAX) = true;
}.

Inductive exn : Set :=
| out_of_range      (* std::out_of_range *)
| bad_alloc.        (* std::bad_alloc *)

(** ** Outcomes of running code on a state of type [S] *)

Inductive outcome (S A : Type) : Type :=
| Return (a : A) (s : S)        (* normal completion *)
| Throw (e : exn) (s : S)       (* an exception leaves the code; [s] is the state then *)
| Undefined                     (* undefined behaviour *)
| NoFuel.                       (* recursion budget of the model exhausted *)

Arguments Return {S A} a s.
Arguments Throw {S A} e s.
Arguments Undefined {S A}.
Arguments NoFuel {S A}.

Definition ret {S A} (a : A) : S → outcome S A := λ s, Return a s.

Definition bind {S A B} (m : S → outcome S A) (k : A → S → outcome S B)
  : S → outcome S B :=
  λ s, match m s with
       | Return a s' => k a s'
       | Throw e s' => Throw e s'
       | Undefined => Undefined
       | NoFuel => NoFuel
       end.

Definition throw {S A} (e : exn) : S → outcome S A := λ s, Throw e s.

(** The same outcome with the returned value replaced. *)
Definition map_value {S A B} (f : A → B) (o : outcome S A) : outcome S B :=
  match o with
  | Return a s => Return (f a) s
  | Throw e s => Throw e s
  | Undefined => Undefined
  | NoFuel => NoFuel
  end.

(** Read something off the current state. *)
Definition get {S A} (f : S → A) : S → outcome S A := λ s, Return (f s) s.

Declare Scope cpp_scope.
Delimit Scope cpp_scope with cpp.
Notation "x <- c1 ;; c2" := (bind c1 (λ x, c2))
  (at level 100, c1 at next level, right associativity) : cpp_scope.
Notation "c1 ;; c2" := (bind c1 (λ _, c2))
  (at level 100, right associativity) : cpp_scope.
#[local] Open Scope cpp_scope.

(** ** Iterators *)

(** [Type*] and [const Type*]. *)
Inductive Iterator : Set :=
| null_offset (k : Z)     (* the null pointer, advanced by [k] elements *)
| slot (i : Z).           (* the address of slot [i] of the buffer *)

Definition nullptr : Iterator := null_offset 0.

(** [p + n] *)
Definition advance (p : Iterator) (n : Z) : Iterator :=
  match p with
  | null_offset k => null_offset (k + n)
  | slot i => slot (i + n)
  end.

(** [last - first].  Subtracting a pointer into the buffer from a null-based
    one, or the reverse, has no defined value. *)
Definition distance (first last : Iterator) : option Z :=
  match first, last with
  | slot i, slot j => Some (j - i)
  | null_offset i, null_offset j => Some (j - i)
  | _, _ => None
  end.

(** The number of iterations of [while (first != last)] when every step
    advances [first] by one (or moves [last] back by one); a range whose end
    cannot be reached from its start is not a valid range. *)
Definition range_length (first last : Iterator) : option nat :=
  d ← distance first last;
  if bool_decide (0 ≤ d) then Some (Z.to_nat d) else None.

(** ** ArrayPtr *)

Module ArrayPtr.
Section ArrayPtr.
Context {T : Type} `{!Element T} `{!Heap}.

(** Modelled from the spec: [array_ptr.h] is not part of the sources.  The
    spec describes [ArrayPtr<Type>] as the exclusive owner of zero or one
    allocation sized at construction; a default-constructed one owns
    nothing, and a buffer of capacity 0 holds no allocation.  The buffer
    is the list of its slots; the empty list is the absent allocation
    (a null [raw_ptr_]). *)
Definition empty : list T := [].

(** Modelled from the spec: [ArrayPtr(size)].  Sized construction yields
    [size] default-valued elements (the comment of the sized
    [SimpleVector] constructor says the same); an allocation failure
    crosses the boundary as an exception.  [None] stands for
    [std::bad_alloc]. *)
Definition sized (size : Z) : option (list T) :=
  if bool_decide (size = 0) then Some []
  else if bool_decide (0 ≤ size ≤ alloc_limit)
       then Some (replicate (Z.to_nat size) value_init)
       else None.

(** Modelled from the spec: unchecked indexed read, [raw_ptr_[index]].
    [None] stands for an access outside the allocation. *)
Definition read (b : list T) (index : Z) : option T :=
  if bool_decide (0 ≤ index) then b !! Z.to_nat index else None.

(** Modelled from the spec: indexed write, [raw_ptr_[index] = x]. *)
Definition write (b : list T) (index : Z) (x : T) : option (list T) :=
  if bool_decide (0 ≤ index < Z.of_nat (length b))
  then Some (<[Z.to_nat index := x]> b)
  else None.

(** Modelled from the spec: the address [&raw_ptr_[index]]. *)
Definition address (b : list T) (index : Z) : Iterator :=
  match b with
  | [] => null_offset index
  | _ :: _ => slot index
  end.

(** Modelled from the spec: in-place exchange with another buffer. *)
Definition swap (a b : list T) : list T * list T := (b, a).

(** Modelled from the spec: ownership transfer; the source owns nothing
    afterwards.  The result is (destination, source). *)
Definition move (src : list T) : list T * list T := (src, empty).
End ArrayPtr.
End ArrayPtr.

(** ** The algorithms of <algorithm> the container calls

    Every loop performs one element assignment per iteration, in the order
    the standard prescribes. *)

Section Algorithms.
Context {T : Type} `{!Element T}.

(** [*p] as an rvalue, for [p] into the buffer [b]. *)
Definition load (b : list T) (p : Iterator) : option T :=
  match p with
  | slot i => ArrayPtr.read b i
  | null_offset _ => None
  end.

(** [*p = x] *)
Definition store (b : list T) (p : Iterator) (x : T) : option (list T) :=
  match p with
  | slot i => ArrayPtr.write b i x
  | null_offset _ => None
  end.

(** [std::fill(first, last, value)]:
    [for (; first != last; ++first) *first = value;] *)
Fixpoint fill_loop (n : nat) (b : list T) (first : Iterator) (value : T)
  : option (list T) :=
  match n with
  | O => Some b
  | S n' =>
      b' ← store b first value;
      fill_loop n' b' (advance first 1) value
  end.

Definition std_fill (b : list T) (first last : Iterator) (value : T)
  : option (list T) :=
  n ← range_length first last;
  fill_loop n b first value.

(** [std::copy(first, last, d_first)] from one buffer into another:
    [while (first != last) *d_first++ = *first++;] *)
Fixpoint copy_loop (n : nat) (src : list T) (first : Iterator)
    (dst : list T) (d_first : Iterator) : option (list T) :=
  match n with
  | O => Some dst
  | S n' =>
      x ← load src first;
      dst' ← store dst d_first x;
      copy_loop n' src (advance first 1) dst' (advance d_first 1)
  end.

Definition std_copy (src : list T) (first last : Iterator)
    (dst : list T) (d_first : Iterator) : option (list T) :=
  n ← range_length first last;
  copy_loop n src first dst d_first.

(** [std::move(first, last, d_first)] from one buffer into another:
    [while (first != last) *d_first++ = std::move( *first++ );]
    The result is (source buffer, destination buffer). *)
Fixpoint move_loop (n : nat) (src : list T) (first : Iterator)
    (dst : list T) (d_first : Iterator) : option (list T * list T) :=
  match n with
  | O => Some (src, dst)
  | S n' =>
      x ← load src first;
      dst' ← store dst d_first x;
      src' ← store src first (moved_from x);
      move_loop n' src' (advance first 1) dst' (advance d_first 1)
  end.

Definition std_move (src : list T) (first last : Iterator)
    (dst : list T) (d_first : Iterator) : option (list T * list T) :=
  n ← range_length first last;
  move_loop n src first dst d_first.

(** [std::copy(std::make_move_iterator(first), std::make_move_iterator(last), d_first)]
    with source and destination in the same buffer. *)
Fixpoint move_within_loop (n : nat) (b : list T) (first d_first : Iterator)
  : option (list T) :=
  match n with
  | O => Some b
  | S n' =>
      x ← load b first;
      b1 ← store b d_first x;
      b2 ← store b1 first (moved_from x);
      move_within_loop n' b2 (advance first 1) (advance d_first 1)
  end.

Definition std_copy_move_iterator (b : list T) (first last d_first : Iterator)
  : option (list T) :=
  n ← range_length first last;
  move_within_loop n b first d_first.

(** [std::move_backward(first, last, d_last)] inside one buffer:
    [while (first != last) *(--d_last) = std::move( *(--last) );] *)
Fixpoint move_backward_loop (n : nat) (b : list T) (last d_last : Iterator)
  : option (list T) :=
  match n with
  | O => Some b
  | S n' =>
      x ← load b (advance last (-1));
      b1 ← store b (advance d_last (-1)) x;
      b2 ← store b1 (advance last (-1)) (moved_from x);
      move_backward_loop n' b2 (advance last (-1)) (advance d_last (-1))
  end.

Definition std_move_backward (b : list T) (first last d_last : Iterator)
  : option (list T) :=
  n ← range_length first last;
  move_backward_loop n b last d_last.
End Algorithms.

(** ** ReserveProxyObj *)

Record ReserveProxyObj : Set := { capacity_to_reserve : Z }.

Definition Reserve (capacity_to_reserve : Z) : ReserveProxyObj :=
  {| capacity_to_reserve := capacity_to_reserve |}.

(** ** SimpleVector *)

Module SimpleVector.

(** The data members: [ArrayPtr<Type> items_; size_t size_; size_t capacity_;] *)
Record t (T : Type) : Type := mk {
  items_ : list T;
  size_ : Z;
  capacity_ : Z;
}.
Arguments mk {T} _ _ _.
Arguments items_ {T} _.
Arguments size_ {T} _.
Arguments capacity_ {T} _.

(** What a parameter [const Type& item] or [Type&& item] of a member
    function is bound to. *)
Inductive Ref (T : Type) : Type :=
| outside (x : T)   (* an object that is no slot of the receiver's buffer; it holds [x] *)
| element (k : Z).  (* [items_[k]] of the receiver, as in [v.PushBack(v[k])] *)
Arguments outside {T} x.
Arguments element {T} k.

Section Methods.
Context {T : Type} `{!Element T} `{!Heap}.

(** A member function returning [A]. *)
Definition M (A : Type) : Type := t T → outcome (t T) A.

(** A constructor: code without a receiver whose value is the new object. *)
Definition Ctor : Type := outcome unit (t T).

Definition defined {A} (o : option A) : M A :=
  λ this, match o with Some a => Return a this | None => Undefined end.

Definition set_items (b : list T) : M unit :=
  λ this, Return tt (mk b (size_ this) (capacity_ this)).
Definition set_size (n : Z) : M unit :=
  λ this, Return tt (mk (items_ this) n (capacity_ this)).
Definition set_capacity (n : Z) : M unit :=
  λ this, Return tt (mk (items_ this) (size_ this) n).

(** A local object built by a constructor: [SimpleVector tmp(...);] *)
Definition local {A} (c : outcome unit A) : M A :=
  λ this, match c with
          | Return a _ => Return a this
          | Throw e _ => Throw e this
          | Undefined => Undefined
          | NoFuel => NoFuel
          end.

(** A member call on another object: [obj.m(...)].  The value carries the
    state of [obj] after the call; an exception unwinds through the
    receiver, whose state is untouched by the call. *)
Definition call_on {A} (obj : t T) (m : M A) : M (A * t T) :=
  λ this, match m obj with
          | Return a obj' => Return (a, obj') this
          | Throw e _ => Throw e this
          | Undefined => Undefined
          | NoFuel => NoFuel
          end.

(** A constructor with member initialisers [init] and body [body]. *)
Definition construct (init : Ctor) (body : M unit) : Ctor :=
  match init with
  | Return this _ =>
      match body this with
      | Return _ this' => Return this' tt
      | Throw e _ => Throw e tt
      | Undefined => Undefined
      | NoFuel => NoFuel
      end
  | Throw e _ => Throw e tt
  | Undefined => Undefined
  | NoFuel => NoFuel
  end.

(** *** Observers *)

Definition GetSize (this : t T) : Z := size_ this.
Definition GetCapacity (this : t T) : Z := capacity_ this.
Definition IsEmpty (this : t T) : bool := bool_decide (GetSize this = 0).

(** [Iterator begin() noexcept] *)
Definition begin (this : t T) : Iterator :=
  if IsEmpty this then nullptr else ArrayPtr.address (items_ this) 0.

(** [Iterator end() noexcept] *)
Definition end_ (this : t T) : Iterator :=
  if IsEmpty this then nullptr else ArrayPtr.address (items_ this) (GetSize this).

(** [ConstIterator cbegin() const noexcept], to which [begin() const] forwards *)
Definition cbegin (this : t T) : Iterator := ArrayPtr.address (items_ this) 0.

(** [ConstIterator cend() const noexcept], to which [end() const] forwards *)
Definition cend (this : t T) : Iterator :=
  ArrayPtr.address (items_ this) (GetSize this).

(** [Type& operator[](size_t index) noexcept], read through the reference *)
Definition operator_index (index : Z) : M T :=
  this <- get id ;;
  defined (ArrayPtr.read (items_ this) index).

(** [( *this )[index] = x] *)
Definition operator_index_assign (index : Z) (x : T) : M unit :=
  this <- get id ;;
  b <- defined (ArrayPtr.write (items_ this) index x) ;;
  set_items b.

(** [const Type& operator[](size_t index) const noexcept { return ( *this )[index]; }]
    Inside a const member [*this] is const, so the call selects this same
    overload again. *)
Fixpoint operator_index_const (fuel : nat) (index : Z) : M T :=
  match fuel with
  | O => λ _, NoFuel
  | S fuel' => operator_index_const fuel' index
  end.

(** *** Constructors *)

(** [SimpleVector() noexcept = default;] *)
Definition SimpleVector_default : Ctor :=
  Return (mk ArrayPtr.empty 0 0) tt.

(** [explicit SimpleVector(size_t size)] *)
Definition SimpleVector_size (size : Z) : Ctor :=
  match ArrayPtr.sized size with
  | Some b => Return (mk b size size) tt
  | None => Throw bad_alloc tt
  end.

(** [SimpleVector(size_t size, const Type& value)] *)
Definition SimpleVector_size_value (size : Z) (value : T) : Ctor :=
  construct (SimpleVector_size size)
    (this <- get id ;;
     b <- defined (std_fill (items_ this) (begin this) (end_ this) value) ;;
     set_items b).

(** [SimpleVector(std::initializer_list<Type> init)] *)
Definition SimpleVector_init_list (init : list T) : Ctor :=
  construct (SimpleVector_size (Z.of_nat (length init)))
    (this <- get id ;;
     b <- defined (std_copy init (slot 0) (slot (Z.of_nat (length init)))
                     (items_ this) (begin this)) ;;
     set_items b).

(** [SimpleVector(const SimpleVector& other)] *)
Definition SimpleVector_copy (other : t T) : Ctor :=
  construct (SimpleVector_size (GetSize other))
    (this <- get id ;;
     b <- defined (std_copy (items_ other) (cbegin other) (cend other)
                     (items_ this) (begin this)) ;;
     set_items b).

(** [SimpleVector(SimpleVector&& other)]; the value is the new object
    together with the state [other] is left in. *)
Definition SimpleVector_move (other : t T) : t T * t T :=
  let '(mine, theirs) := ArrayPtr.move (items_ other) in
  (mk mine (size_ other) (capacity_ other), mk theirs 0 0).

(** *** Size changes *)

(** [void swap(SimpleVector& other) noexcept]; the value is the state of
    [other] after the exchange. *)
Definition swap (other : t T) : M (t T) :=
  λ this,
    let '(a, b) := ArrayPtr.swap (items_ this) (items_ other) in
    Return (mk b (size_ this) (capacity_ this))
           (mk a (size_ other) (capacity_ other)).

(** [void Resize(size_t new_size)], with the call to [Reserve] left open. *)
Definition Resize_body (Reserve : Z → M unit) (new_size : Z) : M unit :=
  sz <- get GetSize ;;
  if bool_decide (new_size < sz) then
    set_size new_size
  else if bool_decide (new_size > sz) then
    cap <- get GetCapacity ;;
    (if bool_decide (new_size > cap) then
       Reserve new_size
     else
       this <- get id ;;
       b <- defined (std_fill (items_ this)
                       (advance (begin this) (size_ this))
                       (advance (begin this) new_size) value_init) ;;
       set_items b) ;;
    set_size new_size
  else ret tt.

(** [void Reserve(size_t new_capacity)], with the call to [Resize] left open. *)
Definition Reserve_body (Resize : Z → M unit) (new_capacity : Z) : M unit :=
  cap <- get GetCapacity ;;
  if bool_decide (new_capacity > cap) then
    tmp <- local (SimpleVector_size new_capacity) ;;
    cap <- get GetCapacity ;;
    r <- call_on tmp (Resize cap) ;;
    this <- get id ;;
    bufs <- defined (std_move (items_ this) (begin this) (end_ this)
                       (items_ r.2) (begin r.2)) ;;
    set_items bufs.1 ;;
    _ <- swap (mk bufs.2 (size_ r.2) (capacity_ r.2)) ;;
    ret tt
  else ret tt.

(** [Resize] and [Reserve] call each other; the recursion is unfolded
    [fuel] times. *)
Fixpoint Reserve_fuel (fuel : nat) : Z → M unit :=
  match fuel with
  | O => λ _ _, NoFuel
  | S fuel' => Reserve_body (Resize_body (Reserve_fuel fuel'))
  end.

Definition call_depth : nat := 2.

Definition Reserve : Z → M unit := Reserve_fuel call_depth.
Definition Resize : Z → M unit := Resize_body Reserve.

(** [SimpleVector(ReserveProxyObj reserveProxyObj)] *)
Definition SimpleVector_reserve (reserveProxyObj : ReserveProxyObj) : Ctor :=
  construct SimpleVector_default
    (Reserve (capacity_to_reserve reserveProxyObj)).

(** [void DoubleIfFull()] *)
Definition DoubleIfFull : M unit :=
  sz <- get GetSize ;;
  cap <- get GetCapacity ;;
  if bool_decide (sz = cap) then
    Reserve (if bool_decide (cap ≠ 0) then to_size_t (cap * 2) else 1)
  else ret tt.

(** [size_++] *)
Definition post_increment_size : M Z :=
  sz <- get size_ ;;
  set_size (to_size_t (sz + 1)) ;;
  ret sz.

(** *** Reference parameters *)

(** Whether the vector in state [this] still owns the buffer it owned in
    state [at_call], earlier in the same member call.  [Reserve] is the
    only callee that replaces the buffer, and it does so exactly when it
    raises [capacity_]; the buffer it replaces is released when its local
    [tmp] goes out of scope. *)
Definition same_buffer (at_call this : t T) : bool :=
  bool_decide (capacity_ this = capacity_ at_call).

(** The value read through a reference parameter bound at the state
    [at_call], when the vector is in state [this].  [None] stands for a
    read from a released buffer or outside the buffer. *)
Definition deref (at_call this : t T) (r : Ref T) : option T :=
  match r with
  | outside x => Some x
  | element k =>
      if same_buffer at_call this then ArrayPtr.read (items_ this) k else None
  end.

Definition read_ref (at_call : t T) (r : Ref T) : M T :=
  this <- get id ;;
  defined (deref at_call this r).

(** What an assignment from [std::move(item)] leaves in the object [item]
    refers to, which held [x]; the value is that state. *)
Definition leave_moved_from (r : Ref T) (x : T) : M T :=
  match r with
  | outside _ => ret (moved_from x)
  | element k => operator_index_assign k (moved_from x) ;; ret (moved_from x)
  end.

(** [void PushBack(const Type& item)]: [item] is read by the assignment,
    after [DoubleIfFull()]. *)
Definition PushBack (item : Ref T) : M unit :=
  at_call <- get id ;;
  DoubleIfFull ;;
  x <- read_ref at_call item ;;
  index <- post_increment_size ;;
  operator_index_assign index x.

(** [void PushBack(Type&& item)]; the value is the state the object
    [item] refers to is left in. *)
Definition PushBack_rvalue (item : Ref T) : M T :=
  at_call <- get id ;;
  DoubleIfFull ;;
  x <- read_ref at_call item ;;
  index <- post_increment_size ;;
  operator_index_assign index x ;;
  leave_moved_from item x.

(** [void PopBack() noexcept] *)
Definition PopBack : M unit :=
  empty <- get IsEmpty ;;
  if negb empty then
    sz <- get size_ ;;
    set_size (to_size_t (sz - 1))
  else ret tt.

(** [Iterator Insert(ConstIterator pos, const Type& value)]: [value] is
    read by the assignment, after [DoubleIfFull()] and
    [std::move_backward]. *)
Definition Insert (pos : Iterator) (value : Ref T) : M Iterator :=
  at_call <- get id ;;
  b <- get begin ;;
  d <- defined (distance b pos) ;;
  let index := to_int d in
  DoubleIfFull ;;
  this <- get id ;;
  buf <- defined (std_move_backward (items_ this)
                    (advance (begin this) index) (end_ this)
                    (advance (end_ this) 1)) ;;
  set_items buf ;;
  x <- read_ref at_call value ;;
  operator_index_assign (to_size_t index) x ;;
  sz <- get size_ ;;
  set_size (to_size_t (sz + 1)) ;;
  this <- get id ;;
  ret (ArrayPtr.address (items_ this) (to_size_t index)).

(** [Iterator Insert(ConstIterator pos, Type&& value)]; the value pairs the
    returned iterator with the state the object [value] refers to is left
    in. *)
Definition Insert_rvalue (pos : Iterator) (value : Ref T) : M (Iterator * T) :=
  at_call <- get id ;;
  b <- get begin ;;
  d <- defined (distance b pos) ;;
  let index := to_int d in
  DoubleIfFull ;;
  this <- get id ;;
  buf <- defined (std_move_backward (items_ this)
                    (advance (begin this) index) (end_ this)
                    (advance (end_ this) 1)) ;;
  set_items buf ;;
  x <- read_ref at_call value ;;
  operator_index_assign (to_size_t index) x ;;
  y <- leave_moved_from value x ;;
  sz <- get size_ ;;
  set_size (to_size_t (sz + 1)) ;;
  this <- get id ;;
  ret (ArrayPtr.address (items_ this) (to_size_t index), y).

(** [Iterator Erase(ConstIterator pos)] *)
Definition Erase (pos : Iterator) : M Iterator :=
  b <- get begin ;;
  d <- defined (distance b pos) ;;
  let index := to_size_t d in
  b <- get begin ;;
  let it := advance b index in
  this <- get id ;;
  buf <- defined (std_copy_move_iterator (items_ this)
                    (advance it 1) (end_ this) it) ;;
  set_items buf ;;
  sz <- get size_ ;;
  set_size (to_size_t (sz - 1)) ;;
  sz <- get GetSize ;;
  if bool_decide (index = to_size_t sz) then
    get end_
  else
    this <- get id ;;
    ret (ArrayPtr.address (items_ this) index).

(** [Type& At(size_t index)] *)
Definition At (index : Z) : M T :=
  sz <- get GetSize ;;
  if bool_decide (index >= sz) then throw out_of_range
  else operator_index index.

(** [const Type& At(size_t index) const { return const_cast<Type&>(( *this ).At(index)); }]
    As with the const [operator[]], [( *this ).At] is this overload. *)
Fixpoint At_const (fuel : nat) (index : Z) : M T :=
  match fuel with
  | O => λ _, NoFuel
  | S fuel' => At_const fuel' index
  end.

(** [void Clear() noexcept] *)
Definition Clear : M unit := set_size 0.

(** *** Assignment *)

(** [SimpleVector& operator=(const SimpleVector& rhs)].  [rhs = None] is
    the call with the receiver itself as argument ([this == &rhs]). *)
Definition assign_copy (rhs : option (t T)) : M unit :=
  match rhs with
  | None => ret tt
  | Some rhs =>
      tmp <- local (SimpleVector_copy rhs) ;;
      _ <- swap tmp ;;
      ret tt
  end.

(** [SimpleVector& operator=(SimpleVector&& rhs)]; the value is the state
    [rhs] is left in when it is another object. *)
Definition assign_move (rhs : option (t T)) : M (option (t T)) :=
  match rhs with
  | None => ret None
  | Some rhs =>
      let '(mine, theirs) := ArrayPtr.move (items_ rhs) in
      set_items mine ;;
      set_size (size_ rhs) ;;
      set_capacity (capacity_ rhs) ;;
      ret (Some (mk theirs 0 0))
  end.

(** *** Representation invariant and abstraction *)

(** The buffer has exactly [capacity_] slots, all granted by the
    allocator, and the live range fits in it. *)
Definition wf (v : t T) : Prop :=
  Z.of_nat (length (items_ v)) = capacity_ v
  ∧ 0 ≤ size_ v ≤ capacity_ v
  ∧ capacity_ v ≤ alloc_limit.

(** The live elements: slots [0 .. size_ - 1]. *)
Definition live (v : t T) : list T := take (Z.to_nat (size_ v)) (items_ v).

(** The allocation that appending to a full vector asks for is granted. *)
Definition growth_granted (v : t T) : Prop :=
  size_ v = capacity_ v →
  (if bool_decide (capacity_ v = 0) then 1 else 2 * capacity_ v) ≤ alloc_limit.

(** The position [begin() + i]. *)
Definition position (v : t T) (i : Z) : Iterator := advance (begin v) i.

(** *** Reachable states *)

(** The object exists in state [v'] after the call: it returned, or it
    threw and left the object behind. *)
Definition leaves {A} (o : outcome (t T) A) (v' : t T) : Prop :=
  (∃ a, o = Return a v') ∨ (∃ e, o = Throw e v').

Definition builds (c : Ctor) (v : t T) : Prop := c = Return v tt.

Inductive reachable : t T → Prop :=
| reach_default v :
    builds SimpleVector_default v → reachable v
| reach_size n v :
    is_size_t n → builds (SimpleVector_size n) v → reachable v
| reach_size_value n x v :
    is_size_t n → builds (SimpleVector_size_value n x) v → reachable v
| reach_init_list l v :
    is_size_t (Z.of_nat (length l)) → builds (SimpleVector_init_list l) v →
    reachable v
| reach_copy other v :
    reachable other → builds (SimpleVector_copy other) v → reachable v
| reach_move other :
    reachable other → reachable (SimpleVector_move other).1
| reach_moved_from other :
    reachable other → reachable (SimpleVector_move other).2
| reach_reserve_ctor r v :
    is_size_t (capacity_to_reserve r) → builds (SimpleVector_reserve r) v →
    reachable v
| reach_PushBack v item v' :
    reachable v → leaves (PushBack item v) v' → reachable v'
| reach_PushBack_rvalue v item v' :
    reachable v → leaves (PushBack_rvalue item v) v' → reachable v'
| reach_PopBack v v' :
    reachable v → leaves (PopBack v) v' → reachable v'
| reach_Insert v pos value v' :
    reachable v → leaves (Insert pos value v) v' → reachable v'
| reach_Insert_rvalue v pos value v' :
    reachable v → leaves (Insert_rvalue pos value v) v' → reachable v'
| reach_Erase v pos v' :
    reachable v → leaves (Erase pos v) v' → reachable v'
| reach_Clear v v' :
    reachable v → leaves (Clear v) v' → reachable v'
| reach_Resize v n v' :
    reachable v → is_size_t n → leaves (Resize n v) v' → reachable v'
| reach_Reserve v n v' :
    reachable v → is_size_t n → leaves (Reserve n v) v' → reachable v'
| reach_At v i v' :
    reachable v → is_size_t i → leaves (At i v) v' → reachable v'
| reach_index_assign v i x v' :
    reachable v → is_size_t i → leaves (operator_index_assign i x v) v' →
    reachable v'
| reach_swap v other v' :
    reachable v → reachable other → leaves (swap other v) v' → reachable v'
| reach_swapped v other other' v' :
    reachable v → reachable other → swap other v = Return other' v' →
    reachable other'
| reach_assign_copy v rhs v' :
    reachable v → reachable rhs →
    leaves (assign_copy (Some rhs) v) v' → reachable v'
| reach_assign_copy_self v v' :
    reachable v → leaves (assign_copy None v) v' → reachable v'
| reach_assign_move v rhs v' :
    reachable v → reachable rhs →
    leaves (assign_move (Some rhs) v) v' → reachable v'
| reach_assign_move_self v v' :
    reachable v → leaves (assign_move None v) v' → reachable v'
| reach_assign_moved_from v rhs rhs' v' :
    reachable v → reachable rhs →
    assign_move (Some rhs) v = Return (Some rhs') v' → reachable rhs'.
End Methods.
End SimpleVector.

(** ** The comparison operators

    Free function templates over two [const SimpleVector<Type>&].  They only
    read, so their value is an [option bool], with [None] for undefined
    behaviour.  The element type supplies [==] and [<]. *)

Class Comparable (T : Type) := {
  elem_eq : T → T → bool;      (* a == b on elements *)
  elem_lt : T → T → bool;      (* a < b on elements *)
}.

Section Comparison.
Context {T : Type} `{!Comparable T}.

(** [std::equal(first1, last1, first2)]:
    [for (; first1 != last1; ++first1, ++first2) if (!( *first1 == *first2 )) return false;]
    [return true;] *)
Fixpoint equal_loop (n : nat) (b1 : list T) (first1 : Iterator)
    (b2 : list T) (first2 : Iterator) : option bool :=
  match n with
  | O => Some true
  | S n' =>
      x ← load b1 first1;
      y ← load b2 first2;
      if negb (elem_eq x y) then Some false
      else equal_loop n' b1 (advance first1 1) b2 (advance first2 1)
  end.

Definition std_equal (b1 : list T) (first1 last1 : Iterator)
    (b2 : list T) (first2 : Iterator) : option bool :=
  n ← range_length first1 last1;
  equal_loop n b1 first1 b2 first2.

(** [std::lexicographical_compare(first1, last1, first2, last2)]:
    [for (; first1 != last1 && first2 != last2; ++first1, ++first2) {]
    [  if ( *first1 < *first2 ) return true;]
    [  if ( *first2 < *first1 ) return false; }]
    [return first1 == last1 && first2 != last2;]
    [n1] and [n2] are the distances still to go in the two ranges. *)
Fixpoint lexicographical_compare_loop (n1 n2 : nat) (b1 : list T)
    (first1 : Iterator) (b2 : list T) (first2 : Iterator) : option bool :=
  match n1, n2 with
  | S n1', S n2' =>
      x ← load b1 first1;
      y ← load b2 first2;
      if elem_lt x y then Some true
      else if elem_lt y x then Some false
      else lexicographical_compare_loop n1' n2' b1 (advance first1 1)
             b2 (advance first2 1)
  | _, _ => Some (Nat.eqb n1 0 && negb (Nat.eqb n2 0))
  end.

Definition std_lexicographical_compare (b1 : list T) (first1 last1 : Iterator)
    (b2 : list T) (first2 last2 : Iterator) : option bool :=
  n1 ← range_length first1 last1;
  n2 ← range_length first2 last2;
  lexicographical_compare_loop n1 n2 b1 first1 b2 first2.

(** [operator==].  [rhs = None] is the comparison of an object with itself
    ([&lhs == &rhs]); the right operand of [||] and of [&&] is evaluated
    only when the left one does not decide. *)
Definition operator_eq (lhs : SimpleVector.t T) (rhs : option (SimpleVector.t T))
  : option bool :=
  match rhs with
  | None => Some true
  | Some rhs =>
      if bool_decide (SimpleVector.GetSize lhs = SimpleVector.GetSize rhs)
      then std_equal (SimpleVector.items_ lhs) (SimpleVector.cbegin lhs)
             (SimpleVector.cend lhs)
             (SimpleVector.items_ rhs) (SimpleVector.cbegin rhs)
      else Some false
  end.

(** [operator!=]: [!(lhs == rhs)] *)
Definition operator_ne (lhs : SimpleVector.t T) (rhs : option (SimpleVector.t T))
  : option bool :=
  negb <$> operator_eq lhs rhs.

(** [operator<] *)
Definition operator_lt (lhs rhs : SimpleVector.t T) : option bool :=
  std_lexicographical_compare
    (SimpleVector.items_ lhs) (SimpleVector.cbegin lhs) (SimpleVector.cend lhs)
    (SimpleVector.items_ rhs) (SimpleVector.cbegin rhs) (SimpleVector.cend rhs).

(** [operator>]: [rhs < lhs] *)
Definition operator_gt (lhs rhs : SimpleVector.t T) : option bool :=
  operator_lt rhs lhs.

(** [operator<=]: [!(lhs > rhs)] *)
Definition operator_le (lhs rhs : SimpleVector.t T) : option bool :=
  negb <$> operator_gt lhs rhs.

(** [operator>=]: [!(lhs < rhs)] *)
Definition operator_ge (lhs rhs : SimpleVector.t T) : option bool :=
  negb <$> operator_lt lhs rhs.

(** The comparisons the operators are measured against: element-wise
    equality of two sequences of the same length, and the lexicographic
    order of two sequences. *)
Fixpoint pairwise_eq (l1 l2 : list T) : bool :=
  match l1, l2 with
  | [], [] => true
  | x :: l1', y :: l2' => elem_eq x y && pairwise_eq l1' l2'
  | _, _ => false
  end.

Fixpoint lexicographic_lt (l1 l2 : list T) : bool :=
  match l1, l2 with
  | x :: l1', y :: l2' =>
      if elem_lt x y then true
      else if elem_lt y x then false
      else lexicographic_lt l1' l2'
  | [], _ :: _ => true
  | _, [] => false
  end.

(** [==] on elements is equality. *)
Definition eq_is_equality : Prop :=
  ∀ x y : T, elem_eq x y = true ↔ x = y.

(** Exactly one of [x < y], [x == y] and [y < x] holds for any two elements. *)
Definition trichotomous : Prop :=
  eq_is_equality
  ∧ (∀ x : T, elem_lt x x = false)
  ∧ (∀ x y : T, x ≠ y → elem_lt x y = true ∨ elem_lt y x = true)
  ∧ (∀ x y : T, elem_lt x y = true → elem_lt y x = false).
End Comparison.

(** ** A caller's loop *)

Section Callers.
Context {T : Type} `{!Element T} `{!Heap}.

(** [for (const Type& x : l) v.PushBack(x);] *)
Fixpoint push_all (l : list T) : SimpleVector.M unit :=
  match l with
  | [] => ret tt
  | x :: l' => SimpleVector.PushBack (SimpleVector.outside x) ;; push_all l'
  end.

(** The capacities that repeated doubling from 0 produces: none at all, or a
    power of two that is less than twice the size. *)
Definition doubling_capacity (v : SimpleVector.t T) : Prop :=
  (SimpleVector.size_ v = 0 ∧ SimpleVector.capacity_ v = 0)
  ∨ ∃ k, 0 ≤ k ∧ SimpleVector.capacity_ v = 2 ^ k
         ∧ SimpleVector.size_ v ≤ SimpleVector.capacity_ v
         ∧ SimpleVector.capacity_ v < 2 * SimpleVector.size_ v.
End Callers.

(** ** Instances used in the examples *)

(** Arithmetic elements ([int], [char], ...): value-initialised to 0;
    moving one copies it. *)
Definition int_element : Element Z :=
  {| value_init := 0; moved_from := λ x, x |}.

(** Arithmetic elements compare by value. *)
Definition int_comparable : Comparable Z :=
  {| elem_eq := Z.eqb; elem_lt := Z.ltb |}.

(** A free store that grants arrays of up to 2^40 elements. *)
Definition heap_2_40 : Heap :=
  {| alloc_limit := 2 ^ 40; alloc_limit_range := eq_refl |}.

(** An element type on which [==] is not reflexive, as for floating-point
    numbers with a NaN: here 0 compares unequal to everything, itself
    included. *)
Definition nan_like_comparable : Comparable Z :=
  {| elem_eq := λ x y, negb (x =? 0) && (x =? y); elem_lt := Z.ltb |}.

(** A free store that grants arrays of up to 4 elements. *)
Definition heap_4 : Heap :=
  {| alloc_limit := 4; alloc_limit_range := eq_refl |}.

(** ** Example vectors of an arithmetic element type *)

(** The argument of [SimpleVector<int> v(Reserve(5));] *)
Definition reserve_five : ReserveProxyObj := Reserve 5.

(** [SimpleVector<int> v(Reserve(5));] *)
Definition reserved_vector : SimpleVector.t Z := SimpleVector.mk [0; 0; 0; 0; 0] 0 5.

(** [SimpleVector<int> v(Reserve(5)); v.PushBack(7);] *)
Definition sparse_vector : SimpleVector.t Z := SimpleVector.mk [7; 0; 0; 0; 0] 1 5.

(** [SimpleVector<int> v{1, 2, 3};] *)
Definition small_vector : SimpleVector.t Z := SimpleVector.mk [1; 2; 3] 3 3.

(** [SimpleVector<int> v{0, 1};] *)
Definition zero_one_vector : SimpleVector.t Z := SimpleVector.mk [0; 1] 2 2.

(** [SimpleVector<int> v{1, 2};] with room for four elements *)
Definition roomy_vector : SimpleVector.t Z := SimpleVector.mk [1; 2; 0; 0] 2 4.

(** [SimpleVector<char> v(4294967296);] *)
Definition huge_vector : SimpleVector.t Z :=
  SimpleVector.mk (replicate (Z.to_nat (2 ^ 32)) 0) (2 ^ 32) (2 ^ 32).

(** * Facts *)

Import SimpleVector.

Lemma alloc_limit_bounds `{!Heap} : 0 ≤ alloc_limit ≤ PTRDIFF_MAX.
Proof.
  pose proof alloc_limit_range as Hr.
  apply andb_true_iff in Hr as [H1 H2].
  apply Z.leb_le in H1, H2. lia.
Qed.

Lemma to_size_t_small z : 0 ≤ z ≤ SIZE_MAX → to_size_t z = z.
Proof. unfold to_size_t, SIZE_MAX. intros. apply Z.mod_small. lia. Qed.

Lemma to_int_small z : 0 ≤ z ≤ INT_MAX → to_int z = z.
Proof.
  unfold to_int, INT_MAX. intros.
  rewrite Z.mod_small by lia. lia.
Qed.

(** ** The buffer and the algorithms *)

Section AlgorithmFacts.
Context {T : Type} `{!Element T}.
Implicit Types (b pre mid post src dst smid dmid : list T) (x y : T).
Implicit Types (p q : Iterator).

Lemma read_middle pre post x i :
  i = Z.of_nat (length pre) → ArrayPtr.read (pre ++ x :: post) i = Some x.
Proof.
  intros ->. unfold ArrayPtr.read.
  rewrite bool_decide_true by lia.
  rewrite Nat2Z.id. by apply list_lookup_middle.
Qed.

Lemma write_middle pre post x y i :
  i = Z.of_nat (length pre) →
  ArrayPtr.write (pre ++ x :: post) i y = Some (pre ++ y :: post).
Proof.
  intros ->. unfold ArrayPtr.write.
  rewrite bool_decide_true by (rewrite length_app; simpl; lia).
  rewrite Nat2Z.id. f_equal.
  replace (length pre) with (length pre + 0)%nat at 1 by lia.
  by rewrite insert_app_r.
Qed.

Lemma write_length b i x b' :
  ArrayPtr.write b i x = Some b' → length b' = length b.
Proof.
  unfold ArrayPtr.write. case_bool_decide; [|done].
  intros [= <-]. by rewrite length_insert.
Qed.

Lemma store_length b p x b' : store b p x = Some b' → length b' = length b.
Proof. destruct p; simpl; [done|]. apply write_length. Qed.

(** The loops never change the number of slots. *)
Lemma fill_loop_length n : ∀ b p x b',
  fill_loop n b p x = Some b' → length b' = length b.
Proof.
  induction n as [|n IH]; intros b p x b'; simpl.
  - by intros [= <-].
  - destruct (store b p x) as [b1|] eqn:E; simpl; [|done].
    intros H. rewrite (IH _ _ _ _ H). by eapply store_length.
Qed.

Lemma copy_loop_length n : ∀ src p dst q dst',
  copy_loop n src p dst q = Some dst' → length dst' = length dst.
Proof.
  induction n as [|n IH]; intros src p dst q dst'; simpl.
  - by intros [= <-].
  - destruct (load src p) as [x|]; simpl; [|done].
    destruct (store dst q x) as [d1|] eqn:E; simpl; [|done].
    intros H. rewrite (IH _ _ _ _ _ H). by eapply store_length.
Qed.

Lemma move_loop_length n : ∀ src p dst q src' dst',
  move_loop n src p dst q = Some (src', dst') →
  length src' = length src ∧ length dst' = length dst.
Proof.
  induction n as [|n IH]; intros src p dst q src' dst'; simpl.
  - by intros [= <- <-].
  - destruct (load src p) as [x|]; simpl; [|done].
    destruct (store dst q x) as [d1|] eqn:E1; simpl; [|done].
    destruct (store src p (moved_from x)) as [s1|] eqn:E2; simpl; [|done].
    intros H. destruct (IH _ _ _ _ _ _ H) as [-> ->].
    split; by eapply store_length.
Qed.

Lemma move_within_loop_length n : ∀ b p q b',
  move_within_loop n b p q = Some b' → length b' = length b.
Proof.
  induction n as [|n IH]; intros b p q b'; simpl.
  - by intros [= <-].
  - destruct (load b p) as [x|]; simpl; [|done].
    destruct (store b q x) as [b1|] eqn:E1; simpl; [|done].
    destruct (store b1 p (moved_from x)) as [b2|] eqn:E2; simpl; [|done].
    intros H. rewrite (IH _ _ _ _ H).
    rewrite (store_length _ _ _ _ E2). by eapply store_length.
Qed.

Lemma move_backward_loop_length n : ∀ b p q b',
  move_backward_loop n b p q = Some b' → length b' = length b.
Proof.
  induction n as [|n IH]; intros b p q b'; simpl.
  - by intros [= <-].
  - destruct (load b _) as [x|]; simpl; [|done].
    destruct (store b _ x) as [b1|] eqn:E1; simpl; [|done].
    destruct (store b1 _ (moved_from x)) as [b2|] eqn:E2; simpl; [|done].
    intros H. rewrite (IH _ _ _ _ H).
    rewrite (store_length _ _ _ _ E2). by eapply store_length.
Qed.

(** [std::fill] over slots [|pre| .. |pre| + |mid|). *)
Lemma fill_loop_slots mid : ∀ pre post x i,
  i = Z.of_nat (length pre) →
  fill_loop (length mid) (pre ++ mid ++ post) (slot i) x
  = Some (pre ++ replicate (length mid) x ++ post).
Proof.
  induction mid as [|m mid IH]; intros pre post x i Hi; [done|].
  simpl. rewrite (write_middle _ _ _ _ _ Hi). simpl.
  replace (pre ++ x :: mid ++ post) with ((pre ++ [x]) ++ mid ++ post)
    by (by rewrite <- app_assoc).
  rewrite IH by (rewrite length_app; simpl; lia).
  by rewrite <- app_assoc.
Qed.

(** [std::copy] of the slots [smid] of one buffer over the slots [dmid]
    of another. *)
Lemma copy_loop_slots smid : ∀ spre spost dpre dmid dpost i j,
  i = Z.of_nat (length spre) → j = Z.of_nat (length dpre) →
  length dmid = length smid →
  copy_loop (length smid) (spre ++ smid ++ spost) (slot i)
    (dpre ++ dmid ++ dpost) (slot j)
  = Some (dpre ++ smid ++ dpost).
Proof.
  induction smid as [|s smid IH]; intros spre spost dpre dmid dpost i j Hi Hj Hl.
  - by destruct dmid.
  - destruct dmid as [|d dmid]; [done|]. simpl in Hl.
    cbn [length copy_loop load store advance app].
    rewrite (read_middle _ _ _ _ Hi). cbn [mbind option_bind].
    rewrite (write_middle _ _ _ _ _ Hj). cbn [mbind option_bind].
    replace (spre ++ s :: smid ++ spost) with ((spre ++ [s]) ++ smid ++ spost)
      by (by rewrite <- app_assoc).
    replace (dpre ++ s :: dmid ++ dpost) with ((dpre ++ [s]) ++ dmid ++ dpost)
      by (by rewrite <- app_assoc).
    rewrite IH; rewrite ?length_app; simpl; try lia.
    by rewrite <- app_assoc.
Qed.

(** [std::move] of the slots [smid] of one buffer over the slots [dmid] of
    another: the destination receives them, the source keeps moved-from
    elements. *)
Lemma move_loop_slots smid : ∀ spre spost dpre dmid dpost i j,
  i = Z.of_nat (length spre) → j = Z.of_nat (length dpre) →
  length dmid = length smid →
  move_loop (length smid) (spre ++ smid ++ spost) (slot i)
    (dpre ++ dmid ++ dpost) (slot j)
  = Some (spre ++ (moved_from <$> smid) ++ spost, dpre ++ smid ++ dpost).
Proof.
  induction smid as [|s smid IH]; intros spre spost dpre dmid dpost i j Hi Hj Hl.
  - by destruct dmid.
  - destruct dmid as [|d dmid]; [done|]. simpl in Hl.
    cbn [length move_loop load store advance app].
    rewrite (read_middle _ _ _ _ Hi). cbn [mbind option_bind].
    rewrite (write_middle _ _ _ _ _ Hj). cbn [mbind option_bind].
    rewrite (write_middle _ _ _ _ _ Hi). cbn [mbind option_bind].
    replace (spre ++ moved_from s :: smid ++ spost)
      with ((spre ++ [moved_from s]) ++ smid ++ spost)
      by (by rewrite <- app_assoc).
    replace (dpre ++ s :: dmid ++ dpost) with ((dpre ++ [s]) ++ dmid ++ dpost)
      by (by rewrite <- app_assoc).
    rewrite IH; rewrite ?length_app; simpl; try lia.
    by rewrite <- !app_assoc.
Qed.

(** The loop of [Erase]: the slots [mid] behind the slot holding [x] move
    one slot towards the head, first to last.  The slot vacated last keeps
    a moved-from element. *)
Lemma move_within_loop_slots mid : ∀ pre post x i,
  i = Z.of_nat (length pre) →
  move_within_loop (length mid) (pre ++ x :: mid ++ post) (slot (i + 1)) (slot i)
  = Some (pre ++ mid ++ from_option moved_from x (last mid) :: post).
Proof.
  induction mid as [|m mid IH]; intros pre post x i Hi; [done|].
  cbn [length move_within_loop load store advance app].
  replace (pre ++ x :: m :: mid ++ post)
    with ((pre ++ [x]) ++ m :: mid ++ post) by (by rewrite <- app_assoc).
  rewrite read_middle by (rewrite length_app; simpl; lia).
  cbn [mbind option_bind].
  rewrite <- app_assoc. cbn [app].
  rewrite (write_middle _ _ _ _ _ Hi). cbn [mbind option_bind].
  replace (pre ++ m :: m :: mid ++ post)
    with ((pre ++ [m]) ++ m :: mid ++ post) by (by rewrite <- app_assoc).
  rewrite write_middle by (rewrite length_app; simpl; lia).
  cbn [mbind option_bind].
  rewrite IH by (rewrite length_app; simpl; lia).
  rewrite <- app_assoc. cbn [app].
  destruct mid as [|m' mid']; [done|].
  rewrite last_cons_cons.
  destruct (last (m' :: mid')) eqn:E; [done|].
  by apply last_None in E.
Qed.

(** The loop of [Insert]: the slots [mid] move one slot towards the tail,
    last to first, over the slot holding [y].  The first of them keeps a
    moved-from element. *)
Lemma move_backward_loop_slots mid : ∀ pre post y i,
  i = Z.of_nat (length pre + length mid) →
  move_backward_loop (length mid) (pre ++ mid ++ y :: post)
    (slot i) (slot (i + 1))
  = Some (pre ++ from_option moved_from y (head mid) :: mid ++ post).
Proof.
  induction mid as [|z mid IH] using rev_ind; intros pre post y i Hi; [done|].
  rewrite length_app, Nat.add_1_r.
  rewrite length_app in Hi. simpl in Hi.
  cbn [move_backward_loop load store advance].
  replace (pre ++ (mid ++ [z]) ++ y :: post)
    with ((pre ++ mid) ++ z :: y :: post)
    by (by rewrite <- !app_assoc).
  rewrite read_middle by (rewrite length_app; lia).
  cbn [mbind option_bind].
  replace ((pre ++ mid) ++ z :: y :: post)
    with ((pre ++ mid ++ [z]) ++ y :: post)
    by (by rewrite <- !app_assoc).
  rewrite write_middle by (rewrite !length_app; simpl; lia).
  cbn [mbind option_bind].
  replace ((pre ++ mid ++ [z]) ++ z :: post)
    with ((pre ++ mid) ++ z :: z :: post)
    by (by rewrite <- !app_assoc).
  rewrite write_middle by (rewrite length_app; lia).
  cbn [mbind option_bind].
  rewrite <- app_assoc.
  replace (i + 1 + -1) with (i + -1 + 1) by lia.
  rewrite IH by lia.
  rewrite <- !app_assoc. cbn [app].
  by destruct mid.
Qed.

(** A null-based range of positive length cannot be filled. *)
Lemma fill_loop_null n b k x :
  n ≠ 0%nat → fill_loop n b (null_offset k) x = None.
Proof. by destruct n. Qed.
End AlgorithmFacts.

(** ** The container *)

Section Facts.
Context {T : Type} `{!Element T} `{!Heap}.
Implicit Types (v other : t T) (b : list T) (x : T) (item value : Ref T).

Lemma address_allocated b i : b ≠ [] → ArrayPtr.address b i = slot i.
Proof. by destruct b. Qed.

Lemma wf_items_nonempty v : wf v → 0 < size_ v → items_ v ≠ [].
Proof.
  intros (Hlen & Hsz & _) Hpos Hnil. rewrite Hnil in Hlen. simpl in Hlen. lia.
Qed.

Lemma begin_nonempty v : wf v → 0 < size_ v → begin v = slot 0.
Proof.
  intros Hwf Hpos. unfold begin, IsEmpty, GetSize.
  rewrite bool_decide_false by lia.
  by apply address_allocated, wf_items_nonempty.
Qed.

Lemma end_nonempty v : wf v → 0 < size_ v → end_ v = slot (size_ v).
Proof.
  intros Hwf Hpos. unfold end_, IsEmpty, GetSize.
  rewrite bool_decide_false by lia.
  by apply address_allocated, wf_items_nonempty.
Qed.

Lemma begin_empty v : size_ v = 0 → begin v = nullptr.
Proof. intros Hz. unfold begin, IsEmpty, GetSize. by rewrite bool_decide_true. Qed.

Lemma end_empty v : size_ v = 0 → end_ v = nullptr.
Proof. intros Hz. unfold end_, IsEmpty, GetSize. by rewrite bool_decide_true. Qed.

Lemma range_length_slots i j :
  i ≤ j → range_length (slot i) (slot j) = Some (Z.to_nat (j - i)).
Proof.
  intros Hij. unfold range_length. simpl.
  by rewrite bool_decide_true by lia.
Qed.

Lemma range_length_same p : range_length p p = Some 0%nat.
Proof.
  unfold range_length. destruct p; simpl;
    rewrite bool_decide_true by lia; f_equal; lia.
Qed.

(** Moving or copying the first [k] slots of one buffer onto the first
    [k] slots of another. *)
Lemma move_loop_prefix (src dst : list T) (k : nat) :
  (k ≤ length src)%nat → (k ≤ length dst)%nat →
  move_loop k src (slot 0) dst (slot 0)
  = Some ((moved_from <$> take k src) ++ drop k src, take k src ++ drop k dst).
Proof.
  intros Hs Hd.
  pose proof (move_loop_slots (take k src) [] (drop k src) []
                (take k dst) (drop k dst) 0 0) as Hm.
  rewrite !length_take_le in Hm by done.
  rewrite !app_nil_l, !take_drop in Hm. by apply Hm.
Qed.

Lemma copy_loop_prefix (src dst : list T) (k : nat) :
  (k ≤ length src)%nat → (k ≤ length dst)%nat →
  copy_loop k src (slot 0) dst (slot 0) = Some (take k src ++ drop k dst).
Proof.
  intros Hs Hd.
  pose proof (copy_loop_slots (take k src) [] (drop k src) []
                (take k dst) (drop k dst) 0 0) as Hm.
  rewrite !length_take_le in Hm by done.
  rewrite !app_nil_l, !take_drop in Hm. by apply Hm.
Qed.

(** *** Reserve and Resize *)

Lemma Resize_body_shrink (R : Z → M unit) n v :
  n < size_ v → Resize_body R n v = Return tt (mk (items_ v) n (capacity_ v)).
Proof.
  intros Hn. unfold Resize_body, bind, get, GetSize.
  by rewrite bool_decide_true by done.
Qed.

(** One unfolding of the recursion between [Reserve] and [Resize] is all
    any call needs: the nested [tmp.Resize] only ever shrinks [tmp]. *)
Lemma Reserve_fuel_enough fuel n v :
  Reserve_fuel (S fuel) n v = Reserve_fuel 1 n v.
Proof.
  cbn [Reserve_fuel]. unfold Reserve_body, bind, get, GetCapacity.
  case_bool_decide as Hn; [|done].
  unfold local, SimpleVector_size.
  destruct (ArrayPtr.sized n) as [b|]; [|done].
  unfold call_on. by rewrite !Resize_body_shrink by (simpl; lia).
Qed.

Lemma Reserve_no_fuel_needed fuel n v : Reserve_fuel (S fuel) n v ≠ NoFuel.
Proof.
  rewrite Reserve_fuel_enough.
  cbn [Reserve_fuel]. unfold Reserve_body, bind, get, GetCapacity.
  case_bool_decide as Hn; [|done].
  unfold local, SimpleVector_size.
  destruct (ArrayPtr.sized n) as [b|]; [|done].
  unfold call_on. rewrite Resize_body_shrink by (simpl; lia).
  unfold defined. by destruct (std_move _ _ _ _ _).
Qed.

Lemma sized_granted n :
  0 < n ≤ alloc_limit →
  ArrayPtr.sized n = Some (replicate (Z.to_nat n) value_init).
Proof.
  intros Hn. unfold ArrayPtr.sized.
  rewrite bool_decide_false by lia.
  by rewrite bool_decide_true by lia.
Qed.

Lemma sized_refused n : alloc_limit < n → ArrayPtr.sized (T:=T) n = None.
Proof.
  intros Hn. pose proof alloc_limit_bounds. unfold ArrayPtr.sized.
  rewrite bool_decide_false by lia.
  by rewrite bool_decide_false by lia.
Qed.

Lemma Reserve_noop n v : n ≤ capacity_ v → Reserve n v = Return tt v.
Proof.
  intros Hn. unfold Reserve, call_depth. cbn [Reserve_fuel].
  unfold Reserve_body, bind, get, GetCapacity.
  by rewrite bool_decide_false by lia.
Qed.

Lemma Reserve_refused n v :
  capacity_ v < n → alloc_limit < n → Reserve n v = Throw bad_alloc v.
Proof.
  intros Hn Ha. unfold Reserve, call_depth. cbn [Reserve_fuel].
  unfold Reserve_body, bind, get, GetCapacity.
  rewrite bool_decide_true by lia.
  unfold local, SimpleVector_size. by rewrite sized_refused.
Qed.

(** What [Reserve] does when it reallocates: the new buffer has [n] slots,
    the live elements come first, the other slots are value-initialised,
    and [size_] becomes the old [capacity_]. *)
Lemma Reserve_grows n v :
  wf v → capacity_ v < n ≤ alloc_limit →
  Reserve n v
  = Return tt (mk (live v ++ replicate (Z.to_nat (n - size_ v)) value_init)
                 (capacity_ v) n).
Proof.
  intros Hwf Hn. pose proof Hwf as (Hlen & Hsz & Hcap).
  unfold Reserve, call_depth. cbn [Reserve_fuel].
  unfold Reserve_body, bind, get, GetCapacity.
  rewrite bool_decide_true by lia.
  unfold local, SimpleVector_size. rewrite sized_granted by lia.
  unfold call_on. rewrite Resize_body_shrink by (simpl; lia).
  cbn [items_ size_ capacity_ snd id].
  unfold defined, std_move, live.
  destruct (decide (size_ v = 0)) as [Hz|Hz].
  - rewrite begin_empty, end_empty by done.
    rewrite range_length_same. simpl.
    unfold swap, set_items. simpl. rewrite Hz, Z.sub_0_r. done.
  - rewrite begin_nonempty, end_nonempty by (done || lia).
    rewrite range_length_slots by lia. cbn [mbind option_bind].
    rewrite Z.sub_0_r.
    assert (begin (mk (replicate (Z.to_nat n) value_init) (capacity_ v) n)
            = slot 0) as ->.
    { unfold begin, IsEmpty, GetSize. cbn [size_ items_].
      rewrite bool_decide_false by lia.
      apply address_allocated. intros Hr.
      apply (f_equal length) in Hr. rewrite length_replicate in Hr.
      simpl in Hr. lia. }
    rewrite move_loop_prefix by (rewrite ?length_replicate; lia).
    unfold swap, set_items. cbn.
    rewrite drop_replicate. unfold ret. do 4 f_equal. lia.
Qed.

Lemma wf_live_length v : wf v → length (live v) = Z.to_nat (size_ v).
Proof.
  intros (Hlen & Hsz & _). unfold live. rewrite length_take_le; lia.
Qed.

Lemma Reserve_grows_wf n v :
  wf v → capacity_ v < n ≤ alloc_limit →
  wf (mk (live v ++ replicate (Z.to_nat (n - size_ v)) value_init)
        (capacity_ v) n).
Proof.
  intros Hwf Hn. pose proof Hwf as (Hlen & Hsz & Hcap).
  repeat split; cbn [items_ size_ capacity_]; try lia.
  rewrite length_app, length_replicate, wf_live_length by done. lia.
Qed.

Lemma Reserve_grows_live n v :
  wf v → capacity_ v < n →
  take (Z.to_nat (size_ v))
    (live v ++ replicate (Z.to_nat (n - size_ v)) value_init) = live v.
Proof.
  intros Hwf Hn. by rewrite take_app_length' by (by rewrite wf_live_length).
Qed.

(** Every call of [Reserve] on a well-formed vector either returns a
    well-formed vector or throws [std::bad_alloc] and changes nothing. *)
Lemma Reserve_cases n v :
  wf v →
  (∃ v', Reserve n v = Return tt v' ∧ wf v' ∧ capacity_ v ≤ capacity_ v')
  ∨ Reserve n v = Throw bad_alloc v.
Proof.
  intros Hwf.
  destruct (decide (n ≤ capacity_ v)) as [Hle|Hgt].
  - left. exists v. by rewrite Reserve_noop.
  - destruct (decide (n ≤ alloc_limit)) as [Hok|Hno].
    + left. eexists. rewrite Reserve_grows by (done || lia).
      split; [done|]. split; [apply Reserve_grows_wf; (done || lia)|].
      simpl. lia.
    + right. apply Reserve_refused; lia.
Qed.

(** *** DoubleIfFull *)

Lemma DoubleIfFull_spare v : size_ v ≠ capacity_ v → DoubleIfFull v = Return tt v.
Proof.
  intros Hne. unfold DoubleIfFull, bind, get, GetSize, GetCapacity.
  by rewrite bool_decide_false.
Qed.

Lemma DoubleIfFull_full v :
  size_ v = capacity_ v →
  DoubleIfFull v
  = Reserve (if bool_decide (capacity_ v ≠ 0) then to_size_t (capacity_ v * 2) else 1) v.
Proof.
  intros Heq. unfold DoubleIfFull, bind, get, GetSize, GetCapacity.
  by rewrite bool_decide_true.
Qed.

(** The capacity [DoubleIfFull] asks for, without the wrap-around. *)
Lemma doubled_capacity v :
  wf v →
  (if bool_decide (capacity_ v ≠ 0) then to_size_t (capacity_ v * 2) else 1)
  = (if bool_decide (capacity_ v = 0) then 1 else 2 * capacity_ v).
Proof.
  intros (Hlen & Hsz & Hcap). pose proof alloc_limit_bounds.
  unfold PTRDIFF_MAX in *.
  repeat case_bool_decide; try done.
  rewrite to_size_t_small; unfold SIZE_MAX; lia.
Qed.

(** When the growth is granted, [DoubleIfFull] returns a vector with the
    same live elements and room for one more. *)
Lemma DoubleIfFull_granted v :
  wf v → growth_granted v →
  ∃ v1, DoubleIfFull v = Return tt v1
    ∧ wf v1
    ∧ size_ v1 = size_ v
    ∧ size_ v < capacity_ v1
    ∧ live v1 = live v
    ∧ capacity_ v1 = (if bool_decide (size_ v = capacity_ v)
                      then (if bool_decide (capacity_ v = 0) then 1
                            else 2 * capacity_ v)
                      else capacity_ v).
Proof.
  intros Hwf Hgr. pose proof Hwf as (Hlen & Hsz & Hcap).
  case_bool_decide as Hfull.
  - rewrite DoubleIfFull_full, doubled_capacity by done.
    specialize (Hgr Hfull).
    set (n := if bool_decide (capacity_ v = 0) then 1 else 2 * capacity_ v) in *.
    assert (capacity_ v < n) by (unfold n; case_bool_decide; lia).
    eexists. rewrite Reserve_grows by (done || lia).
    split; [done|]. split; [apply Reserve_grows_wf; (done || lia)|].
    cbn [items_ size_ capacity_]. repeat split; try lia.
    unfold live at 1. cbn [items_ size_ capacity_].
    rewrite <- Hfull. by apply Reserve_grows_live with (n := n); [|lia].
  - exists v. rewrite DoubleIfFull_spare by done.
    repeat split; (done || lia).
Qed.

Lemma DoubleIfFull_cases v :
  wf v →
  (∃ v1, DoubleIfFull v = Return tt v1 ∧ wf v1
         ∧ size_ v1 = size_ v ∧ size_ v < capacity_ v1)
  ∨ DoubleIfFull v = Throw bad_alloc v.
Proof.
  intros Hwf. pose proof Hwf as (Hlen & Hsz & Hcap).
  destruct (decide (size_ v = capacity_ v)) as [Hfull|Hspare].
  - destruct (decide ((if bool_decide (capacity_ v = 0) then 1
                       else 2 * capacity_ v) ≤ alloc_limit)) as [Hok|Hno].
    + left. destruct (DoubleIfFull_granted v) as (v1 & ? & ? & ? & ? & _);
        [done|by intros _|]. by exists v1.
    + right. rewrite DoubleIfFull_full, doubled_capacity by done.
      apply Reserve_refused; case_bool_decide; lia.
  - left. exists v. rewrite DoubleIfFull_spare by done.
    repeat split; (done || lia).
Qed.

(** *** PushBack *)

Lemma write_at b (i : Z) x :
  0 ≤ i < Z.of_nat (length b) →
  ArrayPtr.write b i x
  = Some (take (Z.to_nat i) b ++ x :: drop (S (Z.to_nat i)) b).
Proof.
  intros Hi. unfold ArrayPtr.write. rewrite bool_decide_true by done.
  f_equal. apply insert_take_drop. lia.
Qed.

Lemma read_at b (i : Z) :
  0 ≤ i → ArrayPtr.read b i = b !! Z.to_nat i.
Proof. intros Hi. unfold ArrayPtr.read. by rewrite bool_decide_true. Qed.

(** With an argument outside the buffer the call is the one that takes
    the value. *)
Lemma PushBack_outside x v :
  PushBack (outside x) v
  = (DoubleIfFull ;;
     index <- post_increment_size ;;
     operator_index_assign index x) v.
Proof. reflexivity. Qed.

Lemma Insert_outside pos x v :
  Insert pos (outside x) v
  = (b <- get begin ;;
     d <- defined (distance b pos) ;;
     DoubleIfFull ;;
     this <- get id ;;
     buf <- defined (std_move_backward (items_ this)
                       (advance (begin this) (to_int d)) (end_ this)
                       (advance (end_ this) 1)) ;;
     set_items buf ;;
     operator_index_assign (to_size_t (to_int d)) x ;;
     sz <- get size_ ;;
     set_size (to_size_t (sz + 1)) ;;
     this <- get id ;;
     ret (ArrayPtr.address (items_ this) (to_size_t (to_int d)))) v.
Proof. reflexivity. Qed.

(** A call with a reference argument either reads through a reference
    that no longer refers to an object, or it is the call with the value
    read as argument. *)
Lemma PushBack_ref_cases item v :
  PushBack item v = Undefined
  ∨ ∃ y, PushBack item v = PushBack (outside y) v.
Proof.
  unfold PushBack, bind, get, id.
  destruct (DoubleIfFull v) as [[] v1|e v1| |].
  - unfold read_ref, bind, get, defined, id.
    destruct (deref v v1 item) as [y|] eqn:Hy; [right; by exists y|by left].
  - right. by exists value_init.
  - by left.
  - right. by exists value_init.
Qed.

Lemma Insert_ref_cases pos value v :
  Insert pos value v = Undefined
  ∨ ∃ y, Insert pos value v = Insert pos (outside y) v.
Proof.
  unfold Insert, bind, get, defined, id.
  destruct (distance (begin v) pos) as [d|]; [|by left].
  destruct (DoubleIfFull v) as [[] v1|e v1| |].
  - destruct (std_move_backward _ _ _ _) as [buf|]; [|by left].
    unfold set_items, read_ref, bind, get, defined, id.
    destruct (deref v _ value) as [y|] eqn:Hy; [right; by exists y|by left].
  - right. by exists value_init.
  - by left.
  - right. by exists value_init.
Qed.

(** The rvalue overloads do what the lvalue overloads do and then leave
    the object the argument refers to in its moved-from state. *)
Lemma PushBack_rvalue_cases item v :
  PushBack_rvalue item v = Undefined
  ∨ ∃ y, PushBack_rvalue item v
         = (PushBack (outside y) ;; leave_moved_from item y) v.
Proof.
  unfold PushBack_rvalue, PushBack, bind, get, id.
  destruct (DoubleIfFull v) as [[] v1|e v1| |].
  - unfold read_ref, bind, get, defined, id.
    destruct (deref v v1 item) as [y|] eqn:Hy; [right; exists y|by left].
    cbn [deref].
    by destruct (post_increment_size v1) as [index v2|e v2| |].
  - right. by exists value_init.
  - by left.
  - right. by exists value_init.
Qed.

Lemma leave_moved_from_outside x y :
  leave_moved_from (outside x) y = ret (moved_from y).
Proof. done. Qed.

(** Leaving an element in its moved-from state changes neither the number
    of slots, nor the size, nor the capacity. *)
Lemma leave_moved_from_frame item y v z v' :
  leave_moved_from item y v = Return z v' →
  length (items_ v') = length (items_ v)
  ∧ size_ v' = size_ v ∧ capacity_ v' = capacity_ v.
Proof.
  destruct item as [x|k]; simpl.
  - unfold ret. by intros [= _ <-].
  - unfold operator_index_assign, bind, get, defined, set_items, ret, id.
    unfold ArrayPtr.write. case_bool_decide; [|done].
    intros [= _ <-]. cbn [items_ size_ capacity_].
    by rewrite length_insert.
Qed.

Lemma leave_moved_from_no_throw item y v e v' :
  leave_moved_from item y v ≠ Throw e v'.
Proof.
  destruct item as [x|k]; simpl; [done|].
  unfold operator_index_assign, bind, get, defined, set_items, ret, id.
  by destruct (ArrayPtr.write _ _ _).
Qed.

Lemma PushBack_ref_after_growth v v1 item x :
  DoubleIfFull v = Return tt v1 → wf v1 → size_ v1 < capacity_ v1 →
  deref v v1 item = Some x →
  PushBack item v
  = Return tt (mk (live v1 ++ x :: drop (S (Z.to_nat (size_ v1))) (items_ v1))
                 (size_ v1 + 1) (capacity_ v1)).
Proof.
  intros Hd (Hlen & Hsz & Hcap) Hroom Hx. pose proof alloc_limit_bounds.
  unfold PTRDIFF_MAX in *.
  unfold PushBack, bind at 1, get at 1, id. unfold bind at 1. rewrite Hd.
  unfold read_ref, bind at 1. unfold bind at 1, get at 1, id.
  rewrite Hx. unfold defined at 1.
  unfold post_increment_size, operator_index_assign, bind, get, set_size,
    set_items, ret, defined, id.
  cbn [items_ size_ capacity_].
  rewrite write_at by lia.
  rewrite to_size_t_small by (unfold SIZE_MAX; lia). done.
Qed.

(** A reference into the buffer that [DoubleIfFull] has replaced is read
    all the same. *)
Lemma PushBack_ref_dangling v v1 item :
  DoubleIfFull v = Return tt v1 → deref v v1 item = None →
  PushBack item v = Undefined.
Proof.
  intros Hd Hx.
  unfold PushBack, bind at 1, get at 1, id. unfold bind at 1. rewrite Hd.
  unfold read_ref, bind at 1. unfold bind at 1, get at 1, id.
  by rewrite Hx.
Qed.

Lemma PushBack_after_growth v v1 x :
  DoubleIfFull v = Return tt v1 → wf v1 → size_ v1 < capacity_ v1 →
  PushBack (outside x) v
  = Return tt (mk (live v1 ++ x :: drop (S (Z.to_nat (size_ v1))) (items_ v1))
                 (size_ v1 + 1) (capacity_ v1)).
Proof.
  intros Hd Hwf1 Hroom.
  by apply (PushBack_ref_after_growth v v1 (outside x) x).
Qed.

(** With an argument outside the buffer, the rvalue overloads do to the
    vector what the lvalue overloads do. *)
Lemma PushBack_rvalue_eq x v :
  PushBack_rvalue (outside x) v = map_value (λ _, moved_from x) (PushBack (outside x) v).
Proof.
  unfold PushBack_rvalue, PushBack, bind, get, id.
  destruct (DoubleIfFull v) as [[] v1|e v1| |]; try done.
Qed.

Lemma Insert_rvalue_eq pos x v :
  Insert_rvalue pos (outside x) v = map_value (λ it, (it, moved_from x)) (Insert pos (outside x) v).
Proof.
  unfold Insert_rvalue, Insert, bind, get, defined.
  destruct (distance (begin v) pos) as [d|]; [|done].
  destruct (DoubleIfFull v) as [[] v1|e v1| |]; try done.
  unfold id. destruct (std_move_backward _ _ _ _) as [buf|]; [|done].
  unfold read_ref, operator_index_assign, set_items, bind, get, defined, id.
  cbn [items_ deref leave_moved_from].
  by destruct (ArrayPtr.write buf _ x).
Qed.

Lemma live_snoc b (n : Z) x (tl : list T) :
  0 ≤ n → (Z.to_nat n ≤ length b)%nat →
  take (Z.to_nat (n + 1)) (take (Z.to_nat n) b ++ x :: tl)
  = take (Z.to_nat n) b ++ [x].
Proof.
  intros Hn Hb.
  replace (take (Z.to_nat n) b ++ x :: tl)
    with ((take (Z.to_nat n) b ++ [x]) ++ tl) by (by rewrite <- app_assoc).
  apply take_app_length'.
  rewrite length_app, length_take_le by done. simpl. lia.
Qed.

(** What [PushBack] does to a well-formed vector whose growth, if needed,
    is granted. *)
Lemma PushBack_result v x :
  wf v → growth_granted v →
  ∃ v', PushBack (outside x) v = Return tt v'
    ∧ ArrayPtr.read (items_ v') (GetSize v) = Some x
    ∧ GetSize v' = GetSize v + 1
    ∧ live v' = live v ++ [x]
    ∧ GetCapacity v'
      = (if bool_decide (GetSize v = GetCapacity v)
         then (if bool_decide (GetCapacity v = 0) then 1
               else 2 * GetCapacity v)
         else GetCapacity v)
    ∧ wf v'.
Proof.
  intros Hwf Hgr. pose proof Hwf as (Hlen & Hsz & Hcap).
  destruct (DoubleIfFull_granted v Hwf Hgr)
    as (v1 & Hd & Hwf1 & Hs1 & Hroom & Hlive & Hcap1).
  pose proof Hwf1 as (Hlen1 & Hsz1 & Hcapl1).
  eexists. rewrite (PushBack_after_growth v v1) by (done || lia).
  split; [done|]. unfold GetSize, GetCapacity. cbn [items_ size_ capacity_].
  assert (length (live v1) = Z.to_nat (size_ v)) as Hll
    by (by rewrite wf_live_length, Hs1).
  repeat split.
  - by apply read_middle; rewrite Hll; lia.
  - lia.
  - unfold live at 1. cbn [items_ size_]. rewrite <- Hlive.
    unfold live. apply live_snoc; lia.
  - done.
  - cbn [items_]. rewrite length_app, Hll. simpl.
    rewrite length_drop. lia.
  - cbn [size_]. lia.
  - cbn [size_ capacity_]. lia.
  - cbn [capacity_]. lia.
Qed.

(** On a well-formed vector whose growth, if needed, is granted,
    [PushBack(x)] with an object that is no element of the vector, in
    either overload, returns; [x] is stored at the index that was
    [Size()], [Size()] grows by one, the elements stored before are
    unchanged and in order, and the capacity is doubled (or becomes 1 from
    0) exactly when the vector was full, and is unchanged otherwise. *)
Lemma PushBack_appends v x :
  wf v → growth_granted v →
  ∃ v', PushBack (outside x) v = Return tt v'
    ∧ PushBack_rvalue (outside x) v = Return (moved_from x) v'
    ∧ ArrayPtr.read (items_ v') (GetSize v) = Some x
    ∧ GetSize v' = GetSize v + 1
    ∧ live v' = live v ++ [x]
    ∧ GetCapacity v'
      = (if bool_decide (GetSize v = GetCapacity v)
         then (if bool_decide (GetCapacity v = 0) then 1
               else 2 * GetCapacity v)
         else GetCapacity v)
    ∧ wf v'.
Proof.
  intros Hwf Hgr.
  destruct (PushBack_result v x Hwf Hgr) as (v' & Hp & Hrest).
  exists v'. split; [done|]. split; [|done].
  by rewrite PushBack_rvalue_eq, Hp.
Qed.

(** *** Insert *)

Lemma distance_position v i : distance (begin v) (position v i) = Some i.
Proof.
  unfold position. destruct (begin v); simpl; f_equal; lia.
Qed.

(** The buffer around the live range: the slots before index [i], the
    live slots from [i] on, the first slot past the live range, the rest. *)
Lemma split_buffer b (i n : nat) :
  (i ≤ n < length b)%nat →
  ∃ y, b = take i b ++ take (n - i) (drop i b) ++ y :: drop (S n) b.
Proof.
  intros Hin.
  destruct (lookup_lt_is_Some_2 b n) as [y Hy]; [lia|].
  exists y. rewrite <- (drop_S _ _ _ Hy).
  replace n with (i + (n - i))%nat at 2 by lia.
  by rewrite <- drop_drop, !take_drop.
Qed.

(** The shift that [Insert] performs on the state [DoubleIfFull] left,
    with the buffer split at the index [Insert] computed. *)
Lemma Insert_shift v1 (i : Z) pre mid y post :
  wf v1 →
  items_ v1 = pre ++ mid ++ y :: post →
  i = Z.of_nat (length pre) →
  size_ v1 = Z.of_nat (length pre + length mid) →
  std_move_backward (items_ v1) (advance (begin v1) i)
    (end_ v1) (advance (end_ v1) 1)
  = Some (pre ++ from_option moved_from y (head mid) :: mid ++ post).
Proof.
  intros Hwf1 Hitems Hi Hsize.
  pose proof Hwf1 as (Hlen & Hsz & Hcap).
  unfold std_move_backward.
  destruct (decide (size_ v1 = 0)) as [Hz|Hnz].
  - rewrite begin_empty, end_empty by done.
    assert (length pre = 0%nat ∧ length mid = 0%nat) as [Hp Hm] by lia.
    destruct pre, mid; try done.
    rewrite Hi. unfold nullptr, range_length. simpl.
    by rewrite Hitems.
  - rewrite begin_nonempty, end_nonempty by (done || lia).
    simpl. rewrite range_length_slots by lia. cbn [mbind option_bind].
    rewrite Hitems, Hi, Hsize.
    replace (Z.to_nat (Z.of_nat (length pre + length mid)
                       - (0 + Z.of_nat (length pre))))
      with (length mid) by lia.
    by apply move_backward_loop_slots.
Qed.

(** [Insert] from the state [DoubleIfFull] left: the value stored is the
    one the argument holds after the shift. *)
Lemma Insert_ref_after_growth v v1 pos d value x pre mid y post :
  distance (begin v) pos = Some d →
  DoubleIfFull v = Return tt v1 → wf v1 →
  items_ v1 = pre ++ mid ++ y :: post →
  to_int d = Z.of_nat (length pre) →
  size_ v1 = Z.of_nat (length pre + length mid) →
  deref v (mk (pre ++ from_option moved_from y (head mid) :: mid ++ post)
              (size_ v1) (capacity_ v1)) value = Some x →
  Insert pos value v
  = Return (slot (to_int d))
      (mk (pre ++ x :: mid ++ post) (size_ v1 + 1) (capacity_ v1)).
Proof.
  intros Hdist Hd Hwf1 Hitems Hi Hsize Hx.
  pose proof Hwf1 as (Hlen & Hsz & Hcap). pose proof alloc_limit_bounds.
  unfold PTRDIFF_MAX in *.
  pose proof (Insert_shift v1 (to_int d) pre mid y post Hwf1 Hitems Hi Hsize)
    as Hmove.
  unfold Insert, bind at 1, get at 1, id. unfold bind at 1, get at 1.
  unfold bind at 1. unfold defined at 1.
  rewrite Hdist. unfold bind at 1. rewrite Hd.
  unfold bind at 1, get at 1, id. unfold bind at 1. rewrite Hmove.
  unfold defined at 1. unfold bind at 1, set_items at 1.
  unfold bind at 1, read_ref at 1. unfold bind at 1, get at 1, id.
  cbn [items_ size_ capacity_]. rewrite Hx. unfold defined at 1.
  unfold operator_index_assign, bind, get, set_size, set_items, ret, defined, id.
  cbn [items_ size_ capacity_].
  rewrite (to_size_t_small (to_int d)) by (unfold SIZE_MAX; lia).
  rewrite write_middle by done.
  cbn [items_ size_ capacity_].
  rewrite to_size_t_small by (unfold SIZE_MAX; lia).
  rewrite address_allocated by (by destruct pre).
  done.
Qed.

(** A reference that no longer refers to an object is read all the
    same. *)
Lemma Insert_ref_dangling v v1 pos d value pre mid y post :
  distance (begin v) pos = Some d →
  DoubleIfFull v = Return tt v1 → wf v1 →
  items_ v1 = pre ++ mid ++ y :: post →
  to_int d = Z.of_nat (length pre) →
  size_ v1 = Z.of_nat (length pre + length mid) →
  deref v (mk (pre ++ from_option moved_from y (head mid) :: mid ++ post)
              (size_ v1) (capacity_ v1)) value = None →
  Insert pos value v = Undefined.
Proof.
  intros Hdist Hd Hwf1 Hitems Hi Hsize Hx.
  pose proof (Insert_shift v1 (to_int d) pre mid y post Hwf1 Hitems Hi Hsize)
    as Hmove.
  unfold Insert, bind at 1, get at 1, id. unfold bind at 1, get at 1.
  unfold bind at 1. unfold defined at 1.
  rewrite Hdist. unfold bind at 1. rewrite Hd.
  unfold bind at 1, get at 1, id. unfold bind at 1. rewrite Hmove.
  unfold defined at 1. unfold bind at 1, set_items at 1.
  unfold bind at 1, read_ref at 1. unfold bind at 1, get at 1, id.
  cbn [items_ size_ capacity_]. by rewrite Hx.
Qed.

Lemma Insert_after_growth v v1 pos d x pre mid y post :
  distance (begin v) pos = Some d →
  DoubleIfFull v = Return tt v1 → wf v1 →
  items_ v1 = pre ++ mid ++ y :: post →
  to_int d = Z.of_nat (length pre) →
  size_ v1 = Z.of_nat (length pre + length mid) →
  Insert pos (outside x) v
  = Return (slot (to_int d))
      (mk (pre ++ x :: mid ++ post) (size_ v1 + 1) (capacity_ v1)).
Proof.
  intros Hdist Hd Hwf1 Hitems Hi Hsize.
  by apply (Insert_ref_after_growth v v1 pos d (outside x) x pre mid y post).
Qed.

(** What [Insert] does in terms of the index [to_int d] it computes from
    the distance [d] between [begin()] and [pos]. *)
Lemma Insert_at_computed_index v pos d x :
  wf v → growth_granted v →
  distance (begin v) pos = Some d →
  0 ≤ to_int d ≤ size_ v →
  ∃ v', Insert pos (outside x) v = Return (slot (to_int d)) v'
    ∧ GetSize v' = GetSize v + 1
    ∧ live v' = take (Z.to_nat (to_int d)) (live v)
                ++ x :: drop (Z.to_nat (to_int d)) (live v)
    ∧ GetCapacity v'
      = (if bool_decide (GetSize v = GetCapacity v)
         then (if bool_decide (GetCapacity v = 0) then 1
               else 2 * GetCapacity v)
         else GetCapacity v)
    ∧ wf v'.
Proof.
  intros Hwf Hgr Hdist Hi. pose proof Hwf as (Hlen & Hsz & Hcap).
  destruct (DoubleIfFull_granted v Hwf Hgr)
    as (v1 & Hd & Hwf1 & Hs1 & Hroom & Hlive & Hcap1).
  pose proof Hwf1 as (Hlen1 & Hsz1 & Hcapl1).
  set (i := Z.to_nat (to_int d)). set (n := Z.to_nat (size_ v)).
  destruct (split_buffer (items_ v1) i n) as [y Hsplit]; [lia|].
  assert (length (take i (items_ v1)) = i) as Hpre
    by (rewrite length_take_le; lia).
  assert (length (take (n - i) (drop i (items_ v1))) = (n - i)%nat) as Hmid
    by (rewrite length_take_le; [done|rewrite length_drop; lia]).
  eexists.
  rewrite (Insert_after_growth v v1 pos d x _ _ _ _ Hdist Hd Hwf1 Hsplit)
    by (rewrite ?Hpre, ?Hmid; lia).
  split; [done|]. unfold GetSize, GetCapacity. cbn [size_ capacity_].
  assert (live v = take i (items_ v1) ++ take (n - i) (drop i (items_ v1)))
    as Hl.
  { rewrite <- Hlive. unfold live. rewrite Hs1. fold n.
    rewrite Hsplit at 1. rewrite app_assoc.
    apply take_app_length'. rewrite length_app, Hpre, Hmid. lia. }
  repeat split; try lia.
  - unfold live at 1. cbn [items_ size_]. rewrite Hl.
    rewrite (take_app_length' (take i (items_ v1)) _ i),
      (drop_app_length' (take i (items_ v1)) _ i) by (by rewrite Hpre).
    replace (take i (items_ v1) ++ x :: take (n - i) (drop i (items_ v1))
             ++ drop (S n) (items_ v1))
      with ((take i (items_ v1) ++ x :: take (n - i) (drop i (items_ v1)))
            ++ drop (S n) (items_ v1))
      by (by rewrite <- app_assoc).
    apply take_app_length'. rewrite length_app. simpl. rewrite Hpre, Hmid. lia.
  - cbn [items_ capacity_]. rewrite <- Hlen1.
    apply (f_equal length) in Hsplit.
    rewrite !length_app in Hsplit. simpl in Hsplit.
    rewrite !length_app. simpl. rewrite !length_app. lia.
  - cbn [size_]. lia.
  - cbn [size_ capacity_]. lia.
  - cbn [capacity_]. lia.
Qed.

(** *** Erase *)

Lemma Erase_slots v i pre x mid post :
  wf v →
  items_ v = pre ++ x :: mid ++ post →
  i = Z.of_nat (length pre) →
  size_ v = Z.of_nat (length pre + 1 + length mid) →
  Erase (position v i) v
  = (let v' := mk (pre ++ mid ++ from_option moved_from x (last mid) :: post)
                 (size_ v - 1) (capacity_ v) in
     Return (if bool_decide (i = size_ v - 1) then end_ v' else slot i) v').
Proof.
  intros Hwf Hitems Hi Hsize.
  pose proof Hwf as (Hlen & Hsz & Hcap). pose proof alloc_limit_bounds.
  unfold PTRDIFF_MAX in *.
  assert (std_copy_move_iterator (items_ v)
            (advance (advance (begin v) (to_size_t i)) 1) (end_ v)
            (advance (begin v) (to_size_t i))
          = Some (pre ++ mid ++ from_option moved_from x (last mid) :: post))
    as Hmove.
  { unfold std_copy_move_iterator.
    rewrite to_size_t_small by (unfold SIZE_MAX; lia).
    rewrite begin_nonempty, end_nonempty by (done || lia).
    simpl. rewrite range_length_slots by lia. cbn [mbind option_bind].
    rewrite Hitems, Hsize, !Z.add_0_l.
    replace (Z.to_nat (Z.of_nat (length pre + 1 + length mid) - (i + 1)))
      with (length mid) by lia.
    by apply move_within_loop_slots. }
  unfold Erase, bind at 1, get at 1. unfold bind at 1.
  rewrite distance_position. unfold defined at 1.
  unfold bind at 1, get at 1. unfold bind at 1, get at 1, id.
  unfold bind at 1. rewrite Hmove. unfold defined at 1.
  unfold bind, get, set_items, set_size, ret, GetSize.
  cbn [items_ size_ capacity_].
  rewrite !(to_size_t_small (size_ v - 1)), !(to_size_t_small i)
    by (unfold SIZE_MAX; lia).
  case_bool_decide; [done|].
  rewrite address_allocated; [done|].
  cbn [items_]. intros Hnil. apply (f_equal length) in Hnil.
  rewrite !length_app in Hnil. simpl in Hnil. lia.
Qed.

(** The buffer around a live slot: the slots before index [i], slot [i],
    the live slots behind it, the rest. *)
Lemma split_buffer_at b (i n : nat) :
  (i < n ≤ length b)%nat →
  ∃ x, b !! i = Some x
    ∧ b = take i b ++ x :: take (n - S i) (drop (S i) b) ++ drop n b.
Proof.
  intros Hin.
  destruct (lookup_lt_is_Some_2 b i) as [x Hx]; [lia|].
  exists x. split; [done|].
  rewrite <- (take_drop i b) at 1. f_equal.
  rewrite (drop_S _ _ _ Hx). f_equal.
  rewrite <- (take_drop (n - S i) (drop (S i) b)) at 1. f_equal.
  rewrite drop_drop. f_equal. lia.
Qed.

(** C4.  For a well-formed vector and the position of a live element at
    index [i], [Erase] returns; the elements behind index [i] each move
    one slot towards the head, [Size()] drops by one, the capacity is
    unchanged, and the iterator returned is [end()] when the erased
    element was the last one and otherwise designates slot [i], which now
    holds the element that followed the erased one. *)
Theorem Erase_removes v i :
  wf v → 0 ≤ i < GetSize v →
  ∃ it v', Erase (position v i) v = Return it v'
    ∧ live v' = take (Z.to_nat i) (live v) ++ drop (S (Z.to_nat i)) (live v)
    ∧ GetSize v' = GetSize v - 1
    ∧ GetCapacity v' = GetCapacity v
    ∧ it = (if bool_decide (i = GetSize v - 1) then end_ v' else slot i)
    ∧ (i < GetSize v - 1 →
       it = position v' i
       ∧ load (items_ v') it = live v !! S (Z.to_nat i))
    ∧ wf v'.
Proof.
  unfold GetSize, GetCapacity.
  intros Hwf Hi. pose proof Hwf as (Hlen & Hsz & Hcap).
  set (k := Z.to_nat i). set (n := Z.to_nat (size_ v)).
  destruct (split_buffer_at (items_ v) k n) as (x & Hx & Hsplit); [lia|].
  assert (length (take k (items_ v)) = k) as Hpre
    by (rewrite length_take_le; lia).
  assert (length (take (n - S k) (drop (S k) (items_ v))) = (n - S k)%nat)
    as Hmid by (rewrite length_take_le; [done|rewrite length_drop; lia]).
  set (pre := take k (items_ v)) in *.
  set (mid := take (n - S k) (drop (S k) (items_ v))) in *.
  set (post := drop n (items_ v)) in *.
  do 2 eexists.
  rewrite (Erase_slots v i pre x mid post Hwf Hsplit) by lia.
  cbn zeta. split; [done|].
  assert (live v = pre ++ x :: mid) as Hl.
  { unfold live. fold n. rewrite Hsplit.
    replace (pre ++ x :: mid ++ post) with ((pre ++ x :: mid) ++ post)
      by (by rewrite <- app_assoc).
    apply take_app_length'. rewrite length_app. simpl. lia. }
  assert (live (mk (pre ++ mid ++ from_option moved_from x (last mid) :: post)
                  (size_ v - 1) (capacity_ v)) = pre ++ mid) as Hl'.
  { unfold live. cbn [items_ size_]. rewrite app_assoc.
    apply take_app_length'. rewrite length_app. lia. }
  cbn [size_ capacity_].
  split; [|split; [done|split; [done|split; [done|split]]]].
  - rewrite Hl', Hl.
    rewrite (take_app_length' pre _ k) by done.
    replace (pre ++ x :: mid) with ((pre ++ [x]) ++ mid)
      by (by rewrite <- app_assoc).
    rewrite drop_app_length'; [done|]. rewrite length_app. simpl. lia.
  - intros Hnl. rewrite bool_decide_false by lia.
    assert (mid ≠ []) as Hne.
    { intros Hnil. rewrite Hnil in Hmid. simpl in Hmid. lia. }
    split.
    + unfold position. rewrite begin_nonempty; [simpl; f_equal; lia| |].
      * repeat split; cbn [items_ size_ capacity_]; try lia.
        apply (f_equal length) in Hsplit.
        rewrite !length_app in Hsplit. simpl in Hsplit.
        rewrite !length_app in Hsplit.
        rewrite !length_app. simpl. lia.
      * cbn [size_]. lia.
    + cbn [load items_]. rewrite read_at by lia. fold k. rewrite Hl.
      destruct mid as [|m mid']; [done|].
      replace (pre ++ x :: m :: mid') with ((pre ++ [x]) ++ m :: mid')
        by (by rewrite <- app_assoc).
      cbn [app].
      rewrite (list_lookup_middle pre _ m k) by done.
      rewrite (list_lookup_middle (pre ++ [x]) _ m (S k)); [done|].
      rewrite length_app. simpl. lia.
  - repeat split; cbn [items_ size_ capacity_]; try lia.
    apply (f_equal length) in Hsplit.
    rewrite !length_app in Hsplit. simpl in Hsplit.
    rewrite !length_app in Hsplit.
    rewrite !length_app. simpl. lia.
Qed.

(** *** Resize *)

Lemma Resize_shrinks n v :
  n < size_ v → Resize n v = Return tt (mk (items_ v) n (capacity_ v)).
Proof. apply Resize_body_shrink. Qed.

Lemma Resize_same v : Resize (size_ v) v = Return tt v.
Proof.
  unfold Resize, Resize_body, bind, get, GetSize.
  by rewrite !bool_decide_false by lia.
Qed.

Lemma split_three b (i n : nat) :
  b = take i b ++ take (n - i) (drop i b) ++ drop (n - i) (drop i b).
Proof. by rewrite !take_drop. Qed.

(** Growing inside the capacity of a non-empty vector: the slots
    [size_ .. n - 1] are filled with value-initialised elements. *)
Lemma Resize_within n v :
  wf v → 0 < size_ v → size_ v < n ≤ capacity_ v →
  Resize n v
  = Return tt (mk (live v ++ replicate (Z.to_nat (n - size_ v)) value_init
                   ++ drop (Z.to_nat n) (items_ v)) n (capacity_ v)).
Proof.
  intros Hwf Hpos Hn. pose proof Hwf as (Hlen & Hsz & Hcap).
  unfold Resize, Resize_body, bind, get, GetSize, GetCapacity, id.
  rewrite bool_decide_false, bool_decide_true, bool_decide_false by lia.
  rewrite begin_nonempty by done. cbn [advance].
  unfold std_fill. rewrite range_length_slots by lia. cbn [mbind option_bind].
  set (k := Z.to_nat (size_ v)). set (m := Z.to_nat (0 + n - (0 + size_ v))).
  rewrite (split_three (items_ v) k (k + m)) at 1.
  replace (k + m - k)%nat with m by lia.
  assert (length (take m (drop k (items_ v))) = m) as Hmid
    by (rewrite length_take_le; [done|rewrite length_drop; lia]).
  rewrite <- Hmid at 1.
  rewrite fill_loop_slots by (rewrite length_take_le; lia).
  unfold defined, set_items, set_size, live. cbn [items_ size_ capacity_].
  rewrite Hmid, drop_drop. fold k.
  replace (Z.to_nat (n - size_ v)) with m by lia.
  replace (Z.to_nat n) with (k + m)%nat by lia. done.
Qed.

(** Growing past the capacity: [Reserve(n)], then [size_ = n]. *)
Lemma Resize_reallocates n v :
  wf v → capacity_ v < n ≤ alloc_limit →
  Resize n v
  = Return tt (mk (live v ++ replicate (Z.to_nat (n - size_ v)) value_init) n n).
Proof.
  intros Hwf Hn. pose proof Hwf as (Hlen & Hsz & Hcap).
  unfold Resize, Resize_body, bind, get, GetSize, GetCapacity.
  rewrite bool_decide_false, !bool_decide_true by lia.
  by rewrite Reserve_grows by done.
Qed.

Lemma Resize_refused n v :
  wf v → capacity_ v < n → alloc_limit < n → Resize n v = Throw bad_alloc v.
Proof.
  intros Hwf Hn Hl. pose proof Hwf as (Hlen & Hsz & Hcap).
  unfold Resize, Resize_body, bind, get, GetSize, GetCapacity.
  rewrite bool_decide_false, !bool_decide_true by lia.
  by rewrite Reserve_refused by done.
Qed.

(** Growing an empty vector inside its capacity: [begin()] is the null
    pointer, and [std::fill] writes through it. *)
Lemma Resize_empty_within_capacity n v :
  size_ v = 0 → 0 < n ≤ capacity_ v → Resize n v = Undefined.
Proof.
  intros Hz Hn.
  unfold Resize, Resize_body, bind, get, GetSize, GetCapacity, id.
  rewrite bool_decide_false, bool_decide_true, bool_decide_false by lia.
  rewrite begin_empty by done. unfold nullptr. cbn [advance].
  unfold std_fill, range_length. cbn [distance mbind option_bind].
  rewrite bool_decide_true by lia. cbn [mbind option_bind].
  rewrite fill_loop_null by lia. done.
Qed.

(** *** At *)

Lemma At_out_of_range v i : GetSize v ≤ i → At i v = Throw out_of_range v.
Proof.
  intros Hi. unfold At, bind, get. by rewrite bool_decide_true by lia.
Qed.

Lemma At_in_range v i : i < GetSize v → At i v = operator_index i v.
Proof.
  intros Hi. unfold At, bind, get. by rewrite bool_decide_false by lia.
Qed.

Lemma operator_index_live v i :
  wf v → 0 ≤ i < GetSize v →
  ∃ x, live v !! Z.to_nat i = Some x ∧ operator_index i v = Return x v.
Proof.
  unfold GetSize. intros (Hlen & Hsz & Hcap) Hi.
  destruct (lookup_lt_is_Some_2 (items_ v) (Z.to_nat i)) as [x Hx]; [lia|].
  exists x. split.
  - unfold live. rewrite lookup_take_lt by lia. done.
  - unfold operator_index, bind, get, id, defined.
    by rewrite read_at, Hx by lia.
Qed.

(** The non-const overload: [At(i)] throws [std::out_of_range] exactly
    when [i >= Size()]; the vector it leaves behind is the one it was
    called on.  When [i < Size()] it returns what the unchecked access
    returns, the live element at index [i], and changes nothing. *)
Lemma At_checked v i :
  wf v → is_size_t i →
  ((∃ e v', At i v = Throw e v') ↔ GetSize v ≤ i)
  ∧ (GetSize v ≤ i → At i v = Throw out_of_range v)
  ∧ (i < GetSize v →
     At i v = operator_index i v
     ∧ ∃ x, live v !! Z.to_nat i = Some x ∧ At i v = Return x v).
Proof.
  intros Hwf [Hi _]. split; [|split].
  - split.
    + intros (e & v' & Hthrow).
      destruct (decide (GetSize v ≤ i)) as [|Hlt]; [done|].
      rewrite At_in_range in Hthrow by lia.
      destruct (operator_index_live v i) as (x & _ & Hx); [done|lia|].
      by rewrite Hx in Hthrow.
    + intros Hge. exists out_of_range, v. by apply At_out_of_range.
  - apply At_out_of_range.
  - intros Hlt. split; [by apply At_in_range|].
    destruct (operator_index_live v i) as (x & Hl & Hx); [done|lia|].
    exists x. by rewrite At_in_range.
Qed.

(** The const overloads of [At] and [operator[]] call themselves: no
    amount of fuel makes them return. *)
Lemma At_const_never_returns fuel i v : At_const fuel i v = NoFuel.
Proof. induction fuel; simpl; done. Qed.

Lemma operator_index_const_never_returns fuel i v :
  operator_index_const fuel i v = NoFuel.
Proof. induction fuel; simpl; done. Qed.

(** *** PopBack, Clear and shrinking Resize *)

Lemma PopBack_empty v : size_ v = 0 → PopBack v = Return tt v.
Proof.
  intros Hz. unfold PopBack, bind, get, IsEmpty, GetSize.
  by rewrite bool_decide_true.
Qed.

Lemma PopBack_nonempty v :
  size_ v ≠ 0 →
  PopBack v = Return tt (mk (items_ v) (to_size_t (size_ v - 1)) (capacity_ v)).
Proof.
  intros Hz. unfold PopBack, bind, get, IsEmpty, GetSize.
  by rewrite bool_decide_false.
Qed.

(** C8.  [PopBack] (also on an empty vector, where it changes nothing),
    [Clear] and [Resize(n)] with [n < Size()] return and leave both the
    capacity and the buffer as they were. *)
Theorem capacity_kept_when_shrinking v :
  (∃ v', PopBack v = Return tt v'
     ∧ GetCapacity v' = GetCapacity v ∧ items_ v' = items_ v
     ∧ (GetSize v = 0 → v' = v))
  ∧ (∃ v', Clear v = Return tt v'
       ∧ GetCapacity v' = GetCapacity v ∧ items_ v' = items_ v
       ∧ GetSize v' = 0)
  ∧ (∀ n, n < GetSize v →
       ∃ v', Resize n v = Return tt v'
         ∧ GetCapacity v' = GetCapacity v ∧ items_ v' = items_ v
         ∧ GetSize v' = n).
Proof.
  unfold GetSize, GetCapacity. split; [|split].
  - destruct (decide (size_ v = 0)) as [Hz|Hnz].
    + exists v. by rewrite PopBack_empty.
    + eexists. rewrite PopBack_nonempty by done. by repeat split.
  - by eexists.
  - intros n Hn. eexists. rewrite Resize_shrinks by done. by repeat split.
Qed.

(** *** The copy constructor *)

Lemma cbegin_cend_empty other :
  size_ other = 0 → range_length (cbegin other) (cend other) = Some 0%nat.
Proof.
  intros Hz. unfold cbegin, cend, GetSize. rewrite Hz.
  apply range_length_same.
Qed.

Lemma replicate_allocated (n : Z) x : 0 < n → replicate (Z.to_nat n) x ≠ [].
Proof.
  intros Hn Hnil. apply (f_equal length) in Hnil.
  rewrite length_replicate in Hnil. simpl in Hnil. lia.
Qed.

Lemma SimpleVector_copy_eq other :
  wf other →
  SimpleVector_copy other
  = Return (mk (live other) (size_ other) (size_ other)) tt.
Proof.
  intros Hwf. pose proof Hwf as (Hlen & Hsz & Hcap).
  unfold SimpleVector_copy, SimpleVector_size, construct, GetSize.
  destruct (decide (size_ other = 0)) as [Hz|Hnz].
  - unfold ArrayPtr.sized. rewrite bool_decide_true by done.
    unfold bind, get, id, std_copy. cbn [items_].
    rewrite cbegin_cend_empty by done. cbn [mbind option_bind copy_loop].
    unfold defined, set_items. cbn [size_ capacity_].
    unfold live. by rewrite Hz.
  - rewrite sized_granted by lia.
    unfold bind, get, id, std_copy. cbn [items_].
    unfold cbegin, cend, GetSize.
    rewrite !address_allocated by (apply wf_items_nonempty; (done || lia)).
    rewrite range_length_slots by lia. cbn [mbind option_bind].
    unfold begin, IsEmpty, GetSize. cbn [items_ size_].
    rewrite bool_decide_false by done.
    rewrite address_allocated by (apply replicate_allocated; lia).
    rewrite copy_loop_prefix by (rewrite ?length_replicate; lia).
    unfold defined, set_items. cbn [size_ capacity_].
    rewrite drop_replicate, Z.sub_0_r, Nat.sub_diag. simpl.
    by rewrite app_nil_r.
Qed.

Lemma SimpleVector_copy_wf other :
  wf other → wf (mk (live other) (size_ other) (size_ other)).
Proof.
  intros Hwf. pose proof Hwf as (Hlen & Hsz & Hcap).
  repeat split; cbn [items_ size_ capacity_]; try lia.
  by rewrite wf_live_length, Z2Nat.id by (done || lia).
Qed.

(** C10.  The copy of a well-formed vector has the source's [Size()] as
    its capacity, the same size and the same elements in order; it is
    smaller in capacity than a source that has spare capacity. *)
Theorem copy_capacity_is_source_size other :
  wf other →
  ∃ v, SimpleVector_copy other = Return v tt
    ∧ GetCapacity v = GetSize other
    ∧ GetSize v = GetSize other
    ∧ live v = live other
    ∧ (GetSize other < GetCapacity other → GetCapacity v < GetCapacity other)
    ∧ wf v.
Proof.
  intros Hwf. pose proof Hwf as (Hlen & Hsz & Hcap).
  eexists. rewrite SimpleVector_copy_eq by done.
  unfold GetSize, GetCapacity. cbn [size_ capacity_].
  split; [done|]. split; [done|]. split; [done|]. split; [|split].
  - unfold live at 1. cbn [items_ size_]. unfold live.
    rewrite take_take. f_equal. lia.
  - done.
  - by apply SimpleVector_copy_wf.
Qed.

(** *** The representation invariant is kept *)

Lemma leaves_Return {A} (a : A) v v' : leaves (Return a v) v' → v' = v.
Proof. by intros [[? [= _ ->]]|[? [=]]]. Qed.

Lemma leaves_Throw {A} e v v' : leaves (@Throw _ A e v) v' → v' = v.
Proof. by intros [[? [=]]|[? [= _ ->]]]. Qed.

Lemma leaves_Undefined {A} v' : ¬ leaves (@Undefined _ A) v'.
Proof. by intros [[? [=]]|[? [=]]]. Qed.

Lemma leaves_NoFuel {A} v' : ¬ leaves (@NoFuel _ A) v'.
Proof. by intros [[? [=]]|[? [=]]]. Qed.

Lemma leaves_map_value {A B} (f : A → B) o v' :
  leaves (map_value f o) v' → leaves o v'.
Proof.
  destruct o; simpl; intros Hl.
  - apply leaves_Return in Hl as ->. left. by eexists.
  - apply leaves_Throw in Hl as ->. right. by eexists.
  - by apply leaves_Undefined in Hl.
  - by apply leaves_NoFuel in Hl.
Qed.

Lemma wf_empty : wf (mk (T:=T) [] 0 0).
Proof. pose proof alloc_limit_bounds. repeat split; simpl; lia. Qed.

Lemma wf_resized v b n :
  wf v → length b = length (items_ v) → 0 ≤ n ≤ capacity_ v →
  wf (mk b n (capacity_ v)).
Proof.
  intros (Hlen & Hsz & Hcap) Hb Hn.
  repeat split; cbn [items_ size_ capacity_]; lia.
Qed.

Lemma wf_default v : builds SimpleVector_default v → wf v.
Proof. intros [= <-]. apply wf_empty. Qed.

Lemma SimpleVector_size_cases n :
  (∃ v, SimpleVector_size n = Return v tt ∧ wf v ∧ size_ v = n ∧ capacity_ v = n)
  ∨ SimpleVector_size (T:=T) n = Throw bad_alloc tt.
Proof.
  unfold SimpleVector_size, ArrayPtr.sized.
  case_bool_decide as Hz.
  - left. eexists. split; [done|]. subst n. split; [apply wf_empty|done].
  - case_bool_decide as Hn; [|by right].
    left. eexists. split; [done|].
    repeat split; cbn [items_ size_ capacity_]; try lia.
    rewrite length_replicate. lia.
Qed.

Lemma wf_size n v : builds (SimpleVector_size n) v → wf v.
Proof.
  unfold builds. intros Hb.
  destruct (SimpleVector_size_cases n) as [(v0 & Hv & Hwf & _)|Ht];
    congruence.
Qed.

Lemma wf_size_value n x v : builds (SimpleVector_size_value n x) v → wf v.
Proof.
  unfold builds, SimpleVector_size_value, construct.
  destruct (SimpleVector_size_cases n) as [(v0 & -> & Hwf & _)| -> ]; [|done].
  unfold bind, get, id, defined, std_fill.
  destruct (range_length _ _) as [k|]; [|done]. cbn [mbind option_bind].
  destruct (fill_loop _ _ _ _) as [b|] eqn:Hf; [|done].
  unfold set_items. intros [= <-].
  apply wf_resized; [done| |by destruct Hwf as (_ & ? & _)].
  by eapply fill_loop_length.
Qed.

Lemma wf_init_list l v : builds (SimpleVector_init_list l) v → wf v.
Proof.
  unfold builds, SimpleVector_init_list, construct.
  destruct (SimpleVector_size_cases (Z.of_nat (length l)))
    as [(v0 & -> & Hwf & _)| -> ]; [|done].
  unfold bind, get, id, defined, std_copy.
  destruct (range_length _ _) as [k|]; [|done]. cbn [mbind option_bind].
  destruct (copy_loop _ _ _ _ _) as [b|] eqn:Hf; [|done].
  unfold set_items. intros [= <-].
  apply wf_resized; [done| |by destruct Hwf as (_ & ? & _)].
  by eapply copy_loop_length.
Qed.

Lemma wf_copy other v : wf other → builds (SimpleVector_copy other) v → wf v.
Proof.
  intros Hwf. unfold builds. rewrite SimpleVector_copy_eq by done.
  intros [= <-]. by apply SimpleVector_copy_wf.
Qed.

Lemma wf_move other :
  wf other → wf (SimpleVector_move other).1 ∧ wf (SimpleVector_move other).2.
Proof.
  intros Hwf. unfold SimpleVector_move, ArrayPtr.move. simpl.
  split; [by destruct other|apply wf_empty].
Qed.

Lemma wf_Reserve n v v' : wf v → leaves (Reserve n v) v' → wf v'.
Proof.
  intros Hwf Hl.
  destruct (Reserve_cases n v Hwf) as [(v1 & Hr & Hwf1 & _)|Hr];
    rewrite Hr in Hl.
  - by apply leaves_Return in Hl as ->.
  - by apply leaves_Throw in Hl as ->.
Qed.

Lemma wf_reserve_ctor r v : builds (SimpleVector_reserve r) v → wf v.
Proof.
  unfold builds, SimpleVector_reserve, construct, SimpleVector_default,
    ArrayPtr.empty.
  destruct (Reserve_cases (capacity_to_reserve r) (mk [] 0 0) wf_empty)
    as [(v1 & -> & Hwf1 & _)| ->]; [|done].
  by intros [= <-].
Qed.

Lemma PushBack_cases v x :
  wf v →
  (∃ v', PushBack (outside x) v = Return tt v' ∧ wf v')
  ∨ PushBack (outside x) v = Throw bad_alloc v.
Proof.
  intros Hwf.
  destruct (DoubleIfFull_cases v Hwf) as [(v1 & Hd & Hwf1 & Hs & Hroom)|Hd].
  - left. eexists. rewrite (PushBack_after_growth v v1) by (done || lia).
    split; [done|]. pose proof Hwf1 as (Hlen & Hsz & Hcap).
    repeat split; cbn [items_ size_ capacity_]; try lia.
    rewrite length_app, wf_live_length by done. simpl.
    rewrite length_drop. lia.
  - right. rewrite PushBack_outside. unfold bind. by rewrite Hd.
Qed.

Lemma wf_PushBack v item v' : wf v → leaves (PushBack item v) v' → wf v'.
Proof.
  intros Hwf Hl.
  destruct (PushBack_ref_cases item v) as [Hu|[y Hy]].
  { rewrite Hu in Hl. by apply leaves_Undefined in Hl. }
  rewrite Hy in Hl.
  destruct (PushBack_cases v y Hwf) as [(v1 & Hr & Hwf1)|Hr]; rewrite Hr in Hl.
  - by apply leaves_Return in Hl as ->.
  - by apply leaves_Throw in Hl as ->.
Qed.

Lemma wf_leave_moved_from item y v v' :
  wf v → leaves (leave_moved_from item y v) v' → wf v'.
Proof.
  intros Hwf Hl.
  destruct (leave_moved_from item y v) as [z v2|e v2| |] eqn:Hm.
  - apply leaves_Return in Hl as ->.
    apply leave_moved_from_frame in Hm as (Hl2 & Hs2 & Hc2).
    destruct Hwf as (Hlen & Hsz & Hcap).
    unfold wf. rewrite Hl2, Hs2, Hc2. done.
  - by apply leave_moved_from_no_throw in Hm.
  - by apply leaves_Undefined in Hl.
  - by apply leaves_NoFuel in Hl.
Qed.

Lemma wf_PushBack_rvalue v item v' :
  wf v → leaves (PushBack_rvalue item v) v' → wf v'.
Proof.
  intros Hwf Hl.
  destruct (PushBack_rvalue_cases item v) as [Hu|[y Hy]].
  { rewrite Hu in Hl. by apply leaves_Undefined in Hl. }
  rewrite Hy in Hl. unfold bind in Hl.
  destruct (PushBack_cases v y Hwf) as [(v1 & Hr & Hwf1)|Hr]; rewrite Hr in Hl.
  - by eapply wf_leave_moved_from.
  - by apply leaves_Throw in Hl as ->.
Qed.

Lemma wf_PopBack v v' : wf v → leaves (PopBack v) v' → wf v'.
Proof.
  intros Hwf Hl. pose proof Hwf as (Hlen & Hsz & Hcap).
  pose proof alloc_limit_bounds. unfold PTRDIFF_MAX in *.
  destruct (decide (size_ v = 0)) as [Hz|Hnz].
  - rewrite PopBack_empty in Hl by done. by apply leaves_Return in Hl as ->.
  - rewrite PopBack_nonempty in Hl by done. apply leaves_Return in Hl as ->.
    rewrite to_size_t_small by (unfold SIZE_MAX; lia).
    apply wf_resized; (done || lia).
Qed.

Lemma wf_Clear v v' : wf v → leaves (Clear v) v' → wf v'.
Proof.
  intros Hwf Hl. apply leaves_Return in Hl as ->.
  apply wf_resized; [done..|]. destruct Hwf as (_ & ? & _). lia.
Qed.

Lemma wf_At v i v' : wf v → leaves (At i v) v' → wf v'.
Proof.
  intros Hwf. unfold At, operator_index, bind, get, throw, id, defined.
  case_bool_decide.
  - by intros ->%leaves_Throw.
  - destruct (ArrayPtr.read (items_ v) i).
    + by intros ->%leaves_Return.
    + by intros ?%leaves_Undefined.
Qed.

Lemma wf_index_assign v i x v' :
  wf v → leaves (operator_index_assign i x v) v' → wf v'.
Proof.
  intros Hwf. unfold operator_index_assign, bind, get, id, defined.
  destruct (ArrayPtr.write (items_ v) i x) as [b|] eqn:Hw.
  - intros ->%leaves_Return.
    apply wf_resized; [done|by eapply write_length|by destruct Hwf as (_ & ? & _)].
  - by intros ?%leaves_Undefined.
Qed.

Lemma wf_Insert_rvalue v pos value v' :
  wf v → leaves (Insert_rvalue pos value v) v' → wf v'.
Proof.
  intros Hwf. pose proof alloc_limit_bounds. unfold PTRDIFF_MAX in *.
  unfold Insert_rvalue. unfold bind at 1, get at 1, id.
  unfold bind at 1, get at 1. unfold bind at 1, defined at 1.
  destruct (distance (begin v) pos) as [d|]; [|by intros ?%leaves_Undefined].
  unfold bind at 1.
  destruct (DoubleIfFull_cases v Hwf) as [(v1 & -> & Hwf1 & Hs & Hroom)| ->];
    [|by intros ->%leaves_Throw].
  pose proof Hwf1 as (Hlen1 & Hsz1 & Hcap1).
  unfold bind at 1, get at 1, id. unfold bind at 1, defined at 1.
  destruct (std_move_backward _ _ _ _) as [buf|] eqn:Hmb;
    [|by intros ?%leaves_Undefined].
  unfold std_move_backward in Hmb.
  destruct (range_length _ _) as [k|]; [|done]. cbn [mbind option_bind] in Hmb.
  apply move_backward_loop_length in Hmb.
  unfold bind at 1, set_items at 1.
  unfold bind at 1, read_ref at 1. unfold bind at 1, get at 1, id.
  destruct (deref v _ value) as [x|]; [|by intros ?%leaves_Undefined].
  unfold defined at 1.
  unfold bind at 1, operator_index_assign at 1. unfold bind at 1, get at 1, id.
  unfold bind at 1, defined at 1. cbn [items_].
  destruct (ArrayPtr.write buf _ x) as [b'|] eqn:Hw;
    [|by intros ?%leaves_Undefined].
  apply write_length in Hw.
  unfold set_items at 1. cbn [items_ size_ capacity_].
  unfold bind at 1.
  destruct (leave_moved_from value x _) as [z v2|e v2| |] eqn:Hm.
  - apply leave_moved_from_frame in Hm as (Hl2 & Hs2 & Hc2).
    cbn [items_ size_ capacity_] in Hl2, Hs2, Hc2.
    unfold bind, get, set_items, set_size, ret.
    intros ->%leaves_Return.
    rewrite Hs2, Hc2.
    rewrite to_size_t_small by (unfold SIZE_MAX; lia).
    repeat split; cbn [items_ size_ capacity_]; lia.
  - by apply leave_moved_from_no_throw in Hm.
  - by intros ?%leaves_Undefined.
  - by intros ?%leaves_NoFuel.
Qed.

Lemma wf_Insert v pos value v' :
  wf v → leaves (Insert pos value v) v' → wf v'.
Proof.
  intros Hwf Hl.
  destruct (Insert_ref_cases pos value v) as [Hu|[y Hy]].
  { rewrite Hu in Hl. by apply leaves_Undefined in Hl. }
  rewrite Hy in Hl.
  apply (wf_Insert_rvalue v pos (outside y)); [done|].
  rewrite Insert_rvalue_eq.
  destruct (Insert pos (outside y) v) as [it v2|e v2| |]; simpl.
  - apply leaves_Return in Hl as ->. left. by eexists.
  - apply leaves_Throw in Hl as ->. right. by eexists.
  - by apply leaves_Undefined in Hl.
  - by apply leaves_NoFuel in Hl.
Qed.

(** A valid range from behind [begin() + index] to [end()] exists only in
    a vector that is not empty. *)
Lemma erase_range_nonempty v index k :
  wf v → 0 ≤ index →
  range_length (advance (advance (begin v) index) 1) (end_ v) = Some k →
  0 < size_ v.
Proof.
  intros (Hlen & Hsz & Hcap) Hidx.
  unfold begin, end_, IsEmpty, GetSize. case_bool_decide as Hz; [|lia].
  unfold nullptr, range_length. cbn [advance distance mbind option_bind].
  by rewrite bool_decide_false by lia.
Qed.

Lemma to_size_t_nonneg z : 0 ≤ to_size_t z.
Proof. unfold to_size_t. apply Z.mod_pos_bound. lia. Qed.

Lemma wf_Erase v pos v' : wf v → leaves (Erase pos v) v' → wf v'.
Proof.
  intros Hwf. pose proof Hwf as (Hlen & Hsz & Hcap).
  pose proof alloc_limit_bounds. unfold PTRDIFF_MAX in *.
  unfold Erase. unfold bind at 1, get at 1. unfold bind at 1, defined at 1.
  destruct (distance (begin v) pos) as [d|]; [|by intros ?%leaves_Undefined].
  unfold bind at 1, get at 1. unfold bind at 1, get at 1, id.
  unfold bind at 1, defined at 1.
  destruct (std_copy_move_iterator _ _ _ _) as [buf|] eqn:Hmv;
    [|by intros ?%leaves_Undefined].
  unfold std_copy_move_iterator in Hmv.
  destruct (range_length _ _) as [k|] eqn:Hrange; [|done].
  cbn [mbind option_bind] in Hmv.
  apply move_within_loop_length in Hmv.
  apply erase_range_nonempty in Hrange; [|done|apply to_size_t_nonneg].
  unfold bind, get, set_items, set_size, ret, GetSize.
  cbn [items_ size_ capacity_].
  rewrite !(to_size_t_small (size_ v - 1)) by (unfold SIZE_MAX; lia).
  case_bool_decide; intros ->%leaves_Return;
    (apply wf_resized; [done|done|lia]).
Qed.

Lemma wf_Resize v n v' : wf v → 0 ≤ n → leaves (Resize n v) v' → wf v'.
Proof.
  intros Hwf Hn. pose proof Hwf as (Hlen & Hsz & Hcap).
  destruct (decide (n < size_ v)) as [Hlt|Hge].
  { rewrite Resize_shrinks by done. intros ->%leaves_Return.
    apply wf_resized; (done || lia). }
  destruct (decide (n = size_ v)) as [->|Hne].
  { rewrite Resize_same. by intros ->%leaves_Return. }
  destruct (decide (n ≤ capacity_ v)) as [Hin|Hout].
  - unfold Resize, Resize_body, bind, get, GetSize, GetCapacity, id, defined.
    rewrite bool_decide_false, bool_decide_true, bool_decide_false by lia.
    destruct (std_fill _ _ _ _) as [b|] eqn:Hf; [|by intros ?%leaves_Undefined].
    unfold std_fill in Hf. destruct (range_length _ _) as [k|]; [|done].
    cbn [mbind option_bind] in Hf. apply fill_loop_length in Hf.
    unfold set_items, set_size. cbn [items_ size_ capacity_].
    intros ->%leaves_Return. apply wf_resized; (done || lia).
  - destruct (decide (n ≤ alloc_limit)) as [Hok|Hno].
    + rewrite Resize_reallocates by (done || lia). intros ->%leaves_Return.
      repeat split; cbn [items_ size_ capacity_]; try lia.
      rewrite length_app, length_replicate, wf_live_length by done. lia.
    + rewrite Resize_refused by (done || lia). by intros ->%leaves_Throw.
Qed.

Lemma wf_swap v other :
  wf v → wf other →
  ∃ v' other', swap other v = Return other' v' ∧ wf v' ∧ wf other'.
Proof.
  intros Hwf Hwfo. unfold swap, ArrayPtr.swap.
  do 2 eexists. split; [done|]. by destruct v, other.
Qed.

Lemma wf_assign_copy v rhs v' :
  wf v → wf rhs → leaves (assign_copy (Some rhs) v) v' → wf v'.
Proof.
  intros Hwf Hwfr. unfold assign_copy, bind, local.
  rewrite SimpleVector_copy_eq by done.
  unfold swap, ArrayPtr.swap, ret. cbn [items_ size_ capacity_].
  intros ->%leaves_Return. by apply SimpleVector_copy_wf.
Qed.

Lemma wf_assign_move v rhs :
  wf v → wf rhs →
  ∃ v' rhs', assign_move (Some rhs) v = Return (Some rhs') v'
    ∧ wf v' ∧ wf rhs'.
Proof.
  intros Hwf Hwfr. unfold assign_move, ArrayPtr.move, bind, set_items,
    set_size, set_capacity, ret. cbn [items_ size_ capacity_].
  do 2 eexists. split; [done|]. split; [by destruct rhs|apply wf_empty].
Qed.

(** Every reachable state satisfies the representation invariant. *)
Lemma reachable_wf v : reachable v → wf v.
Proof.
  induction 1 as
    [ v Hb | n v Hn Hb | n x v Hn Hb | l v Hn Hb | other v _ IH Hb
    | other _ IH | other _ IH | r v Hn Hb
    | v x v' _ IH Hl | v x v' _ IH Hl | v v' _ IH Hl
    | v pos x v' _ IH Hl | v pos x v' _ IH Hl | v pos v' _ IH Hl
    | v v' _ IH Hl | v n v' _ IH Hn Hl | v n v' _ IH Hn Hl
    | v i v' _ IH Hn Hl | v i x v' _ IH Hn Hl
    | v other v' _ IH _ IHo Hl | v other other' v' _ IH _ IHo Hs
    | v rhs v' _ IH _ IHr Hl | v v' _ IH Hl
    | v rhs v' _ IH _ IHr Hl | v v' _ IH Hl
    | v rhs rhs' v' _ IH _ IHr Hm ].
  - by apply wf_default.
  - by eapply wf_size.
  - by eapply wf_size_value.
  - by eapply wf_init_list.
  - by eapply wf_copy.
  - by apply wf_move.
  - by apply wf_move.
  - by eapply wf_reserve_ctor.
  - by eapply wf_PushBack.
  - by eapply wf_PushBack_rvalue.
  - by eapply wf_PopBack.
  - by eapply wf_Insert.
  - by eapply wf_Insert_rvalue.
  - by eapply wf_Erase.
  - by eapply wf_Clear.
  - destruct Hn. by eapply wf_Resize.
  - by eapply wf_Reserve.
  - by eapply wf_At.
  - by eapply wf_index_assign.
  - destruct (wf_swap v other IH IHo) as (v1 & o1 & Hs & Hwf1 & _).
    rewrite Hs in Hl. by apply leaves_Return in Hl as ->.
  - destruct (wf_swap v other IH IHo) as (v1 & o1 & Hs' & _ & Hwfo).
    rewrite Hs' in Hs. by injection Hs as <- <-.
  - by apply (wf_assign_copy v rhs).
  - by apply leaves_Return in Hl as ->.
  - destruct (wf_assign_move v rhs IH IHr) as (v1 & r1 & Hm & Hwf1 & _).
    rewrite Hm in Hl. by apply leaves_Return in Hl as ->.
  - by apply leaves_Return in Hl as ->.
  - destruct (wf_assign_move v rhs IH IHr) as (v1 & r1 & Hm' & _ & Hwfr).
    rewrite Hm' in Hm. by injection Hm as <- <-.
Qed.

(** C9.  In every reachable state of the container, that is, after any
    constructor and any sequence of member calls that returned or threw,
    [0 <= Size() <= Capacity()]. *)
Theorem size_within_capacity v :
  reachable v → 0 ≤ GetSize v ≤ GetCapacity v.
Proof. intros Hr. by destruct (reachable_wf v Hr) as (_ & ? & _). Qed.

(** *** Insert at positions an [int] can hold *)

(** For a position [begin() + i] whose index fits in an [int], [Insert]
    grows a full vector like [PushBack] does, moves the elements from
    index [i] on one slot towards the tail, stores the value at index [i]
    and returns the iterator to slot [i]. *)
Lemma Insert_within_int_range v i x :
  wf v → growth_granted v → 0 ≤ i ≤ GetSize v → i ≤ INT_MAX →
  ∃ v', Insert (position v i) (outside x) v = Return (slot i) v'
    ∧ GetSize v' = GetSize v + 1
    ∧ live v' = take (Z.to_nat i) (live v) ++ x :: drop (Z.to_nat i) (live v)
    ∧ GetCapacity v'
      = (if bool_decide (GetSize v = GetCapacity v)
         then (if bool_decide (GetCapacity v = 0) then 1
               else 2 * GetCapacity v)
         else GetCapacity v)
    ∧ wf v'.
Proof.
  intros Hwf Hgr Hi Hint.
  pose proof (Insert_at_computed_index v (position v i) i x Hwf Hgr
                (distance_position v i)) as Hins.
  rewrite to_int_small in Hins by lia. by apply Hins.
Qed.

Lemma distance_begin_end v : wf v → distance (begin v) (end_ v) = Some (size_ v).
Proof.
  intros Hwf. pose proof Hwf as (Hlen & Hsz & Hcap).
  destruct (decide (size_ v = 0)) as [Hz|Hnz].
  - rewrite begin_empty, end_empty by done. simpl. f_equal. lia.
  - rewrite begin_nonempty, end_nonempty by (done || lia). simpl. f_equal. lia.
Qed.

(** On a vector of at most [INT_MAX] elements, [Insert(end(), item)] does
    to the vector exactly what [PushBack(item)] does, also when the growth
    is refused and also when [item] is an element of the vector: nothing
    moves before [item] is read. *)
Lemma Insert_end_is_PushBack v item :
  wf v → GetSize v ≤ INT_MAX →
  map_value (λ _, tt) (Insert (end_ v) item v) = PushBack item v.
Proof.
  unfold GetSize. intros Hwf Hint. pose proof Hwf as (Hlen & Hsz & Hcap).
  pose proof (distance_begin_end v Hwf) as Hdist.
  destruct (DoubleIfFull_cases v Hwf) as [(v1 & Hd & Hwf1 & Hs & Hroom)|Hd].
  - pose proof Hwf1 as (Hlen1 & Hsz1 & Hcap1).
    set (n := Z.to_nat (size_ v1)).
    destruct (split_buffer (items_ v1) n n) as [y Hsplit]; [lia|].
    rewrite Nat.sub_diag, take_0 in Hsplit.
    assert (to_int (size_ v) = Z.of_nat (length (take n (items_ v1)))) as Hi
      by (rewrite to_int_small by lia; rewrite length_take_le; lia).
    assert (size_ v1 = Z.of_nat (length (take n (items_ v1)) + length (@nil T)))
      as Hn by (rewrite length_take_le by lia; simpl; lia).
    assert (deref v (mk (take n (items_ v1)
                         ++ from_option moved_from y (head []) :: [] ++ drop (S n) (items_ v1))
                        (size_ v1) (capacity_ v1)) item
            = deref v v1 item) as Hsame.
    { cbn [head from_option app]. cbn [app] in Hsplit. rewrite <- Hsplit.
      by destruct v1. }
    destruct (deref v v1 item) as [x|] eqn:Hx.
    + rewrite (PushBack_ref_after_growth v v1 item x) by (done || lia).
      by rewrite (Insert_ref_after_growth v v1 (end_ v) (size_ v) item x _ _ _ _
                    Hdist Hd Hwf1 Hsplit Hi Hn Hsame).
    + rewrite (PushBack_ref_dangling v v1 item) by done.
      by rewrite (Insert_ref_dangling v v1 (end_ v) (size_ v) item _ _ _ _
                    Hdist Hd Hwf1 Hsplit Hi Hn Hsame).
  - unfold Insert, PushBack, bind, get, defined, id.
    by rewrite Hdist, Hd.
Qed.

(** The rvalue overloads from the state [DoubleIfFull] left. *)
Lemma PushBack_rvalue_ref_after_growth v v1 item x :
  DoubleIfFull v = Return tt v1 → wf v1 → size_ v1 < capacity_ v1 →
  deref v v1 item = Some x →
  PushBack_rvalue item v
  = leave_moved_from item x
      (mk (live v1 ++ x :: drop (S (Z.to_nat (size_ v1))) (items_ v1))
          (size_ v1 + 1) (capacity_ v1)).
Proof.
  intros Hd (Hlen & Hsz & Hcap) Hroom Hx. pose proof alloc_limit_bounds.
  unfold PTRDIFF_MAX in *.
  unfold PushBack_rvalue, bind at 1, get at 1, id. unfold bind at 1. rewrite Hd.
  unfold read_ref, bind at 1. unfold bind at 1, get at 1, id.
  rewrite Hx. unfold defined at 1.
  unfold post_increment_size, operator_index_assign, bind, get, set_size,
    set_items, ret, defined, id.
  cbn [items_ size_ capacity_].
  rewrite write_at by lia.
  rewrite to_size_t_small by (unfold SIZE_MAX; lia). done.
Qed.

Lemma PushBack_rvalue_ref_dangling v v1 item :
  DoubleIfFull v = Return tt v1 → deref v v1 item = None →
  PushBack_rvalue item v = Undefined.
Proof.
  intros Hd Hx.
  unfold PushBack_rvalue, bind at 1, get at 1, id. unfold bind at 1. rewrite Hd.
  unfold read_ref, bind at 1. unfold bind at 1, get at 1, id.
  by rewrite Hx.
Qed.

Lemma Insert_rvalue_ref_after_growth v v1 pos d value x pre mid y post :
  distance (begin v) pos = Some d →
  DoubleIfFull v = Return tt v1 → wf v1 →
  items_ v1 = pre ++ mid ++ y :: post →
  to_int d = Z.of_nat (length pre) →
  size_ v1 = Z.of_nat (length pre + length mid) →
  deref v (mk (pre ++ from_option moved_from y (head mid) :: mid ++ post)
              (size_ v1) (capacity_ v1)) value = Some x →
  Insert_rvalue pos value v
  = (z <- leave_moved_from value x ;;
     sz <- get size_ ;;
     set_size (to_size_t (sz + 1)) ;;
     this <- get id ;;
     ret (ArrayPtr.address (items_ this) (to_int d), z))
      (mk (pre ++ x :: mid ++ post) (size_ v1) (capacity_ v1)).
Proof.
  intros Hdist Hd Hwf1 Hitems Hi Hsize Hx.
  pose proof Hwf1 as (Hlen & Hsz & Hcap). pose proof alloc_limit_bounds.
  unfold PTRDIFF_MAX in *.
  pose proof (Insert_shift v1 (to_int d) pre mid y post Hwf1 Hitems Hi Hsize)
    as Hmove.
  unfold Insert_rvalue, bind at 1, get at 1, id. unfold bind at 1, get at 1.
  unfold bind at 1. unfold defined at 1.
  rewrite Hdist. unfold bind at 1. rewrite Hd.
  unfold bind at 1, get at 1, id. unfold bind at 1. rewrite Hmove.
  unfold defined at 1. unfold bind at 1, set_items at 1.
  unfold bind at 1, read_ref at 1. unfold bind at 1, get at 1, id.
  cbn [items_ size_ capacity_]. rewrite Hx. unfold defined at 1.
  unfold bind at 1, operator_index_assign at 1.
  unfold bind at 1, get at 1, id. unfold bind at 1.
  cbn [items_ size_ capacity_].
  rewrite (to_size_t_small (to_int d)) by (unfold SIZE_MAX; lia).
  rewrite write_middle by done.
  unfold defined at 1, set_items at 1.
  cbn [items_ size_ capacity_]. done.
Qed.

Lemma Insert_rvalue_ref_dangling v v1 pos d value pre mid y post :
  distance (begin v) pos = Some d →
  DoubleIfFull v = Return tt v1 → wf v1 →
  items_ v1 = pre ++ mid ++ y :: post →
  to_int d = Z.of_nat (length pre) →
  size_ v1 = Z.of_nat (length pre + length mid) →
  deref v (mk (pre ++ from_option moved_from y (head mid) :: mid ++ post)
              (size_ v1) (capacity_ v1)) value = None →
  Insert_rvalue pos value v = Undefined.
Proof.
  intros Hdist Hd Hwf1 Hitems Hi Hsize Hx.
  pose proof (Insert_shift v1 (to_int d) pre mid y post Hwf1 Hitems Hi Hsize)
    as Hmove.
  unfold Insert_rvalue, bind at 1, get at 1, id. unfold bind at 1, get at 1.
  unfold bind at 1. unfold defined at 1.
  rewrite Hdist. unfold bind at 1. rewrite Hd.
  unfold bind at 1, get at 1, id. unfold bind at 1. rewrite Hmove.
  unfold defined at 1. unfold bind at 1, set_items at 1.
  unfold bind at 1, read_ref at 1. unfold bind at 1, get at 1, id.
  cbn [items_ size_ capacity_]. by rewrite Hx.
Qed.

(** The same for the rvalue overloads. *)
Lemma Insert_rvalue_end_is_PushBack_rvalue v item :
  wf v → GetSize v ≤ INT_MAX →
  map_value (λ _, tt) (Insert_rvalue (end_ v) item v)
  = map_value (λ _, tt) (PushBack_rvalue item v).
Proof.
  unfold GetSize. intros Hwf Hint. pose proof Hwf as (Hlen & Hsz & Hcap).
  pose proof alloc_limit_bounds as Hlim. unfold PTRDIFF_MAX in Hlim.
  pose proof (distance_begin_end v Hwf) as Hdist.
  destruct (DoubleIfFull_cases v Hwf) as [(v1 & Hd & Hwf1 & Hs & Hroom)|Hd].
  - pose proof Hwf1 as (Hlen1 & Hsz1 & Hcap1).
    set (n := Z.to_nat (size_ v1)).
    destruct (split_buffer (items_ v1) n n) as [y Hsplit]; [lia|].
    rewrite Nat.sub_diag, take_0 in Hsplit.
    assert (to_int (size_ v) = Z.of_nat (length (take n (items_ v1)))) as Hi
      by (rewrite to_int_small by lia; rewrite length_take_le; lia).
    assert (size_ v1 = Z.of_nat (length (take n (items_ v1)) + length (@nil T)))
      as Hn by (rewrite length_take_le by lia; simpl; lia).
    assert (deref v (mk (take n (items_ v1)
                         ++ from_option moved_from y (head []) :: [] ++ drop (S n) (items_ v1))
                        (size_ v1) (capacity_ v1)) item
            = deref v v1 item) as Hsame.
    { cbn [head from_option app]. cbn [app] in Hsplit. rewrite <- Hsplit.
      by destruct v1. }
    destruct (deref v v1 item) as [x|] eqn:Hx.
    + rewrite (PushBack_rvalue_ref_after_growth v v1 item x) by (done || lia).
      rewrite (Insert_rvalue_ref_after_growth v v1 (end_ v) (size_ v) item x
                 _ _ _ _ Hdist Hd Hwf1 Hsplit Hi Hn Hsame).
      cbn [app]. fold n. unfold live. fold n.
      destruct item as [x0|k]; cbn [leave_moved_from].
      * unfold bind, get, set_size, ret, id. cbn [items_ size_ capacity_ map_value].
        by rewrite to_size_t_small by (unfold SIZE_MAX; lia).
      * unfold operator_index_assign, bind, get, set_size, set_items, ret,
          defined, id. cbn [items_ size_ capacity_].
        destruct (ArrayPtr.write _ k (moved_from x)) as [b'|]; [|done].
        cbn [items_ size_ capacity_ map_value].
        by rewrite to_size_t_small by (unfold SIZE_MAX; lia).
    + rewrite (PushBack_rvalue_ref_dangling v v1 item) by done.
      by rewrite (Insert_rvalue_ref_dangling v v1 (end_ v) (size_ v) item
                    _ _ _ _ Hdist Hd Hwf1 Hsplit Hi Hn Hsame).
  - unfold Insert_rvalue, PushBack_rvalue, bind, get, defined, id.
    by rewrite Hdist, Hd.
Qed.
End Facts.

(** ** Further facts about the container *)

Section MoreFacts.
Context {T : Type} `{!Element T} `{!Heap}.
Implicit Types (v other rhs : t T) (b : list T) (x : T).
Implicit Types (item value : Ref T).

(** *** Reserve *)

(** X1.  On a well-formed vector, [Reserve(n)] with a granted allocation
    returns.  The capacity becomes the larger of [n] and the old capacity;
    the live elements stay where they are.  When the buffer is replaced,
    [Size()] becomes the old capacity and the slots between the old size and
    the old capacity hold value-initialised elements. *)
Theorem Reserve_behaviour n v :
  wf v → n ≤ alloc_limit →
  ∃ v', Reserve n v = Return tt v'
    ∧ GetCapacity v' = Z.max n (GetCapacity v)
    ∧ GetSize v'
      = (if bool_decide (GetCapacity v < n) then GetCapacity v else GetSize v)
    ∧ take (Z.to_nat (GetSize v)) (live v') = live v
    ∧ (∀ i, GetSize v ≤ i < GetSize v' →
         live v' !! Z.to_nat i = Some value_init)
    ∧ wf v'.
Proof.
  unfold GetSize, GetCapacity.
  intros Hwf Hn. pose proof Hwf as (Hlen & Hsz & Hcap).
  case_bool_decide as Hgrow.
  - eexists. rewrite Reserve_grows by (done || lia). split; [done|].
    cbn [size_ capacity_].
    split; [lia|]. split; [done|].
    assert (live (mk (live v ++ replicate (Z.to_nat (n - size_ v)) value_init)
                    (capacity_ v) n)
            = live v ++ replicate (Z.to_nat (capacity_ v - size_ v)) value_init)
      as Hl.
    { unfold live at 1. cbn [items_ size_].
      rewrite take_app, wf_live_length by done.
      rewrite take_ge by (rewrite wf_live_length by done; lia).
      rewrite take_replicate. do 2 f_equal. lia. }
    rewrite Hl. split; [|split].
    + by rewrite take_app_length' by (by rewrite wf_live_length).
    + intros i Hi.
      rewrite lookup_app_r by (rewrite wf_live_length by done; lia).
      apply lookup_replicate_2. rewrite wf_live_length by done. lia.
    + apply Reserve_grows_wf; (done || lia).
  - exists v. rewrite Reserve_noop by lia.
    split; [done|]. split; [lia|]. split; [done|]. split; [|split].
    + apply take_ge. rewrite wf_live_length by done. lia.
    + intros i Hi. lia.
    + done.
Qed.

(** *** Allocation failure *)

Lemma DoubleIfFull_throws v e v' :
  wf v → DoubleIfFull v = Throw e v' →
  e = bad_alloc ∧ v' = v ∧ size_ v = capacity_ v.
Proof.
  intros Hwf Hthrow.
  destruct (decide (size_ v = capacity_ v)) as [Hfull|Hspare].
  - destruct (DoubleIfFull_cases v Hwf) as [(v1 & Hd & _)|Hd];
      rewrite Hd in Hthrow; [done|].
    by injection Hthrow as <- <-.
  - by rewrite DoubleIfFull_spare in Hthrow.
Qed.

(** X2.  The only exception [Reserve], [Resize], [PushBack] and [Insert]
    let out of a well-formed vector is [std::bad_alloc], and the vector is
    then exactly as it was before the call: the new buffer is allocated
    before anything is changed.  [Reserve] and [Resize] throw only for a
    request beyond what the free store grants, [PushBack] and [Insert] only
    on a full vector, whatever their argument refers to. *)
Theorem allocation_failure_changes_nothing v :
  wf v →
  (∀ n e v', Reserve n v = Throw e v' →
     e = bad_alloc ∧ v' = v ∧ alloc_limit < n)
  ∧ (∀ n e v', Resize n v = Throw e v' →
       e = bad_alloc ∧ v' = v ∧ alloc_limit < n)
  ∧ (∀ item e v', PushBack item v = Throw e v' →
       e = bad_alloc ∧ v' = v ∧ GetSize v = GetCapacity v)
  ∧ (∀ pos value e v', Insert pos value v = Throw e v' →
       e = bad_alloc ∧ v' = v ∧ GetSize v = GetCapacity v).
Proof.
  unfold GetSize, GetCapacity.
  intros Hwf. pose proof Hwf as (Hlen & Hsz & Hcap).
  assert (∀ n e v', Reserve n v = Throw e v' →
            e = bad_alloc ∧ v' = v ∧ alloc_limit < n) as HReserve.
  { intros n e v' Hthrow.
    destruct (decide (n ≤ capacity_ v)) as [Hle|Hgt].
    { by rewrite Reserve_noop in Hthrow. }
    destruct (decide (n ≤ alloc_limit)) as [Hok|Hno].
    { by rewrite Reserve_grows in Hthrow by (done || lia). }
    rewrite Reserve_refused in Hthrow by lia.
    injection Hthrow as <- <-. repeat split; lia. }
  split; [exact HReserve|]. split; [|split].
  - intros n e v'.
    destruct (decide (n < size_ v)) as [Hlt|Hge].
    { by rewrite Resize_shrinks. }
    destruct (decide (n = size_ v)) as [->|Hne].
    { by rewrite Resize_same. }
    unfold Resize, Resize_body, bind, get, GetSize, GetCapacity, id, defined.
    rewrite bool_decide_false, bool_decide_true by lia.
    case_bool_decide as Hout.
    + fold (Reserve n v).
      destruct (Reserve n v) as [[] v1|e1 v1| |] eqn:Hr; try done.
      intros [= -> ->]. by apply HReserve.
    + by destruct (std_fill _ _ _ _).
  - intros item e v'.
    destruct (PushBack_ref_cases item v) as [->|[x ->]]; [done|].
    rewrite PushBack_outside. unfold bind at 1.
    destruct (DoubleIfFull v) as [[] v1|e1 v1| |] eqn:Hd; try done.
    + unfold post_increment_size, operator_index_assign, bind, get, id,
        defined, set_size, ret. cbn [items_].
      by destruct (ArrayPtr.write _ _ x).
    + intros [= -> ->]. by eapply DoubleIfFull_throws.
  - intros pos value e v'.
    destruct (Insert_ref_cases pos value v) as [->|[x ->]]; [done|].
    rewrite Insert_outside. unfold bind, get, defined.
    destruct (distance (begin v) pos) as [d|]; [|done].
    destruct (DoubleIfFull v) as [[] v1|e1 v1| |] eqn:Hd; try done.
    + unfold id. destruct (std_move_backward _ _ _ _) as [buf|]; [|done].
      unfold operator_index_assign, set_items, bind, get, defined, id.
      cbn [items_]. by destruct (ArrayPtr.write buf _ x).
    + intros [= -> ->]. by eapply DoubleIfFull_throws.
Qed.

(** *** Insert *)

(** The state [DoubleIfFull] returns has the capacity the call started
    with only when nothing was reallocated: it is then the very state the
    call started with. *)
Lemma DoubleIfFull_same_buffer v v1 :
  wf v → DoubleIfFull v = Return tt v1 → capacity_ v1 = capacity_ v → v1 = v.
Proof.
  intros Hwf Hd Hsame. pose proof Hwf as (Hlen & Hsz & Hcap).
  destruct (decide (size_ v = capacity_ v)) as [Hfull|Hspare].
  - rewrite DoubleIfFull_full in Hd by done.
    set (n := if bool_decide (capacity_ v ≠ 0)
              then to_size_t (capacity_ v * 2) else 1) in Hd.
    destruct (decide (n ≤ capacity_ v)) as [Hle|Hgt].
    { rewrite Reserve_noop in Hd by done. by injection Hd as <-. }
    destruct (decide (n ≤ alloc_limit)) as [Hok|Hno].
    + rewrite Reserve_grows in Hd by (done || lia).
      injection Hd as <-. cbn [capacity_] in Hsame. lia.
    + by rewrite Reserve_refused in Hd by lia.
  - rewrite DoubleIfFull_spare in Hd by done. by injection Hd as <-.
Qed.

(** On a full vector the growth replaces the buffer, so a reference to
    one of its elements does not survive [DoubleIfFull]. *)
Lemma deref_element_after_growth v v1 k b n :
  wf v → growth_granted v → size_ v = capacity_ v →
  DoubleIfFull v = Return tt v1 →
  deref v (mk b n (capacity_ v1)) (element k) = None.
Proof.
  intros Hwf Hgr Hfull Hd. pose proof Hwf as (Hlen & Hsz & Hcap).
  destruct (DoubleIfFull_granted v Hwf Hgr)
    as (v1' & Hd' & _ & _ & Hroom & _).
  rewrite Hd in Hd'. injection Hd' as <-.
  cbn [deref]. unfold same_buffer. cbn [capacity_].
  by rewrite bool_decide_false by lia.
Qed.

(** [PushBack] with an element of the vector itself as argument. *)
Lemma PushBack_own_element v k :
  wf v → growth_granted v →
  (size_ v = capacity_ v →
   PushBack (element k) v = Undefined
   ∧ PushBack_rvalue (element k) v = Undefined)
  ∧ (size_ v < capacity_ v → 0 ≤ k →
     ∀ y, items_ v !! Z.to_nat k = Some y →
          PushBack (element k) v = PushBack (outside y) v).
Proof.
  intros Hwf Hgr. pose proof Hwf as (Hlen & Hsz & Hcap). split.
  - intros Hfull.
    destruct (DoubleIfFull_granted v Hwf Hgr) as (v1 & Hd & _).
    assert (deref v v1 (element k) = None) as Hx.
    { pose proof (deref_element_after_growth v v1 k (items_ v1) (size_ v1)
                    Hwf Hgr Hfull Hd) as Hx.
      by destruct v1. }
    split.
    + by apply (PushBack_ref_dangling v v1).
    + by apply (PushBack_rvalue_ref_dangling v v1).
  - intros Hroom Hk y Hy.
    assert (DoubleIfFull v = Return tt v) as Hd
      by (apply DoubleIfFull_spare; lia).
    assert (deref v v (element k) = Some y) as Hx.
    { cbn [deref]. unfold same_buffer. rewrite bool_decide_true by done.
      by rewrite read_at. }
    rewrite (PushBack_ref_after_growth v v (element k) y) by done.
    by rewrite (PushBack_after_growth v v y).
Qed.

(** What the slots of the buffer hold after [Insert] has shifted the
    elements from index [i] on: slot [i] keeps its moved-from element,
    the slots behind it up to the old size hold their predecessors. *)
Lemma shifted_lookup b (i n k : nat) y0 y :
  (i ≤ n < length b)%nat → b !! n = Some y0 →
  (take i b ++ from_option moved_from y0 (head (take (n - i) (drop i b)))
     :: take (n - i) (drop i b) ++ drop (S n) b) !! k = Some y →
  ((k < i)%nat → b !! k = Some y)
  ∧ (k = i → (i < n)%nat → moved_from <$> b !! k = Some y)
  ∧ (k = i → i = n → b !! k = Some y)
  ∧ ((i < k ≤ n)%nat → b !! (k - 1)%nat = Some y)
  ∧ ((n < k)%nat → b !! k = Some y).
Proof.
  intros Hin Hy0 HB.
  assert (length (take i b) = i) as Hpre by (rewrite length_take_le; lia).
  assert (length (take (n - i) (drop i b)) = (n - i)%nat) as Hmid
    by (rewrite length_take_le; [done|rewrite length_drop; lia]).
  split; [|split; [|split; [|split]]].
  - intros Hk. rewrite lookup_app_l in HB by lia.
    by rewrite lookup_take_lt in HB by lia.
  - intros -> Hlt.
    rewrite list_lookup_middle in HB by done. injection HB as <-.
    destruct (lookup_lt_is_Some_2 b i) as [z Hz]; [lia|].
    rewrite Hz. cbn. f_equal.
    rewrite head_lookup, lookup_take_lt, lookup_drop, Nat.add_0_r, Hz by lia.
    done.
  - intros -> ->.
    rewrite list_lookup_middle in HB by done. injection HB as <-.
    by rewrite Nat.sub_diag, take_0.
  - intros Hk. rewrite lookup_app_r in HB by lia. rewrite Hpre in HB.
    rewrite lookup_cons_ne_0 in HB by lia.
    rewrite lookup_app_l in HB by lia.
    rewrite lookup_take_lt, lookup_drop in HB by lia.
    by replace (i + Nat.pred (k - i))%nat with (k - 1)%nat in HB by lia.
  - intros Hk. rewrite lookup_app_r in HB by lia. rewrite Hpre in HB.
    rewrite lookup_cons_ne_0 in HB by lia.
    rewrite lookup_app_r in HB by lia. rewrite Hmid in HB.
    rewrite lookup_drop in HB.
    by replace (S n + (Nat.pred (k - i) - (n - i)))%nat with k in HB by lia.
Qed.

(** [Insert] with an element of the vector itself as argument, on a
    vector with room: the value inserted is the one slot [k] holds after
    the shift. *)
Lemma Insert_own_element v i k :
  wf v → 0 ≤ i ≤ size_ v → i ≤ INT_MAX →
  size_ v < capacity_ v → 0 ≤ k < capacity_ v →
  ∃ y, Insert (position v i) (element k) v
       = Insert (position v i) (outside y) v
     ∧ (k < i → items_ v !! Z.to_nat k = Some y)
     ∧ (k = i → i < size_ v → moved_from <$> items_ v !! Z.to_nat k = Some y)
     ∧ (k = i → i = size_ v → items_ v !! Z.to_nat k = Some y)
     ∧ (i < k ≤ size_ v → items_ v !! Z.to_nat (k - 1) = Some y)
     ∧ (size_ v < k → items_ v !! Z.to_nat k = Some y).
Proof.
  intros Hwf Hi Hint Hroom Hk. pose proof Hwf as (Hlen & Hsz & Hcap).
  assert (DoubleIfFull v = Return tt v) as Hd
    by (apply DoubleIfFull_spare; lia).
  set (i' := Z.to_nat i). set (n := Z.to_nat (size_ v)).
  destruct (split_buffer (items_ v) i' n) as [y0 Hsplit]; [lia|].
  assert (length (take i' (items_ v)) = i') as Hpre
    by (rewrite length_take_le; lia).
  assert (length (take (n - i') (drop i' (items_ v))) = (n - i')%nat) as Hmid
    by (rewrite length_take_le; [done|rewrite length_drop; lia]).
  assert (items_ v !! n = Some y0) as Hy0.
  { rewrite Hsplit, app_assoc. apply list_lookup_middle.
    rewrite length_app, Hpre, Hmid. lia. }
  set (B := take i' (items_ v)
            ++ from_option moved_from y0 (head (take (n - i') (drop i' (items_ v))))
            :: take (n - i') (drop i' (items_ v)) ++ drop (S n) (items_ v)).
  assert (length B = length (items_ v)) as HlenB.
  { apply (f_equal length) in Hsplit. unfold B.
    rewrite !length_app in Hsplit. simpl in Hsplit.
    rewrite !length_app. simpl. rewrite !length_app. lia. }
  destruct (lookup_lt_is_Some_2 B (Z.to_nat k)) as [y Hy]; [lia|].
  exists y. split.
  - assert (deref v (mk B (size_ v) (capacity_ v)) (element k) = Some y) as Hx.
    { cbn [deref]. unfold same_buffer. cbn [capacity_ items_].
      rewrite bool_decide_true by done. by rewrite read_at by lia. }
    rewrite (Insert_ref_after_growth v v (position v i) i (element k) y
               _ _ _ _ (distance_position v i) Hd Hwf Hsplit)
      by (rewrite ?to_int_small by lia; rewrite ?Hpre, ?Hmid; (done || lia)).
    by rewrite (Insert_after_growth v v (position v i) i y
                  _ _ _ _ (distance_position v i) Hd Hwf Hsplit)
      by (rewrite ?to_int_small by lia; rewrite ?Hpre, ?Hmid; lia).
  - destruct (shifted_lookup (items_ v) i' n (Z.to_nat k) y0 y)
      as (H1 & H2 & H3 & H4 & H5); [lia|done|done|].
    split; [intros; apply H1; lia|].
    split; [intros; apply H2; lia|].
    split; [intros; apply H3; lia|].
    split; [|intros; apply H5; lia].
    intros Hik. replace (Z.to_nat (k - 1)) with (Z.to_nat k - 1)%nat by lia.
    apply H4. lia.
Qed.

(** On a full vector the growth releases the buffer the argument refers
    to before [Insert] reads it. *)
Lemma Insert_own_element_full v i k :
  wf v → growth_granted v → 0 ≤ i ≤ size_ v → i ≤ INT_MAX →
  size_ v = capacity_ v →
  Insert (position v i) (element k) v = Undefined
  ∧ Insert_rvalue (position v i) (element k) v = Undefined.
Proof.
  intros Hwf Hgr Hi Hint Hfull. pose proof Hwf as (Hlen & Hsz & Hcap).
  destruct (DoubleIfFull_granted v Hwf Hgr)
    as (v1 & Hd & Hwf1 & Hs1 & Hroom & _).
  pose proof Hwf1 as (Hlen1 & Hsz1 & Hcap1).
  set (i' := Z.to_nat i). set (n := Z.to_nat (size_ v)).
  destruct (split_buffer (items_ v1) i' n) as [y0 Hsplit]; [lia|].
  assert (length (take i' (items_ v1)) = i') as Hpre
    by (rewrite length_take_le; lia).
  assert (length (take (n - i') (drop i' (items_ v1))) = (n - i')%nat) as Hmid
    by (rewrite length_take_le; [done|rewrite length_drop; lia]).
  split.
  - apply (Insert_ref_dangling v v1 (position v i) i (element k) _ _ _ _
             (distance_position v i) Hd Hwf1 Hsplit).
    + rewrite to_int_small by lia. rewrite Hpre. lia.
    + rewrite Hpre, Hmid. lia.
    + by apply deref_element_after_growth.
  - apply (Insert_rvalue_ref_dangling v v1 (position v i) i (element k) _ _ _ _
             (distance_position v i) Hd Hwf1 Hsplit).
    + rewrite to_int_small by lia. rewrite Hpre. lia.
    + rewrite Hpre, Hmid. lia.
    + by apply deref_element_after_growth.
Qed.

(** X3.  [Insert] at a position [begin() + i] with [0 <= i <= Size()] and
    [i <= INT_MAX], on a well-formed vector whose growth is granted.

    With an argument that is no element of the vector, both overloads
    return the iterator to slot [i] and leave the same vector: the value
    sits at index [i], the elements that were at index [i] and behind
    follow it in order, [Size()] is one more, and the capacity is doubled
    (1 from 0) exactly when the vector was full.

    With [items_[k]] of the vector itself as argument, as in
    [v.Insert(pos, v[k])], the argument is read after the growth and the
    shift.  On a full vector the growth has released the buffer it refers
    to: the call is undefined behaviour, in both overloads.  On a vector
    with room the lvalue overload inserts what slot [k] holds after the
    shift: the element of index [k] for [k < i], the moved-from state of
    the element of index [i] for [k = i < Size()], and the element of index
    [k - 1], not [k], for [i < k <= Size()]. *)
Theorem Insert_behaviour v i value :
  wf v → growth_granted v → 0 ≤ i ≤ GetSize v → i ≤ INT_MAX →
  match value with
  | outside x =>
      ∃ v', Insert (position v i) (outside x) v = Return (slot i) v'
        ∧ Insert_rvalue (position v i) (outside x) v
          = Return (slot i, moved_from x) v'
        ∧ load (items_ v') (slot i) = Some x
        ∧ GetSize v' = GetSize v + 1
        ∧ live v' = take (Z.to_nat i) (live v) ++ x :: drop (Z.to_nat i) (live v)
        ∧ GetCapacity v'
          = (if bool_decide (GetSize v = GetCapacity v)
             then (if bool_decide (GetCapacity v = 0) then 1
                   else 2 * GetCapacity v)
             else GetCapacity v)
        ∧ wf v'
  | element k =>
      (GetSize v = GetCapacity v →
       Insert (position v i) (element k) v = Undefined
       ∧ Insert_rvalue (position v i) (element k) v = Undefined)
      ∧ (GetSize v < GetCapacity v → 0 ≤ k < GetCapacity v →
         ∃ y v', Insert (position v i) (element k) v = Return (slot i) v'
           ∧ load (items_ v') (slot i) = Some y
           ∧ GetSize v' = GetSize v + 1
           ∧ live v' = take (Z.to_nat i) (live v) ++ y :: drop (Z.to_nat i) (live v)
           ∧ GetCapacity v' = GetCapacity v
           ∧ wf v'
           ∧ (k < i → live v !! Z.to_nat k = Some y)
           ∧ (k = i → i < GetSize v →
              moved_from <$> live v !! Z.to_nat k = Some y)
           ∧ (i < k ≤ GetSize v → live v !! Z.to_nat (k - 1) = Some y)
           ∧ (GetSize v < k ∨ (k = i ∧ i = GetSize v) →
              items_ v !! Z.to_nat k = Some y))
  end.
Proof.
  intros Hwf Hgr Hi Hint. pose proof Hwf as (Hlen & Hsz & Hcap).
  assert (∀ x, ∃ v',
            Insert (position v i) (outside x) v = Return (slot i) v'
            ∧ load (items_ v') (slot i) = Some x
            ∧ GetSize v' = GetSize v + 1
            ∧ live v' = take (Z.to_nat i) (live v) ++ x :: drop (Z.to_nat i) (live v)
            ∧ GetCapacity v'
              = (if bool_decide (GetSize v = GetCapacity v)
                 then (if bool_decide (GetCapacity v = 0) then 1
                       else 2 * GetCapacity v)
                 else GetCapacity v)
            ∧ wf v') as Hout.
  { intros x.
    destruct (Insert_within_int_range v i x Hwf Hgr Hi Hint)
      as (v' & Hins & Hsize & Hlive & Hcapacity & Hwf').
    exists v'. split; [done|]. split; [|done].
    pose proof Hwf' as (Hlen' & Hsz' & Hcap').
    unfold GetSize in *. cbn [load]. rewrite read_at by lia.
    assert (live v' !! Z.to_nat i = Some x) as Hx.
    { rewrite Hlive. apply list_lookup_middle.
      rewrite length_take_le; [done|]. rewrite wf_live_length by done. lia. }
    unfold live in Hx. by rewrite lookup_take_lt in Hx by lia. }
  destruct value as [x|k].
  - destruct (Hout x) as (v' & Hins & Hrest).
    exists v'. split; [done|]. split; [|done].
    by rewrite Insert_rvalue_eq, Hins.
  - unfold GetSize, GetCapacity in *. split.
    + intros Hfull. by apply Insert_own_element_full.
    + intros Hroom Hk.
      destruct (Insert_own_element v i k Hwf Hi Hint Hroom Hk)
        as (y & Heq & H1 & H2 & H3 & H4 & H5).
      destruct (Hout y) as (v' & Hins & Hload & Hsize & Hlive & Hcapacity & Hwf').
      exists y, v'. rewrite Heq.
      split; [done|]. split; [done|]. split; [done|]. split; [done|].
      split; [by rewrite Hcapacity, bool_decide_false by lia|].
      split; [done|].
      unfold live.
      split; [intros; rewrite lookup_take_lt by lia; by apply H1|].
      split; [intros; rewrite lookup_take_lt by lia; by apply H2|].
      split; [intros; rewrite lookup_take_lt by lia; by apply H4|].
      intros [?|[? ?]]; [by apply H5|by apply H3].
Qed.

(** X4.  On a well-formed vector of at most [INT_MAX] elements
    [Insert(end(), x)] and [PushBack(x)] have the same outcome, up to the
    iterator [Insert] returns: the same vector when they return, and the
    same exception with the vector unchanged when the growth is refused.
    This holds in both overloads and also when [x] is an element of the
    vector itself, where both calls read it at the same point. *)
Theorem Insert_at_end_is_PushBack v item :
  wf v → GetSize v ≤ INT_MAX →
  map_value (λ _, tt) (Insert (end_ v) item v) = PushBack item v
  ∧ map_value (λ _, tt) (Insert_rvalue (end_ v) item v)
    = map_value (λ _, tt) (PushBack_rvalue item v)
  ∧ end_ v = position v (GetSize v).
Proof.
  intros Hwf Hint. pose proof Hwf as (Hlen & Hsz & Hcap).
  split; [by apply Insert_end_is_PushBack|].
  split; [by apply Insert_rvalue_end_is_PushBack_rvalue|].
  - unfold position, GetSize.
    destruct (decide (size_ v = 0)) as [Hz|Hnz].
    + rewrite begin_empty, end_empty, Hz by done. done.
    + rewrite begin_nonempty, end_nonempty by (done || lia). done.
Qed.

(** X5.  [Insert] at a position behind [end()] is undefined behaviour,
    whatever the argument: the range [[pos, end())] handed to
    [std::move_backward] is not a range. *)
Theorem Insert_behind_end_is_undefined v i value :
  wf v → growth_granted v → GetSize v < i ≤ INT_MAX →
  Insert (position v i) value v = Undefined.
Proof.
  unfold GetSize. intros Hwf Hgr Hi. pose proof Hwf as (Hlen & Hsz & Hcap).
  destruct (DoubleIfFull_granted v Hwf Hgr)
    as (v1 & Hd & Hwf1 & Hs1 & Hroom & _).
  unfold Insert, bind, get, defined, id.
  rewrite distance_position, Hd, to_int_small by lia.
  unfold id, std_move_backward.
  assert (range_length (advance (begin v1) i) (end_ v1) = None) as ->; [|done].
  destruct (decide (size_ v1 = 0)) as [Hz|Hnz].
  - rewrite begin_empty, end_empty by done.
    unfold nullptr, range_length. cbn [advance distance mbind option_bind].
    by rewrite bool_decide_false by lia.
  - rewrite begin_nonempty, end_nonempty by (done || lia).
    unfold range_length. cbn [advance distance mbind option_bind].
    by rewrite bool_decide_false by lia.
Qed.

(** *** Erase *)

(** X6.  [Erase(end())] is undefined behaviour on every well-formed
    vector, the empty one included: [end()] is not the position of a live
    element.  ([PopBack] on an empty vector, in contrast, does nothing.) *)
Theorem Erase_at_end_is_undefined v :
  wf v → Erase (end_ v) v = Undefined ∧ (GetSize v = 0 → PopBack v = Return tt v).
Proof.
  unfold GetSize. intros Hwf. pose proof Hwf as (Hlen & Hsz & Hcap).
  pose proof alloc_limit_bounds as Hlim. unfold PTRDIFF_MAX in Hlim.
  split; [|apply PopBack_empty].
  unfold Erase, bind, get, defined.
  rewrite distance_begin_end by done.
  rewrite to_size_t_small by (unfold SIZE_MAX; lia).
  unfold id, std_copy_move_iterator.
  assert (range_length (advance (advance (begin v) (size_ v)) 1) (end_ v)
          = None) as ->; [|done].
  destruct (decide (size_ v = 0)) as [Hz|Hnz].
  - rewrite begin_empty, end_empty by done.
    unfold nullptr, range_length. cbn [advance distance mbind option_bind].
    by rewrite bool_decide_false by lia.
  - rewrite begin_nonempty, end_nonempty by (done || lia).
    unfold range_length. cbn [advance distance mbind option_bind].
    by rewrite bool_decide_false by lia.
Qed.

(** *** Round trips *)

Lemma take_drop_insert_erase (l : list T) (k : nat) x :
  (k ≤ length l)%nat →
  take k (take k l ++ x :: drop k l) ++ drop (S k) (take k l ++ x :: drop k l)
  = l.
Proof.
  intros Hk.
  rewrite take_app_length' by (by rewrite length_take_le).
  replace (take k l ++ x :: drop k l) with ((take k l ++ [x]) ++ drop k l)
    by (by rewrite <- app_assoc).
  rewrite drop_app_length'; [apply take_drop|].
  rewrite length_app, length_take_le by done. simpl. lia.
Qed.

(** What [Erase] at the position of a live element leaves: the elements
    without the one at index [i], one element less, the same capacity. *)
Lemma Erase_result v i :
  wf v → 0 ≤ i < GetSize v →
  ∃ it v', Erase (position v i) v = Return it v'
    ∧ live v' = take (Z.to_nat i) (live v) ++ drop (S (Z.to_nat i)) (live v)
    ∧ GetSize v' = GetSize v - 1
    ∧ GetCapacity v' = GetCapacity v
    ∧ it = (if bool_decide (i = GetSize v - 1) then end_ v' else slot i)
    ∧ (i < GetSize v - 1 →
       it = position v' i
       ∧ load (items_ v') it = live v !! S (Z.to_nat i))
    ∧ wf v'.
Proof.
  unfold GetSize, GetCapacity.
  intros Hwf Hi. pose proof Hwf as (Hlen & Hsz & Hcap).
  set (k := Z.to_nat i). set (n := Z.to_nat (size_ v)).
  destruct (split_buffer_at (items_ v) k n) as (x & Hx & Hsplit); [lia|].
  assert (length (take k (items_ v)) = k) as Hpre
    by (rewrite length_take_le; lia).
  assert (length (take (n - S k) (drop (S k) (items_ v))) = (n - S k)%nat)
    as Hmid by (rewrite length_take_le; [done|rewrite length_drop; lia]).
  set (pre := take k (items_ v)) in *.
  set (mid := take (n - S k) (drop (S k) (items_ v))) in *.
  set (post := drop n (items_ v)) in *.
  do 2 eexists.
  rewrite (Erase_slots v i pre x mid post Hwf Hsplit) by lia.
  cbn zeta. split; [done|].
  assert (live v = pre ++ x :: mid) as Hl.
  { unfold live. fold n. rewrite Hsplit.
    replace (pre ++ x :: mid ++ post) with ((pre ++ x :: mid) ++ post)
      by (by rewrite <- app_assoc).
    apply take_app_length'. rewrite length_app. simpl. lia. }
  assert (live (mk (pre ++ mid ++ from_option moved_from x (last mid) :: post)
                  (size_ v - 1) (capacity_ v)) = pre ++ mid) as Hl'.
  { unfold live. cbn [items_ size_]. rewrite app_assoc.
    apply take_app_length'. rewrite length_app. lia. }
  cbn [size_ capacity_].
  split; [|split; [done|split; [done|split; [done|split]]]].
  - rewrite Hl', Hl.
    rewrite (take_app_length' pre _ k) by done.
    replace (pre ++ x :: mid) with ((pre ++ [x]) ++ mid)
      by (by rewrite <- app_assoc).
    rewrite drop_app_length'; [done|]. rewrite length_app. simpl. lia.
  - intros Hnl. rewrite bool_decide_false by lia.
    assert (mid ≠ []) as Hne.
    { intros Hnil. rewrite Hnil in Hmid. simpl in Hmid. lia. }
    split.
    + unfold position. rewrite begin_nonempty; [simpl; f_equal; lia| |].
      * repeat split; cbn [items_ size_ capacity_]; try lia.
        apply (f_equal length) in Hsplit.
        rewrite !length_app in Hsplit. simpl in Hsplit.
        rewrite !length_app in Hsplit.
        rewrite !length_app. simpl. lia.
      * cbn [size_]. lia.
    + cbn [load items_]. rewrite read_at by lia. fold k. rewrite Hl.
      destruct mid as [|m mid']; [done|].
      replace (pre ++ x :: m :: mid') with ((pre ++ [x]) ++ m :: mid')
        by (by rewrite <- app_assoc).
      cbn [app].
      rewrite (list_lookup_middle pre _ m k) by done.
      rewrite (list_lookup_middle (pre ++ [x]) _ m (S k)); [done|].
      rewrite length_app. simpl. lia.
  - repeat split; cbn [items_ size_ capacity_]; try lia.
    apply (f_equal length) in Hsplit.
    rewrite !length_app in Hsplit. simpl in Hsplit.
    rewrite !length_app in Hsplit.
    rewrite !length_app. simpl. lia.
Qed.

Lemma Erase_undoes_Insert_of_value v i x :
  wf v → growth_granted v → 0 ≤ i ≤ GetSize v → i ≤ INT_MAX →
  ∃ it v1 it' v2,
    Insert (position v i) (outside x) v = Return it v1
    ∧ Erase it v1 = Return it' v2
    ∧ live v2 = live v
    ∧ GetSize v2 = GetSize v
    ∧ GetCapacity v2 = GetCapacity v1.
Proof.
  intros Hwf Hgr Hi Hint. pose proof Hwf as (Hlen & Hsz & Hcap).
  destruct (Insert_within_int_range v i x Hwf Hgr Hi Hint)
    as (v1 & Hins & Hsize1 & Hlive1 & _ & Hwf1).
  unfold GetSize in *.
  destruct (Erase_result v1 i Hwf1) as (it' & v2 & Her & Hlive2 & Hsize2 & Hcap2 & _);
    [unfold GetSize; lia|].
  assert (position v1 i = slot i) as Hpos.
  { unfold position. rewrite begin_nonempty by (done || lia).
    simpl. f_equal. }
  rewrite Hpos in Her.
  exists (slot i), v1, it', v2. split; [done|]. split; [done|].
  split; [|split; [unfold GetSize in *; lia|done]].
  rewrite Hlive2, Hlive1. apply take_drop_insert_erase.
  rewrite wf_live_length by done. lia.
Qed.

(** X7.  [Erase] undoes [Insert], for a position [begin() + i] with
    [0 <= i <= Size()] and [i <= INT_MAX] and a granted growth: [Insert] of
    an object that is no element of the vector returns, and erasing at the
    iterator that [Insert] returned, whatever its argument was, gives back
    the elements and the size the vector had; the capacity is the one
    [Insert] left. *)
Theorem Erase_after_Insert v i x :
  wf v → growth_granted v → 0 ≤ i ≤ GetSize v → i ≤ INT_MAX →
  (∃ it v1 it' v2,
     Insert (position v i) (outside x) v = Return it v1
     ∧ Erase it v1 = Return it' v2
     ∧ live v2 = live v
     ∧ GetSize v2 = GetSize v
     ∧ GetCapacity v2 = GetCapacity v1)
  ∧ (∀ value it v1,
       Insert (position v i) value v = Return it v1 →
       ∃ it' v2,
         Erase it v1 = Return it' v2
         ∧ live v2 = live v
         ∧ GetSize v2 = GetSize v
         ∧ GetCapacity v2 = GetCapacity v1).
Proof.
  intros Hwf Hgr Hi Hint.
  split; [by apply Erase_undoes_Insert_of_value|].
  intros value it v1 Hins.
  destruct (Insert_ref_cases (position v i) value v) as [Hu|[y Hy]];
    [congruence|].
  destruct (Erase_undoes_Insert_of_value v i y Hwf Hgr Hi Hint)
    as (it0 & v0 & it' & v2 & Hins0 & Herase & Hrest).
  rewrite Hy, Hins0 in Hins. injection Hins as <- <-.
  by exists it', v2.
Qed.

(** X8.  [Insert] undoes [Erase] at an index that fits in an [int]:
    erasing the live element at index [i], for [i <= INT_MAX], and
    inserting a copy of its value, kept outside the vector, at index [i]
    of the result gives back the elements, the size and the capacity. *)
Theorem Insert_after_Erase v i x :
  wf v → 0 ≤ i < GetSize v → i ≤ INT_MAX → live v !! Z.to_nat i = Some x →
  ∃ it v1 it' v2,
    Erase (position v i) v = Return it v1
    ∧ Insert (position v1 i) (outside x) v1 = Return it' v2
    ∧ it' = slot i
    ∧ live v2 = live v
    ∧ GetSize v2 = GetSize v
    ∧ GetCapacity v2 = GetCapacity v.
Proof.
  intros Hwf Hi Hint Hx. pose proof Hwf as (Hlen & Hsz & Hcap).
  destruct (Erase_result v i Hwf Hi)
    as (it & v1 & Her & Hlive1 & Hsize1 & Hcap1 & _ & _ & Hwf1).
  unfold GetSize, GetCapacity in *.
  assert (growth_granted v1) as Hgr by (intros Hfull; lia).
  destruct (Insert_within_int_range v1 i x Hwf1 Hgr)
    as (v2 & Hins & Hsize2 & Hlive2 & Hcap2 & _);
    [unfold GetSize; lia|done|].
  unfold GetSize, GetCapacity in *.
  exists it, v1, (slot i), v2. split; [done|]. split; [done|]. split; [done|].
  split; [|split; [lia|]].
  - rewrite Hlive2, Hlive1.
    assert (length (take (Z.to_nat i) (live v)) = Z.to_nat i) as Hpre.
    { rewrite length_take_le; [done|]. rewrite wf_live_length by done. lia. }
    rewrite take_app_length', drop_app_length' by done.
    rewrite <- (drop_S _ _ _ Hx). apply take_drop.
  - rewrite Hcap2. by rewrite bool_decide_false by lia.
Qed.

Lemma PopBack_undoes_PushBack_of_value v x :
  wf v → growth_granted v →
  ∃ v1 v2,
    PushBack (outside x) v = Return tt v1
    ∧ PopBack v1 = Return tt v2
    ∧ live v2 = live v
    ∧ GetSize v2 = GetSize v
    ∧ GetCapacity v2 = GetCapacity v1
    ∧ items_ v2 = items_ v1.
Proof.
  intros Hwf Hgr. pose proof Hwf as (Hlen & Hsz & Hcap).
  pose proof alloc_limit_bounds as Hlim. unfold PTRDIFF_MAX in Hlim.
  destruct (PushBack_result v x Hwf Hgr)
    as (v1 & Hpush & _ & Hsize1 & Hlive1 & _ & Hwf1).
  pose proof Hwf1 as (Hlen1 & Hsz1 & Hcap1).
  unfold GetSize, GetCapacity in *.
  eexists v1, _. split; [done|].
  rewrite PopBack_nonempty by lia.
  rewrite to_size_t_small by (unfold SIZE_MAX; lia).
  split; [done|]. cbn [size_ capacity_ items_].
  split; [|split; [lia|done]].
  unfold live at 1. cbn [items_ size_].
  replace (size_ v1 - 1) with (size_ v) by lia.
  assert (take (Z.to_nat (size_ v)) (live v1) = live v) as Ht.
  { rewrite Hlive1. apply take_app_length'. by rewrite wf_live_length. }
  rewrite <- Ht. unfold live. rewrite take_take. f_equal. lia.
Qed.

(** X9.  [PopBack] undoes [PushBack] when the growth is granted:
    [PushBack] of an object that is no element of the vector returns, and
    after a [PushBack] that returned, whatever its argument was, [PopBack]
    gives back the elements and the size before the push; the capacity
    and the buffer are the ones [PushBack] left. *)
Theorem PopBack_after_PushBack v x :
  wf v → growth_granted v →
  (∃ v1 v2,
     PushBack (outside x) v = Return tt v1
     ∧ PopBack v1 = Return tt v2
     ∧ live v2 = live v
     ∧ GetSize v2 = GetSize v
     ∧ GetCapacity v2 = GetCapacity v1
     ∧ items_ v2 = items_ v1)
  ∧ (∀ item v1,
       PushBack item v = Return tt v1 →
       ∃ v2,
         PopBack v1 = Return tt v2
         ∧ live v2 = live v
         ∧ GetSize v2 = GetSize v
         ∧ GetCapacity v2 = GetCapacity v1
         ∧ items_ v2 = items_ v1).
Proof.
  intros Hwf Hgr.
  split; [by apply PopBack_undoes_PushBack_of_value|].
  intros item v1 Hpush.
  destruct (PushBack_ref_cases item v) as [Hu|[y Hy]]; [congruence|].
  destruct (PopBack_undoes_PushBack_of_value v y Hwf Hgr)
    as (v0 & v2 & Hpush0 & Hpop & Hrest).
  rewrite Hy, Hpush0 in Hpush. injection Hpush as <-.
  by exists v2.
Qed.

(** *** Resize *)

(** X10.  On a well-formed vector that is not both empty and asked to grow
    inside its capacity, [Resize(n)] with a granted allocation returns a
    vector of size [n]: its first elements are the old ones, as many as fit,
    the others are value-initialised, and the capacity is the larger of [n]
    and the old capacity. *)
Theorem Resize_behaviour n v :
  wf v → 0 ≤ n ≤ alloc_limit →
  ¬ (GetSize v = 0 ∧ 0 < n ≤ GetCapacity v) →
  ∃ v', Resize n v = Return tt v'
    ∧ GetSize v' = n
    ∧ live v' = take (Z.to_nat n) (live v)
                ++ replicate (Z.to_nat (n - GetSize v)) value_init
    ∧ GetCapacity v' = Z.max n (GetCapacity v)
    ∧ wf v'.
Proof.
  unfold GetSize, GetCapacity.
  intros Hwf Hn Hnot. pose proof Hwf as (Hlen & Hsz & Hcap).
  destruct (decide (n < size_ v)) as [Hlt|Hge].
  { eexists. rewrite Resize_shrinks by done. split; [done|].
    cbn [size_ capacity_]. split; [done|]. split; [|split; [lia|]].
    - unfold live. cbn [items_ size_].
      replace (Z.to_nat (n - size_ v)) with 0%nat by lia.
      rewrite take_take, app_nil_r. f_equal. lia.
    - apply wf_resized; (done || lia). }
  destruct (decide (n = size_ v)) as [->|Hne].
  { exists v. rewrite Resize_same. split; [done|]. split; [done|].
    split; [|split; [lia|done]].
    rewrite Z.sub_diag, app_nil_r. symmetry. apply take_ge.
    by rewrite wf_live_length. }
  destruct (decide (n ≤ capacity_ v)) as [Hin|Hout].
  - eexists. rewrite Resize_within by (done || lia). split; [done|].
    cbn [size_ capacity_]. split; [done|]. split; [|split; [lia|]].
    + unfold live at 1. cbn [items_ size_]. rewrite app_assoc.
      rewrite take_app_length'.
      * f_equal. symmetry. apply take_ge. rewrite wf_live_length by done. lia.
      * rewrite length_app, length_replicate, wf_live_length by done. lia.
    + repeat split; cbn [items_ size_ capacity_]; try lia.
      rewrite !length_app, length_replicate, length_drop,
        wf_live_length by done. lia.
  - eexists. rewrite Resize_reallocates by (done || lia). split; [done|].
    cbn [size_ capacity_]. split; [done|]. split; [|split; [lia|]].
    + unfold live at 1. cbn [items_ size_].
      rewrite take_ge.
      * f_equal. symmetry. apply take_ge. rewrite wf_live_length by done. lia.
      * rewrite length_app, length_replicate, wf_live_length by done. lia.
    + repeat split; cbn [items_ size_ capacity_]; try lia.
      rewrite length_app, length_replicate, wf_live_length by done. lia.
Qed.

(** X11.  After [Clear()], growing again with [Resize(n)] inside the
    capacity is undefined behaviour, whatever the vector held: [begin()]
    of the now empty vector is the null pointer and [std::fill] writes
    through it.  The same holds for every empty vector with capacity. *)
Theorem Resize_after_Clear_is_undefined v n :
  0 < n ≤ GetCapacity v →
  (Clear ;; Resize n) v = Undefined
  ∧ (GetSize v = 0 → Resize n v = Undefined).
Proof.
  unfold GetSize, GetCapacity. intros Hn. split.
  - unfold bind, Clear, set_size.
    by apply Resize_empty_within_capacity.
  - intros Hz. by apply Resize_empty_within_capacity.
Qed.

(** *** Sequences of PushBack *)

Lemma PushBack_keeps_doubling v x v' :
  wf v → doubling_capacity v → growth_granted v →
  PushBack (outside x) v = Return tt v' → doubling_capacity v'.
Proof.
  intros Hwf Hdbl Hgr Hpush. pose proof Hwf as (Hlen & Hsz & Hcap).
  destruct (PushBack_result v x Hwf Hgr)
    as (v1 & Hp & _ & Hsize & _ & Hcapacity & _).
  rewrite Hp in Hpush. injection Hpush as <-.
  unfold GetSize, GetCapacity, doubling_capacity in *. right.
  destruct Hdbl as [[Hz Hc]|(k & Hk & Hpow & Hle & Hlt)].
  - exists 0. rewrite Hcapacity, Hz, Hc.
    rewrite !bool_decide_true by done. rewrite Hsize, Hz. simpl. lia.
  - case_bool_decide as Hfull.
    + exists (k + 1). rewrite Hcapacity.
      rewrite bool_decide_false by lia.
      rewrite Z.pow_add_r, Hpow by lia. lia.
    + exists k. rewrite Hcapacity. lia.
Qed.

Lemma push_all_result (l : list T) : ∀ v,
  wf v → doubling_capacity v →
  (l ≠ [] → 2 * (size_ v + Z.of_nat (length l)) ≤ alloc_limit) →
  ∃ v', push_all l v = Return tt v'
    ∧ live v' = live v ++ l
    ∧ size_ v' = size_ v + Z.of_nat (length l)
    ∧ wf v' ∧ doubling_capacity v'.
Proof.
  induction l as [|x l IH]; intros v Hwf Hdbl Hlim.
  - exists v. simpl. rewrite app_nil_r.
    split; [done|]. split; [done|]. split; [lia|]. by try split.
  - pose proof Hwf as (Hlen & Hsz & Hcap).
    assert (growth_granted v) as Hgr.
    { intros Hfull. specialize (Hlim ltac:(done)). simpl in Hlim.
      case_bool_decide; lia. }
    destruct (PushBack_result v x Hwf Hgr)
      as (v1 & Hp & _ & Hsize & Hlive & _ & Hwf1).
    unfold GetSize in Hsize.
    destruct (IH v1 Hwf1) as (v' & Hrest & Hlive' & Hsize' & Hwf' & Hdbl').
    + exact (PushBack_keeps_doubling v x v1 Hwf Hdbl Hgr Hp).
    + intros Hne. specialize (Hlim ltac:(done)). simpl in Hlim. lia.
    + exists v'. cbn [push_all]. unfold bind. rewrite Hp.
      split; [done|]. split; [by rewrite Hlive', Hlive, <- app_assoc|].
      split; [simpl; lia|done].
Qed.

(** X12.  Appending the elements of a list one by one to a
    default-constructed vector, with every growth granted, yields exactly
    those elements in order.  The capacity it ends with is 0 for no element
    and otherwise a power of two that is at least the size and less than
    twice the size. *)
Theorem PushBack_sequence (l : list T) :
  2 * Z.of_nat (length l) ≤ alloc_limit →
  ∃ v0 v', SimpleVector_default = Return v0 tt
    ∧ push_all l v0 = Return tt v'
    ∧ live v' = l
    ∧ GetSize v' = Z.of_nat (length l)
    ∧ (l = [] → GetCapacity v' = 0)
    ∧ (l ≠ [] →
       ∃ k, 0 ≤ k ∧ GetCapacity v' = 2 ^ k
            ∧ GetSize v' ≤ GetCapacity v' < 2 * GetSize v').
Proof.
  intros Hlim. unfold GetSize, GetCapacity.
  destruct (push_all_result l (mk [] 0 0) wf_empty)
    as (v' & Hpush & Hlive & Hsize & Hwf' & Hdbl).
  - by left.
  - intros _. simpl. lia.
  - exists (mk [] 0 0), v'. split; [done|]. split; [done|].
    split; [done|]. split; [simpl in Hsize; lia|]. simpl in Hsize. split.
    + intros ->. simpl in Hpush. by injection Hpush as <-.
    + intros Hne. destruct Hdbl as [[Hz _]|Hk]; [|done].
      destruct l; [done|]. simpl in Hsize. lia.
Qed.

Lemma push_all_within_capacity (l : list T) : ∀ v,
  wf v → size_ v + Z.of_nat (length l) ≤ capacity_ v →
  ∃ v', push_all l v = Return tt v'
    ∧ live v' = live v ++ l
    ∧ size_ v' = size_ v + Z.of_nat (length l)
    ∧ capacity_ v' = capacity_ v
    ∧ wf v'.
Proof.
  induction l as [|x l IH]; intros v Hwf Hroom.
  - exists v. simpl. rewrite app_nil_r.
    split; [done|]. split; [done|]. split; [lia|]. by split.
  - pose proof Hwf as (Hlen & Hsz & Hcap). simpl in Hroom.
    assert (growth_granted v) as Hgr by (intros Hfull; lia).
    destruct (PushBack_result v x Hwf Hgr)
      as (v1 & Hp & _ & Hsize & Hlive & Hcapacity & Hwf1).
    unfold GetSize, GetCapacity in *.
    rewrite bool_decide_false in Hcapacity by lia.
    destruct (IH v1 Hwf1) as (v' & Hrest & Hlive' & Hsize' & Hcap' & Hwf');
      [lia|].
    exists v'. cbn [push_all]. unfold bind. rewrite Hp.
    split; [done|]. split; [by rewrite Hlive', Hlive, <- app_assoc|].
    split; [simpl; lia|]. split; [lia|done].
Qed.

(** *** Constructors *)

Lemma SimpleVector_reserve_eq n :
  0 ≤ n ≤ alloc_limit →
  SimpleVector_reserve {| capacity_to_reserve := n |}
  = Return (mk (replicate (Z.to_nat n) value_init) 0 n) tt.
Proof.
  intros Hn. unfold SimpleVector_reserve, construct, SimpleVector_default,
    ArrayPtr.empty. cbn [capacity_to_reserve].
  destruct (decide (n = 0)) as [->|Hnz].
  - by rewrite Reserve_noop.
  - rewrite Reserve_grows by (apply wf_empty || (simpl; lia)).
    unfold live. cbn [items_ size_ capacity_]. by rewrite Z.sub_0_r.
Qed.

(** X13.  A vector constructed from a reservation request for [n] slots is
    empty with capacity [n], and the first [n] elements appended to it go
    into that buffer: no [PushBack] among them changes the capacity. *)
Theorem reserved_then_pushed n (l : list T) :
  0 ≤ n ≤ alloc_limit → Z.of_nat (length l) ≤ n →
  ∃ v0 v', SimpleVector_reserve {| capacity_to_reserve := n |} = Return v0 tt
    ∧ GetSize v0 = 0 ∧ GetCapacity v0 = n ∧ live v0 = []
    ∧ push_all l v0 = Return tt v'
    ∧ live v' = l
    ∧ GetSize v' = Z.of_nat (length l)
    ∧ GetCapacity v' = n.
Proof.
  intros Hn Hl. unfold GetSize, GetCapacity.
  eexists. rewrite SimpleVector_reserve_eq by done.
  assert (wf (mk (replicate (Z.to_nat n) value_init) 0 n)) as Hwf0.
  { repeat split; cbn [items_ size_ capacity_]; try lia.
    rewrite length_replicate. lia. }
  destruct (push_all_within_capacity l _ Hwf0)
    as (v' & Hpush & Hlive & Hsize & Hcap & _); [simpl; lia|].
  exists v'. cbn [size_ capacity_] in *.
  split; [done|]. split; [done|]. split; [done|]. split; [done|].
  split; [done|]. split; [by rewrite Hlive|]. split; [lia|done].
Qed.

(** X14.  The fill constructor [SimpleVector(n, x)] with a granted
    allocation builds [n] copies of [x], with capacity [n]; beyond what the
    free store grants it throws [std::bad_alloc]. *)
Theorem fill_constructor n x :
  0 ≤ n →
  (n ≤ alloc_limit →
   ∃ v, SimpleVector_size_value n x = Return v tt
     ∧ live v = replicate (Z.to_nat n) x
     ∧ GetSize v = n ∧ GetCapacity v = n ∧ wf v)
  ∧ (alloc_limit < n → SimpleVector_size_value n x = Throw bad_alloc tt).
Proof.
  intros Hn0. pose proof alloc_limit_bounds as Hlim. split.
  - intros Hn. unfold SimpleVector_size_value, SimpleVector_size, construct.
    destruct (decide (n = 0)) as [->|Hnz].
    + unfold ArrayPtr.sized. rewrite bool_decide_true by done.
      unfold bind, get, id, std_fill. cbn [items_].
      rewrite begin_empty, end_empty by done.
      rewrite range_length_same. cbn [mbind option_bind fill_loop].
      unfold defined, set_items. cbn [size_ capacity_].
      eexists. split; [done|]. repeat split; simpl; lia.
    + rewrite sized_granted by lia.
      assert (wf (mk (replicate (Z.to_nat n) value_init) n n)) as Hwf0.
      { repeat split; cbn [items_ size_ capacity_]; try lia.
        rewrite length_replicate. lia. }
      unfold bind, get, id, std_fill. cbn [items_].
      rewrite begin_nonempty, end_nonempty by (done || (simpl; lia)).
      cbn [size_]. rewrite range_length_slots by lia.
      cbn [mbind option_bind].
      pose proof (fill_loop_slots (replicate (Z.to_nat n) value_init) [] [] x 0
                    eq_refl) as Hfill.
      rewrite length_replicate, app_nil_r in Hfill. cbn [app] in Hfill.
      rewrite Z.sub_0_r, Hfill.
      unfold defined, set_items. cbn [size_ capacity_].
      eexists. split; [done|]. unfold GetSize, GetCapacity, live.
      cbn [items_ size_ capacity_]. rewrite app_nil_r.
      split; [by rewrite take_ge by (by rewrite length_replicate)|].
      split; [done|]. split; [done|].
      repeat split; cbn [items_ size_ capacity_]; try lia.
      rewrite length_replicate. lia.
  - intros Hn. unfold SimpleVector_size_value, SimpleVector_size, construct.
    by rewrite sized_refused.
Qed.

(** X15.  The initializer-list constructor with a granted allocation builds
    a vector whose elements are those of the list, in order, with size and
    capacity equal to the list's length. *)
Theorem init_list_constructor (init : list T) :
  Z.of_nat (length init) ≤ alloc_limit →
  ∃ v, SimpleVector_init_list init = Return v tt
    ∧ live v = init
    ∧ GetSize v = Z.of_nat (length init)
    ∧ GetCapacity v = Z.of_nat (length init)
    ∧ wf v.
Proof.
  intros Hn. unfold SimpleVector_init_list, SimpleVector_size, construct.
  set (n := Z.of_nat (length init)) in *.
  destruct (decide (n = 0)) as [Hz|Hnz].
  - rewrite Hz. unfold ArrayPtr.sized. rewrite bool_decide_true by done.
    unfold bind, get, id, std_copy. cbn [items_].
    rewrite range_length_same. cbn [mbind option_bind copy_loop].
    unfold defined, set_items. cbn [size_ capacity_].
    eexists. split; [done|]. unfold GetSize, GetCapacity, live.
    cbn [items_ size_ capacity_].
    destruct init; [|simpl in n; lia].
    repeat split; simpl; lia.
  - rewrite sized_granted by lia.
    assert (wf (mk (replicate (Z.to_nat n) value_init) n n)) as Hwf0.
    { repeat split; cbn [items_ size_ capacity_]; try lia.
      rewrite length_replicate. lia. }
    unfold bind, get, id, std_copy. cbn [items_].
    rewrite begin_nonempty by (done || (simpl; lia)).
    rewrite range_length_slots by lia. cbn [mbind option_bind].
    rewrite copy_loop_prefix by (rewrite ?length_replicate; lia).
    unfold defined, set_items. cbn [size_ capacity_].
    eexists. split; [done|]. unfold GetSize, GetCapacity, live.
    cbn [items_ size_ capacity_].
    rewrite drop_replicate.
    replace (Z.to_nat (n - 0)) with (length init) by lia.
    replace (Z.to_nat n) with (length init) by lia.
    rewrite Nat.sub_diag, firstn_all. simpl. rewrite app_nil_r.
    split; [by rewrite firstn_all|]. split; [done|]. split; [done|].
    repeat split; cbn [items_ size_ capacity_]; lia.
Qed.

(** *** Assignment, move and swap *)

Lemma copy_capacity_is_source_size_parts rhs :
  wf rhs →
  SimpleVector_copy rhs = Return (mk (live rhs) (size_ rhs) (size_ rhs)) tt
  ∧ live (mk (live rhs) (size_ rhs) (size_ rhs)) = live rhs
  ∧ wf (mk (live rhs) (size_ rhs) (size_ rhs)).
Proof.
  intros Hwf. pose proof Hwf as (Hlen & Hsz & Hcap).
  split; [by apply SimpleVector_copy_eq|]. split; [|by apply SimpleVector_copy_wf].
  unfold live at 1. cbn [items_ size_]. unfold live.
  rewrite take_take. f_equal. lia.
Qed.

(** X16.  Copy assignment from another well-formed vector leaves the
    receiver with the source's elements and size and with the source's
    size as capacity, whatever the receiver held and however large its
    buffer was: it is the copy constructor's result.  Assigning a vector
    to itself changes nothing. *)
Theorem copy_assignment v rhs :
  wf rhs →
  (∃ v', assign_copy (Some rhs) v = Return tt v'
     ∧ SimpleVector_copy rhs = Return v' tt
     ∧ live v' = live rhs
     ∧ GetSize v' = GetSize rhs
     ∧ GetCapacity v' = GetSize rhs
     ∧ wf v')
  ∧ assign_copy None v = Return tt v.
Proof.
  intros Hwfr. split; [|done].
  destruct (copy_capacity_is_source_size_parts rhs Hwfr)
    as (Hc & Hlive & Hwf').
  eexists. unfold assign_copy, bind, local. rewrite Hc.
  unfold swap, ArrayPtr.swap, ret. cbn [items_ size_ capacity_].
  split; [done|]. split; [done|]. split; [done|].
  split; [done|]. by split.
Qed.

(** X17.  Moving from a vector, by the move constructor or by move
    assignment, hands its buffer, size and capacity over unchanged and
    leaves it empty with capacity 0 and no buffer.  The moved-from vector
    is usable: a [PushBack] on it allocates one slot.  Move-assigning a
    vector to itself changes nothing. *)
Theorem moved_from_vector v other x :
  wf other → 1 ≤ alloc_limit →
  SimpleVector_move other = (other, mk [] 0 0)
  ∧ assign_move (Some other) v = Return (Some (mk [] 0 0)) other
  ∧ assign_move None v = Return None v
  ∧ PushBack (outside x) (mk [] 0 0) = Return tt (mk [x] 1 1).
Proof.
  intros Hwf Hlim. destruct other as [b n c].
  split; [done|]. split; [done|]. split; [done|].
  destruct (PushBack_result (mk [] 0 0) x wf_empty)
    as (v' & Hp & Hread & Hsize & Hlive & Hcap & Hwf').
  { intros _. simpl. lia. }
  rewrite Hp. f_equal. destruct v' as [b' n' c'].
  unfold GetSize, GetCapacity, live in *. cbn [items_ size_ capacity_] in *.
  destruct Hwf' as (Hlen' & _ & _). cbn [items_ capacity_] in Hlen'.
  simpl in Hcap, Hsize, Hlive. subst n' c'.
  change (Z.to_nat (0 + 1)) with 1%nat in Hlive.
  destruct b' as [|y [|z b']]; simpl in Hlen', Hlive; try lia.
  by injection Hlive as ->.
Qed.

(** [swap] exchanges the buffers, sizes and capacities of two vectors and
    swapping again restores both. *)
Lemma swap_exchanges v other :
  swap other v = Return v other
  ∧ (swap other ;; swap v) v = Return other v.
Proof.
  unfold bind, swap, ArrayPtr.swap. by destruct v, other.
Qed.

(** *** Iterators *)

(** X18.  On a well-formed vector [begin()] and [end()], and likewise
    [cbegin()] and [cend()], are [Size()] elements apart; they coincide
    exactly when the vector is empty; and dereferencing [begin() + i] for
    [0 <= i < Size()] reads the live element at index [i]. *)
Theorem iterators_span_live_range v :
  wf v →
  distance (begin v) (end_ v) = Some (GetSize v)
  ∧ distance (cbegin v) (cend v) = Some (GetSize v)
  ∧ (begin v = end_ v ↔ GetSize v = 0)
  ∧ (∀ i, 0 ≤ i < GetSize v →
       ∃ x, load (items_ v) (position v i) = Some x
         ∧ live v !! Z.to_nat i = Some x).
Proof.
  unfold GetSize. intros Hwf. pose proof Hwf as (Hlen & Hsz & Hcap).
  split; [by apply distance_begin_end|]. split; [|split].
  - unfold cbegin, cend, GetSize.
    destruct (items_ v); simpl; f_equal; lia.
  - split.
    + intros Heq. destruct (decide (size_ v = 0)) as [|Hnz]; [done|].
      rewrite begin_nonempty, end_nonempty in Heq by (done || lia).
      injection Heq as Heq. lia.
    + intros Hz. by rewrite begin_empty, end_empty.
  - intros i Hi.
    destruct (lookup_lt_is_Some_2 (items_ v) (Z.to_nat i)) as [x Hx]; [lia|].
    exists x. unfold position. rewrite begin_nonempty by (done || lia).
    cbn [advance load]. rewrite Z.add_0_l, read_at by lia.
    split; [done|]. unfold live. by rewrite lookup_take_lt by lia.
Qed.

(** X19.  [begin()] and [cbegin()] agree except on an empty vector that
    owns a buffer, where [begin()] is the null pointer and [cbegin()] the
    buffer's address.  On such a vector [Insert(cbegin(), x)] is undefined
    behaviour whatever the argument, while [Insert(begin(), x)] with an
    object that is no slot of the buffer inserts at index 0. *)
Theorem begin_and_cbegin v x :
  wf v →
  (begin v = cbegin v ↔ ¬ (GetSize v = 0 ∧ 0 < GetCapacity v))
  ∧ (GetSize v = 0 → 0 < GetCapacity v →
     (∀ value, Insert (cbegin v) value v = Undefined)
     ∧ ∃ v', Insert (begin v) (outside x) v = Return (slot 0) v' ∧ live v' = [x]).
Proof.
  unfold GetSize, GetCapacity.
  intros Hwf. pose proof Hwf as (Hlen & Hsz & Hcap). split.
  - destruct (decide (size_ v = 0)) as [Hz|Hnz].
    + rewrite begin_empty by done. unfold cbegin, nullptr.
      destruct (items_ v) eqn:Hb; simpl in *.
      * split; [lia|done].
      * split; [done|]. intros Hnot. exfalso. apply Hnot. lia.
    + rewrite begin_nonempty by (done || lia). unfold cbegin.
      rewrite address_allocated by (apply wf_items_nonempty; (done || lia)).
      split; [lia|done].
  - intros Hz Hpos. split.
    + intros value.
      unfold Insert, bind, get, defined, id. rewrite begin_empty by done.
      unfold cbegin.
      rewrite address_allocated; [done|].
      intros Hnil. rewrite Hnil in Hlen. simpl in Hlen. lia.
    + assert (growth_granted v) as Hgr by (intros Hfull; lia).
      destruct (Insert_within_int_range v 0 x Hwf Hgr)
        as (v' & Hins & _ & Hlive & _); [unfold GetSize; lia|done|].
      exists v'. unfold position in Hins.
      assert (advance (begin v) 0 = begin v) as Hb
        by (by rewrite begin_empty by done).
      rewrite Hb in Hins. split; [done|].
      rewrite Hlive. unfold live. rewrite Hz. by rewrite take_0.
Qed.

(** X20.  The const overloads of [At] and of [operator[]] never return:
    each forwards to itself, so no depth of recursion produces a value, an
    exception included, not even for an index out of range. *)
Theorem const_accessors_never_return fuel i v :
  At_const fuel i v = NoFuel
  ∧ operator_index_const fuel i v = NoFuel
  ∧ (GetSize v ≤ i → At i v = Throw out_of_range v).
Proof.
  split; [|split].
  - induction fuel as [|fuel IH]; [done|exact IH].
  - induction fuel as [|fuel IH]; [done|exact IH].
  - apply At_out_of_range.
Qed.

(** *** Invariants *)

(** X21.  In every reachable state the buffer has exactly [Capacity()]
    slots, so capacity 0 means that no buffer is owned, and the capacity is
    within what the free store grants. *)
Theorem buffer_matches_capacity v :
  reachable v →
  Z.of_nat (length (items_ v)) = GetCapacity v
  ∧ (GetCapacity v = 0 ↔ items_ v = [])
  ∧ GetCapacity v ≤ alloc_limit.
Proof.
  intros Hr. destruct (reachable_wf v Hr) as (Hlen & Hsz & Hcap).
  unfold GetCapacity. split; [done|]. split; [|done]. split.
  - intros Hz. destruct (items_ v); [done|]. simpl in Hlen. lia.
  - intros Hnil. rewrite Hnil in Hlen. simpl in Hlen. lia.
Qed.

Lemma DoubleIfFull_capacity v v1 :
  wf v → DoubleIfFull v = Return tt v1 → capacity_ v ≤ capacity_ v1.
Proof.
  intros Hwf Hd.
  destruct (decide (size_ v = capacity_ v)) as [Hfull|Hspare].
  - rewrite DoubleIfFull_full in Hd by done.
    destruct (Reserve_cases
                (if bool_decide (capacity_ v ≠ 0)
                 then to_size_t (capacity_ v * 2) else 1) v Hwf)
      as [(v' & Hr & _ & Hle)|Hr]; rewrite Hr in Hd; [|done].
    by injection Hd as <-.
  - rewrite DoubleIfFull_spare in Hd by done. injection Hd as <-. lia.
Qed.

Lemma Insert_rvalue_capacity v pos value v' :
  wf v → leaves (Insert_rvalue pos value v) v' → capacity_ v ≤ capacity_ v'.
Proof.
  intros Hwf. pose proof Hwf as (Hlen & Hsz & Hcap).
  unfold Insert_rvalue. unfold bind at 1, get at 1, id.
  unfold bind at 1, get at 1. unfold bind at 1, defined at 1.
  destruct (distance (begin v) pos) as [d|]; [|by intros ?%leaves_Undefined].
  unfold bind at 1.
  destruct (DoubleIfFull v) as [[] v1|e v1| |] eqn:Hd.
  - apply DoubleIfFull_capacity in Hd; [|done].
    unfold bind at 1, get at 1, id. unfold bind at 1, defined at 1.
    destruct (std_move_backward _ _ _ _) as [buf|];
      [|by intros ?%leaves_Undefined].
    unfold bind at 1, set_items at 1.
    unfold bind at 1, read_ref at 1. unfold bind at 1, get at 1, id.
    destruct (deref v _ value) as [x|]; [|by intros ?%leaves_Undefined].
    unfold defined at 1.
    unfold bind at 1, operator_index_assign at 1. unfold bind at 1, get at 1, id.
    unfold bind at 1, defined at 1. cbn [items_].
    destruct (ArrayPtr.write buf _ x) as [b'|];
      [|by intros ?%leaves_Undefined].
    unfold set_items at 1. cbn [items_ size_ capacity_].
    unfold bind at 1.
    destruct (leave_moved_from value x _) as [z v2|e v2| |] eqn:Hm.
    + apply leave_moved_from_frame in Hm as (_ & _ & Hc2).
      cbn [capacity_] in Hc2.
      unfold bind, get, set_items, set_size, ret.
      intros ->%leaves_Return. cbn [capacity_]. lia.
    + by apply leave_moved_from_no_throw in Hm.
    + by intros ?%leaves_Undefined.
    + by intros ?%leaves_NoFuel.
  - apply DoubleIfFull_throws in Hd as (_ & -> & _); [|done].
    intros ->%leaves_Throw. lia.
  - by intros ?%leaves_Undefined.
  - by intros ?%leaves_NoFuel.
Qed.

(** X22.  No member call on a vector makes its capacity smaller: after
    [PushBack], [PopBack], [Insert], [Erase], [Clear], [Resize], [Reserve],
    [At] or an element assignment, whether the call returned or threw and
    whatever its argument refers to, the capacity is at least what it
    was. *)
Theorem capacity_never_decreases v v' :
  wf v →
  ((∃ item, leaves (PushBack item v) v')
   ∨ (∃ item, leaves (PushBack_rvalue item v) v')
   ∨ leaves (PopBack v) v'
   ∨ (∃ pos value, leaves (Insert pos value v) v')
   ∨ (∃ pos value, leaves (Insert_rvalue pos value v) v')
   ∨ (∃ pos, leaves (Erase pos v) v')
   ∨ leaves (Clear v) v'
   ∨ (∃ n, leaves (Resize n v) v')
   ∨ (∃ n, leaves (Reserve n v) v')
   ∨ (∃ i, leaves (At i v) v')
   ∨ (∃ i x, leaves (operator_index_assign i x v) v')) →
  GetCapacity v ≤ GetCapacity v'.
Proof.
  unfold GetCapacity. intros Hwf. pose proof Hwf as (Hlen & Hsz & Hcap).
  assert (∀ v2 x, leaves (PushBack (outside x) v) v2 →
            capacity_ v ≤ capacity_ v2) as HPush.
  { intros v2 x. rewrite PushBack_outside. unfold bind at 1.
    destruct (DoubleIfFull v) as [[] v1|e v1| |] eqn:Hd.
    - apply DoubleIfFull_capacity in Hd; [|done].
      unfold post_increment_size, operator_index_assign, bind, get, id,
        defined, set_size, set_items, ret. cbn [items_ size_ capacity_].
      destruct (ArrayPtr.write _ _ x).
      + intros ->%leaves_Return. by cbn [capacity_].
      + by intros ?%leaves_Undefined.
    - apply DoubleIfFull_throws in Hd as (_ & -> & _); [|done].
      intros ->%leaves_Throw. lia.
    - by intros ?%leaves_Undefined.
    - by intros ?%leaves_NoFuel. }
  assert (∀ n, leaves (Reserve n v) v' → capacity_ v ≤ capacity_ v')
    as HReserve.
  { intros n Hl.
    destruct (Reserve_cases n v Hwf) as [(v1 & Hr & _ & Hle)|Hr];
      rewrite Hr in Hl.
    - by apply leaves_Return in Hl as ->.
    - apply leaves_Throw in Hl as ->. lia. }
  intros [[item Hl]|[[item Hl]|[Hl|[(pos & value & Hl)|[(pos & value & Hl)|
           [[pos Hl]|[Hl|[[n Hl]|[[n Hl]|[[i Hl]|(i & x & Hl)]]]]]]]]]].
  - destruct (PushBack_ref_cases item v) as [Hu|[y Hy]].
    { rewrite Hu in Hl. by apply leaves_Undefined in Hl. }
    rewrite Hy in Hl. by apply (HPush v' y).
  - destruct (PushBack_rvalue_cases item v) as [Hu|[y Hy]].
    { rewrite Hu in Hl. by apply leaves_Undefined in Hl. }
    rewrite Hy in Hl. unfold bind in Hl.
    destruct (PushBack (outside y) v) as [[] v1|e v1| |] eqn:Hp.
    + assert (capacity_ v ≤ capacity_ v1) as Hle
        by (apply (HPush v1 y); rewrite Hp; left; by eexists).
      destruct (leave_moved_from item y v1) as [z v2|e v2| |] eqn:Hm.
      * apply leaves_Return in Hl as ->.
        apply leave_moved_from_frame in Hm as (_ & _ & Hc2). lia.
      * by apply leave_moved_from_no_throw in Hm.
      * by apply leaves_Undefined in Hl.
      * by apply leaves_NoFuel in Hl.
    + apply (HPush v' y). rewrite Hp. right. exists e.
      by apply leaves_Throw in Hl as ->.
    + by apply leaves_Undefined in Hl.
    + by apply leaves_NoFuel in Hl.
  - destruct (decide (size_ v = 0)) as [Hz|Hnz].
    + rewrite PopBack_empty in Hl by done. apply leaves_Return in Hl as ->. lia.
    + rewrite PopBack_nonempty in Hl by done.
      apply leaves_Return in Hl as ->. by cbn [capacity_].
  - destruct (Insert_ref_cases pos value v) as [Hu|[y Hy]].
    { rewrite Hu in Hl. by apply leaves_Undefined in Hl. }
    rewrite Hy in Hl.
    apply (Insert_rvalue_capacity v pos (outside y)); [done|].
    rewrite Insert_rvalue_eq.
    destruct (Insert pos (outside y) v) as [it v2|e v2| |]; simpl.
    + apply leaves_Return in Hl as ->. left. by eexists.
    + apply leaves_Throw in Hl as ->. right. by eexists.
    + by apply leaves_Undefined in Hl.
    + by apply leaves_NoFuel in Hl.
  - by apply (Insert_rvalue_capacity v pos value).
  - revert Hl. unfold Erase, bind, get, defined.
    destruct (distance (begin v) pos) as [d|]; [|by intros ?%leaves_Undefined].
    unfold id. destruct (std_copy_move_iterator _ _ _ _) as [buf|];
      [|by intros ?%leaves_Undefined].
    unfold set_items, set_size, ret, GetSize. cbn [items_ size_ capacity_].
    case_bool_decide; intros ->%leaves_Return; by cbn [capacity_].
  - apply leaves_Return in Hl as ->. by cbn [capacity_].
  - revert Hl.
    destruct (decide (n < size_ v)) as [Hlt|Hge].
    { rewrite Resize_shrinks by done. intros ->%leaves_Return.
      by cbn [capacity_]. }
    destruct (decide (n = size_ v)) as [->|Hne].
    { rewrite Resize_same. intros ->%leaves_Return. lia. }
    unfold Resize, Resize_body, bind, get, GetSize, GetCapacity, id, defined.
    rewrite bool_decide_false, bool_decide_true by lia.
    case_bool_decide as Hout.
    + fold (Reserve n v).
      destruct (Reserve_cases n v Hwf) as [(v1 & -> & _ & Hle)| ->].
      * unfold set_size. intros ->%leaves_Return. by cbn [capacity_].
      * intros ->%leaves_Throw. lia.
    + destruct (std_fill _ _ _ _) as [b|]; [|by intros ?%leaves_Undefined].
      unfold set_items, set_size. cbn [items_ size_ capacity_].
      intros ->%leaves_Return. by cbn [capacity_].
  - by apply (HReserve n).
  - revert Hl. unfold At, operator_index, bind, get, throw, id, defined.
    case_bool_decide.
    + intros ->%leaves_Throw. lia.
    + destruct (ArrayPtr.read (items_ v) i).
      * intros ->%leaves_Return. lia.
      * by intros ?%leaves_Undefined.
  - revert Hl. unfold operator_index_assign, bind, get, id, defined.
    destruct (ArrayPtr.write (items_ v) i x) as [b|].
    + intros ->%leaves_Return. by cbn [capacity_].
    + by intros ?%leaves_Undefined.
Qed.
End MoreFacts.

(** ** The comparison operators *)

Section ComparisonFacts.
Context {T : Type} `{!Comparable T} `{!Heap}.
Implicit Types (lhs rhs v : t T) (b : list T) (l : list T).

Lemma take_S_drop b (i k : nat) x :
  b !! i = Some x → take (S k) (drop i b) = x :: take k (drop (S i) b).
Proof. intros Hx. by rewrite (drop_S _ _ _ Hx). Qed.

Lemma equal_loop_slots (k : nat) : ∀ b1 b2 (i j : nat),
  (i + k ≤ length b1)%nat → (j + k ≤ length b2)%nat →
  equal_loop k b1 (slot (Z.of_nat i)) b2 (slot (Z.of_nat j))
  = Some (pairwise_eq (take k (drop i b1)) (take k (drop j b2))).
Proof.
  induction k as [|k IH]; intros b1 b2 i j Hi Hj; [done|].
  destruct (lookup_lt_is_Some_2 b1 i) as [x Hx]; [lia|].
  destruct (lookup_lt_is_Some_2 b2 j) as [y Hy]; [lia|].
  rewrite (take_S_drop _ _ _ _ Hx), (take_S_drop _ _ _ _ Hy).
  cbn [equal_loop load advance pairwise_eq].
  rewrite !read_at, !Nat2Z.id, Hx, Hy by lia. cbn [mbind option_bind].
  replace (Z.of_nat i + 1) with (Z.of_nat (S i)) by lia.
  replace (Z.of_nat j + 1) with (Z.of_nat (S j)) by lia.
  rewrite IH by lia. by destruct (elem_eq x y).
Qed.

Lemma lexicographic_lt_nil_l l :
  lexicographic_lt [] l = negb (Nat.eqb (length l) 0).
Proof. by destruct l. Qed.

Lemma lexicographic_lt_nil_r l : lexicographic_lt l [] = false.
Proof. by destruct l. Qed.

Lemma lexicographical_compare_loop_slots (n1 : nat) : ∀ (n2 : nat) b1 b2 (i j : nat),
  (i + n1 ≤ length b1)%nat → (j + n2 ≤ length b2)%nat →
  lexicographical_compare_loop n1 n2 b1 (slot (Z.of_nat i)) b2 (slot (Z.of_nat j))
  = Some (lexicographic_lt (take n1 (drop i b1)) (take n2 (drop j b2))).
Proof.
  induction n1 as [|n1 IH]; intros n2 b1 b2 i j Hi Hj.
  - cbn [lexicographical_compare_loop take].
    rewrite lexicographic_lt_nil_l, length_take_le
      by (rewrite length_drop; lia).
    by destruct n2.
  - destruct (lookup_lt_is_Some_2 b1 i) as [x Hx]; [lia|].
    rewrite (take_S_drop _ _ _ _ Hx).
    destruct n2 as [|n2]; [done|].
    destruct (lookup_lt_is_Some_2 b2 j) as [y Hy]; [lia|].
    rewrite (take_S_drop _ _ _ _ Hy).
    cbn [lexicographical_compare_loop load advance lexicographic_lt].
    rewrite !read_at, !Nat2Z.id, Hx, Hy by lia. cbn [mbind option_bind].
    replace (Z.of_nat i + 1) with (Z.of_nat (S i)) by lia.
    replace (Z.of_nat j + 1) with (Z.of_nat (S j)) by lia.
    rewrite IH by lia.
    by destruct (elem_lt x y), (elem_lt y x).
Qed.

Lemma lexicographical_compare_loop_empty_l (n2 : nat) b1 p b2 q :
  lexicographical_compare_loop 0 n2 b1 p b2 q = Some (negb (Nat.eqb n2 0)).
Proof. done. Qed.

Lemma lexicographical_compare_loop_empty_r (n1 : nat) b1 p b2 q :
  lexicographical_compare_loop n1 0 b1 p b2 q = Some false.
Proof. destruct n1; simpl; [done|]. done. Qed.

Lemma cbegin_cend_range v :
  wf v → range_length (cbegin v) (cend v) = Some (Z.to_nat (size_ v)).
Proof.
  intros (Hlen & Hsz & Hcap). unfold cbegin, cend, GetSize, range_length.
  destruct (items_ v); cbn [ArrayPtr.address distance mbind option_bind];
    rewrite bool_decide_true by lia; f_equal; lia.
Qed.

Lemma cbegin_nonempty v : wf v → 0 < size_ v → cbegin v = slot 0.
Proof.
  intros Hwf Hpos. unfold cbegin.
  by apply address_allocated, wf_items_nonempty.
Qed.

Lemma live_length v : wf v → length (live v) = Z.to_nat (size_ v).
Proof. intros (Hlen & Hsz & _). unfold live. rewrite length_take_le; lia. Qed.

Lemma live_nil v : wf v → size_ v = 0 → live v = [].
Proof. intros Hwf Hz. unfold live. by rewrite Hz. Qed.

Lemma pairwise_eq_true l1 : ∀ l2,
  eq_is_equality → (pairwise_eq l1 l2 = true ↔ l1 = l2).
Proof.
  induction l1 as [|x l1 IH]; intros [|y l2] Heq; try done.
  cbn [pairwise_eq]. rewrite andb_true_iff, (Heq x y), (IH l2 Heq).
  split; [by intros [-> ->]|by intros [= -> ->]].
Qed.

Lemma operator_eq_value lhs rhs :
  wf lhs → wf rhs →
  operator_eq lhs (Some rhs)
  = Some (bool_decide (GetSize lhs = GetSize rhs)
          && pairwise_eq (live lhs) (live rhs)).
Proof.
  unfold GetSize. intros Hwfl Hwfr.
  pose proof Hwfl as (Hlenl & Hszl & _). pose proof Hwfr as (Hlenr & Hszr & _).
  unfold operator_eq, GetSize. case_bool_decide as Hsize; [|done].
  unfold std_equal. rewrite cbegin_cend_range by done.
  cbn [mbind option_bind andb].
  destruct (decide (size_ lhs = 0)) as [Hz|Hnz].
  - rewrite Hz. cbn [Z.to_nat equal_loop].
    by rewrite !live_nil by (done || lia).
  - rewrite !cbegin_nonempty by (done || lia).
    pose proof (equal_loop_slots (Z.to_nat (size_ lhs)) (items_ lhs)
                  (items_ rhs) 0 0) as Hloop.
    rewrite !drop_0 in Hloop. change (Z.of_nat 0) with 0 in Hloop.
    rewrite Hloop by lia.
    unfold live. by rewrite Hsize.
Qed.

(** X23.  For two well-formed vectors [==] is true exactly when they have
    the same size and their live elements compare equal pairwise; it reads
    nothing else, so capacity and the slots behind the live range do not
    count, and it never has undefined behaviour.  [!=] is its negation.
    When [==] on elements is equality, two vectors are equal exactly when
    their element sequences are. *)
Theorem operator_eq_compares_live_elements lhs rhs :
  wf lhs → wf rhs →
  operator_eq lhs (Some rhs)
  = Some (bool_decide (GetSize lhs = GetSize rhs)
          && pairwise_eq (live lhs) (live rhs))
  ∧ operator_ne lhs (Some rhs)
    = Some (negb (bool_decide (GetSize lhs = GetSize rhs)
                  && pairwise_eq (live lhs) (live rhs)))
  ∧ (eq_is_equality →
     (operator_eq lhs (Some rhs) = Some true ↔ live lhs = live rhs)).
Proof.
  intros Hwfl Hwfr. pose proof (operator_eq_value lhs rhs Hwfl Hwfr) as Heq.
  split; [done|]. split; [unfold operator_ne; by rewrite Heq|].
  intros Helem. rewrite Heq. unfold GetSize. split.
  - intros [= Hb]. apply andb_true_iff in Hb as [_ Hp].
    by apply pairwise_eq_true in Hp.
  - intros Hlive. f_equal. apply andb_true_iff. split.
    + apply bool_decide_eq_true.
      apply (f_equal length) in Hlive. rewrite !live_length in Hlive by done.
      destruct Hwfl as (_ & ? & _), Hwfr as (_ & ? & _). lia.
    + by apply pairwise_eq_true.
Qed.

(** X24.  A vector compared with itself is equal by identity, without a
    look at its elements: also when an element does not compare equal to
    itself, in which case another vector in the very same state compares
    unequal to it. *)
Theorem operator_eq_identity v x l :
  wf v → live v = x :: l → elem_eq x x = false →
  operator_eq v None = Some true
  ∧ operator_ne v None = Some false
  ∧ operator_eq v (Some v) = Some false.
Proof.
  intros Hwf Hlive Hx. split; [done|]. split; [done|].
  rewrite operator_eq_value by done.
  rewrite Hlive. cbn [pairwise_eq]. rewrite Hx. by rewrite andb_false_r.
Qed.

Lemma operator_lt_value lhs rhs :
  wf lhs → wf rhs →
  operator_lt lhs rhs = Some (lexicographic_lt (live lhs) (live rhs)).
Proof.
  intros Hwfl Hwfr.
  pose proof Hwfl as (Hlenl & Hszl & _). pose proof Hwfr as (Hlenr & Hszr & _).
  unfold operator_lt, std_lexicographical_compare.
  rewrite !cbegin_cend_range by done. cbn [mbind option_bind].
  destruct (decide (size_ lhs = 0)) as [Hzl|Hnzl].
  { rewrite Hzl. cbn [Z.to_nat].
    rewrite lexicographical_compare_loop_empty_l.
    rewrite (live_nil lhs) by done.
    by rewrite lexicographic_lt_nil_l, live_length. }
  destruct (decide (size_ rhs = 0)) as [Hzr|Hnzr].
  { rewrite Hzr. cbn [Z.to_nat].
    rewrite lexicographical_compare_loop_empty_r.
    rewrite (live_nil rhs) by done.
    by rewrite lexicographic_lt_nil_r. }
  rewrite !cbegin_nonempty by (done || lia).
  pose proof (lexicographical_compare_loop_slots (Z.to_nat (size_ lhs))
                (Z.to_nat (size_ rhs)) (items_ lhs) (items_ rhs) 0 0) as Hloop.
  rewrite !drop_0 in Hloop. change (Z.of_nat 0) with 0 in Hloop.
  by rewrite Hloop by lia.
Qed.

Lemma lexicographic_lt_prefix l : ∀ l',
  (∀ x, elem_lt x x = false) → l' ≠ [] → lexicographic_lt l (l ++ l') = true.
Proof.
  induction l as [|x l IH]; intros l' Hirr Hne.
  - by destruct l'.
  - cbn [app lexicographic_lt]. rewrite Hirr. by apply IH.
Qed.

(** X25.  For two well-formed vectors [<] is the lexicographic comparison
    of their live elements and never has undefined behaviour: the first
    position where one element is less than the other decides, and when
    there is none the shorter vector is the smaller.  With an irreflexive
    [<] on elements, a vector is less than every proper extension of it and
    not less than itself. *)
Theorem operator_lt_is_lexicographic lhs rhs :
  wf lhs → wf rhs →
  operator_lt lhs rhs = Some (lexicographic_lt (live lhs) (live rhs))
  ∧ ((∀ x, elem_lt x x = false) →
     operator_lt lhs lhs = Some false
     ∧ ∀ l', l' ≠ [] → live rhs = live lhs ++ l' →
             operator_lt lhs rhs = Some true).
Proof.
  intros Hwfl Hwfr. split; [by apply operator_lt_value|].
  intros Hirr. split.
  - rewrite operator_lt_value by done. f_equal.
    induction (live lhs) as [|x l IH]; [done|].
    cbn [lexicographic_lt]. by rewrite Hirr.
  - intros l' Hne Hext. rewrite operator_lt_value by done.
    rewrite Hext. f_equal. by apply lexicographic_lt_prefix.
Qed.

Lemma lexicographic_trichotomy l1 : ∀ l2,
  trichotomous →
  (lexicographic_lt l1 l2 = true ∧ l1 ≠ l2 ∧ lexicographic_lt l2 l1 = false)
  ∨ (lexicographic_lt l1 l2 = false ∧ l1 = l2 ∧ lexicographic_lt l2 l1 = false)
  ∨ (lexicographic_lt l1 l2 = false ∧ l1 ≠ l2 ∧ lexicographic_lt l2 l1 = true).
Proof.
  induction l1 as [|x l1 IH]; intros [|y l2] Htri.
  - right. left. done.
  - left. done.
  - right. right. done.
  - pose proof Htri as (Heq & Hirr & Htot & Hasym).
    cbn [lexicographic_lt].
    assert (x = y ∨ x ≠ y) as [->|Hne].
    { destruct (elem_eq x y) eqn:Exy.
      - left. by apply Heq.
      - right. intros Hxy. apply Heq in Hxy. congruence. }
    + rewrite Hirr.
      destruct (IH l2 Htri) as [(H1 & H2 & H3)|[(H1 & H2 & H3)|(H1 & H2 & H3)]].
      * left. split; [done|]. split; [congruence|done].
      * right. left. split; [done|]. split; [congruence|done].
      * right. right. split; [done|]. split; [congruence|done].
    + destruct (Htot x y Hne) as [Hlt|Hgt].
      * rewrite Hlt, (Hasym _ _ Hlt). left.
        split; [done|]. split; [congruence|done].
      * rewrite Hgt, (Hasym _ _ Hgt). right. right.
        split; [done|]. split; [congruence|done].
Qed.

Lemma operator_eq_compares_live_elements_parts lhs rhs :
  wf lhs → wf rhs → eq_is_equality →
  ∃ eq : bool, operator_eq lhs (Some rhs) = Some eq
    ∧ (eq = true ↔ live lhs = live rhs).
Proof.
  intros Hwfl Hwfr Helem. eexists. split; [by apply operator_eq_value|].
  rewrite andb_true_iff, bool_decide_eq_true, pairwise_eq_true by done.
  unfold GetSize. split; [by intros [_ ?]|].
  intros Hlive. split; [|done].
  apply (f_equal length) in Hlive. rewrite !live_length in Hlive by done.
  destruct Hwfl as (_ & ? & _), Hwfr as (_ & ? & _). lia.
Qed.

(** X26.  When exactly one of [x < y], [x == y], [y < x] holds for any two
    elements, the same is true of any two well-formed vectors, and the
    derived operators agree with it: [<=] is [<] or [==], [>=] is [>] or
    [==], and [!=] is [<] or [>]. *)
Theorem operators_are_consistent lhs rhs :
  trichotomous → wf lhs → wf rhs →
  ∃ lt eq gt : bool,
    operator_lt lhs rhs = Some lt
    ∧ operator_eq lhs (Some rhs) = Some eq
    ∧ operator_gt lhs rhs = Some gt
    ∧ ((lt = true ∧ eq = false ∧ gt = false)
       ∨ (lt = false ∧ eq = true ∧ gt = false)
       ∨ (lt = false ∧ eq = false ∧ gt = true))
    ∧ operator_le lhs rhs = Some (lt || eq)
    ∧ operator_ge lhs rhs = Some (gt || eq)
    ∧ operator_ne lhs (Some rhs) = Some (lt || gt).
Proof.
  intros Htri Hwfl Hwfr. pose proof Htri as (Helem & _).
  destruct (operator_eq_compares_live_elements_parts lhs rhs Hwfl Hwfr Helem)
    as (eq & Heq & Hiff).
  exists (lexicographic_lt (live lhs) (live rhs)), eq,
    (lexicographic_lt (live rhs) (live lhs)).
  unfold operator_le, operator_ge, operator_gt, operator_ne.
  rewrite !operator_lt_value, Heq by done. cbn [fmap option_fmap option_map].
  split; [done|]. split; [done|]. split; [done|].
  destruct (lexicographic_trichotomy (live lhs) (live rhs) Htri)
    as [(H1 & H2 & H3)|[(H1 & H2 & H3)|(H1 & H2 & H3)]];
    rewrite H1, H3.
  - assert (eq = false) as ->
      by (destruct eq; [exfalso; by apply H2, Hiff|done]).
    split; [by left|done].
  - assert (eq = true) as -> by (by apply Hiff).
    split; [by right; left|done].
  - assert (eq = false) as ->
      by (destruct eq; [exfalso; by apply H2, Hiff|done]).
    split; [by right; right|done].
Qed.
End ComparisonFacts.

(** ** Concrete vectors *)

#[local] Existing Instances int_element heap_2_40.

Lemma reserved_vector_built :
  SimpleVector_reserve reserve_five = Return reserved_vector tt.
Proof. reflexivity. Qed.

Lemma sparse_vector_reached :
  PushBack (outside 7) reserved_vector = Return tt sparse_vector.
Proof. reflexivity. Qed.

Lemma small_vector_built :
  SimpleVector_init_list [1; 2; 3] = Return small_vector tt.
Proof. reflexivity. Qed.

(** The vectors the examples start from are states the container reaches
    through its own interface. *)
Lemma reserved_vector_reachable : reachable reserved_vector.
Proof.
  apply (reach_reserve_ctor reserve_five).
  - unfold is_size_t, SIZE_MAX. simpl. lia.
  - reflexivity.
Qed.

Lemma sparse_vector_reachable : reachable sparse_vector.
Proof.
  apply (reach_PushBack reserved_vector (outside 7)).
  - apply reserved_vector_reachable.
  - left. exists tt. reflexivity.
Qed.

(** C1.  [SimpleVector<int> v(Reserve(5)); v.PushBack(7); v.Reserve(10);]
    The capacity becomes 10 and the element is kept, but [Size()] becomes
    5, the old capacity, where it was 1. *)
Theorem Reserve_sets_size_to_old_capacity :
  GetSize sparse_vector = 1
  ∧ Reserve 10 sparse_vector
    = Return tt (mk [7; 0; 0; 0; 0; 0; 0; 0; 0; 0] 5 10).
Proof. split; reflexivity. Qed.

(** C6.  [SimpleVector<int> v(Reserve(5)); v.Resize(3);]
    The vector is empty, so [begin()] is the null pointer, and filling
    the range that starts there is undefined behaviour. *)
Theorem Resize_of_empty_vector_with_capacity :
  GetSize reserved_vector = 0
  ∧ GetCapacity reserved_vector = 5
  ∧ Resize 3 reserved_vector = Undefined.
Proof. repeat split; reflexivity. Qed.

(** [SimpleVector<int> v(Reserve(5)); v.Insert(v.cend(), 7);]
    For an empty vector that owns a buffer the read-only end iterator is the
    address of slot 0 while [begin()] is the null pointer: the difference
    [pos - begin()] that [Insert] starts from has no defined value. *)
Lemma Insert_at_cend_of_empty_vector :
  cend reserved_vector = slot 0
  ∧ begin reserved_vector = nullptr
  ∧ Insert (cend reserved_vector) (outside 7) reserved_vector = Undefined.
Proof. repeat split; reflexivity. Qed.

Lemma huge_vector_built :
  SimpleVector_size (2 ^ 32) = Return huge_vector tt.
Proof.
  unfold SimpleVector_size. rewrite sized_granted; [done|].
  cbn [alloc_limit heap_2_40]. lia.
Qed.

Lemma huge_vector_reachable : reachable huge_vector.
Proof.
  apply (reach_size (2 ^ 32)).
  - unfold is_size_t, SIZE_MAX. lia.
  - apply huge_vector_built.
Qed.

Lemma huge_vector_wf : wf huge_vector.
Proof.
  unfold wf, huge_vector. cbn [items_ size_ capacity_ alloc_limit heap_2_40].
  rewrite length_replicate. lia.
Qed.

Lemma huge_vector_growth_granted : growth_granted huge_vector.
Proof.
  unfold growth_granted, huge_vector.
  cbn [items_ size_ capacity_ alloc_limit heap_2_40].
  intros _. rewrite bool_decide_false by lia. lia.
Qed.

Lemma huge_vector_index_truncated : to_int (size_ huge_vector) = 0.
Proof. reflexivity. Qed.

Lemma huge_vector_Insert_end :
  ∃ v', Insert (end_ huge_vector) (outside 7) huge_vector = Return (slot 0) v'
    ∧ live v' = 7 :: live huge_vector.
Proof.
  destruct (Insert_at_computed_index huge_vector (end_ huge_vector)
              (size_ huge_vector) 7 huge_vector_wf huge_vector_growth_granted
              (distance_begin_end _ huge_vector_wf))
    as (v' & Hins & _ & Hlive & _).
  - rewrite huge_vector_index_truncated. cbn [size_ huge_vector]. lia.
  - rewrite huge_vector_index_truncated in Hins, Hlive.
    exists v'. split; [done|].
    change (Z.to_nat 0) with 0%nat in Hlive.
    by rewrite take_0, drop_0 in Hlive.
Qed.

Lemma huge_vector_size_positive : 0 < size_ huge_vector.
Proof. cbn [size_ huge_vector]. lia. Qed.

Lemma huge_vector_end : end_ huge_vector = position huge_vector (2 ^ 32).
Proof.
  unfold position.
  rewrite begin_nonempty, end_nonempty
    by (apply huge_vector_wf || apply huge_vector_size_positive).
  cbn [advance size_ huge_vector]. f_equal.
Qed.

(** C2.  [SimpleVector<int> v{1, 2, 3}; v.PushBack(v[0]);]
    The vector is full, so [DoubleIfFull] has [Reserve(6)] move the
    elements into a new buffer and release the old one, which is the buffer
    [item] refers to.  The assignment [( *this )[size_++] = item] then reads
    the released slot: undefined behaviour, in both overloads, where
    [PushBack] is to write the value 1 at index 3.  With the value 1 in an
    object of its own the call appends it and doubles the capacity. *)
Theorem PushBack_of_own_element_when_full :
  wf small_vector
  ∧ GetSize small_vector = GetCapacity small_vector
  ∧ operator_index 0 small_vector = Return 1 small_vector
  ∧ PushBack (element 0) small_vector = Undefined
  ∧ PushBack_rvalue (element 0) small_vector = Undefined
  ∧ PushBack (outside 1) small_vector
    = Return tt (mk [1; 2; 3; 1; 0; 0] 4 6).
Proof.
  split; [repeat split; simpl; lia|].
  split; [reflexivity|]. split; [reflexivity|].
  split; [reflexivity|]. split; reflexivity.
Qed.

(** C7.  [const SimpleVector<int> cv{1, 2, 3}; cv.At(3);]
    On a const vector the call selects [const Type& At(size_t) const],
    whose body calls [At] on [*this], const there: the function calls
    itself.  At no depth of the recursion does it throw
    [std::out_of_range], where the comment above the function has it
    throw for [3 >= Size()]; neither does [cv.At(1)] return the
    element.  The non-const overload on the same vector throws
    for index 3, leaving the vector as it was, and returns 2 for index
    1. *)
Theorem At_on_const_vector fuel :
  GetSize small_vector = 3
  ∧ At_const fuel 3 small_vector = NoFuel
  ∧ At_const fuel 1 small_vector = NoFuel
  ∧ At 3 small_vector = Throw out_of_range small_vector
  ∧ At 1 small_vector = Return 2 small_vector.
Proof.
  split; [reflexivity|].
  split; [apply At_const_never_returns|].
  split; [apply At_const_never_returns|].
  split; reflexivity.
Qed.

(** C3.  [SimpleVector<char> v(4294967296); v.Insert(v.end(), 7);]
    The position is [begin() + 2^32], a valid insertion position.  Its
    index does not fit in the [int] that [Insert] stores it in: the value is
    inserted at index 0 and the iterator returned is the one to slot 0. *)
Theorem Insert_at_end_of_huge_vector :
  end_ huge_vector = position huge_vector (2 ^ 32)
  ∧ 0 ≤ 2 ^ 32 ≤ GetSize huge_vector
  ∧ ∃ v', Insert (position huge_vector (2 ^ 32)) (outside 7) huge_vector
          = Return (slot 0) v'
      ∧ live v' = 7 :: live huge_vector.
Proof.
  split; [apply huge_vector_end|]. split.
  - unfold GetSize. cbn [size_ huge_vector]. lia.
  - rewrite <- huge_vector_end. apply huge_vector_Insert_end.
Qed.

(** C5.  On the same vector [Insert(end(), 7)] puts 7 in front of the
    elements and [PushBack(7)] puts it behind them: the resulting vectors
    differ. *)
Theorem Insert_at_end_differs_from_PushBack :
  ∃ it v1 v2,
    Insert (end_ huge_vector) (outside 7) huge_vector = Return it v1
    ∧ PushBack (outside 7) huge_vector = Return tt v2
    ∧ live v1 = 7 :: live huge_vector
    ∧ live v2 = live huge_vector ++ [7]
    ∧ v1 ≠ v2.
Proof.
  destruct huge_vector_Insert_end as (v1 & Hins & Hl1).
  destruct (PushBack_result huge_vector 7 huge_vector_wf
              huge_vector_growth_granted) as (v2 & Hpush & _ & _ & Hl2 & _).
  exists (slot 0), v1, v2.
  split; [exact Hins|]. split; [exact Hpush|].
  split; [exact Hl1|]. split; [exact Hl2|].
  intros Heq. rewrite Heq, Hl2 in Hl1.
  assert (live huge_vector = replicate (Z.to_nat (2 ^ 32)) 0) as Hl.
  { unfold live, huge_vector. cbn [items_ size_].
    apply take_ge. rewrite length_replicate. apply Nat.le_refl. }
  rewrite Hl in Hl1.
  remember (Z.to_nat (2 ^ 32)) as N eqn:HN.
  destruct N as [|N]; [lia|].
  rewrite replicate_S in Hl1. cbn [app] in Hl1. discriminate Hl1.
Qed.

(** ** The general theorems at concrete vectors *)

Lemma PushBack_appends_witness :
  wf small_vector ∧ growth_granted small_vector
  ∧ ∃ v', PushBack (outside 4) small_vector = Return tt v'
      ∧ PushBack_rvalue (outside 4) small_vector = Return (moved_from 4) v'
      ∧ ArrayPtr.read (items_ v') (GetSize small_vector) = Some 4
      ∧ GetSize v' = GetSize small_vector + 1
      ∧ live v' = live small_vector ++ [4]
      ∧ GetCapacity v'
        = (if bool_decide (GetSize small_vector = GetCapacity small_vector)
           then (if bool_decide (GetCapacity small_vector = 0) then 1
                 else 2 * GetCapacity small_vector)
           else GetCapacity small_vector)
      ∧ wf v'.
Proof.
  assert (wf small_vector) as Hwf by (repeat split; simpl; lia).
  assert (growth_granted small_vector) as Hgr by (intros _; simpl; lia).
  split; [exact Hwf|]. split; [exact Hgr|].
  exact (PushBack_appends small_vector 4 Hwf Hgr).
Defined.

Lemma Erase_removes_witness :
  wf small_vector ∧ 0 ≤ 1 < GetSize small_vector
  ∧ ∃ it v', Erase (position small_vector 1) small_vector = Return it v'
      ∧ live v' = take (Z.to_nat 1) (live small_vector)
                  ++ drop (S (Z.to_nat 1)) (live small_vector)
      ∧ GetSize v' = GetSize small_vector - 1
      ∧ GetCapacity v' = GetCapacity small_vector
      ∧ it = (if bool_decide (1 = GetSize small_vector - 1)
              then end_ v' else slot 1)
      ∧ (1 < GetSize small_vector - 1 →
         it = position v' 1
         ∧ load (items_ v') it = live small_vector !! S (Z.to_nat 1))
      ∧ wf v'.
Proof.
  assert (wf small_vector) as Hwf by (repeat split; simpl; lia).
  assert (0 ≤ 1 < GetSize small_vector) as Hi by (simpl; lia).
  split; [exact Hwf|]. split; [exact Hi|].
  exact (Erase_removes small_vector 1 Hwf Hi).
Defined.

Lemma At_checked_witness :
  wf small_vector ∧ is_size_t 3
  ∧ ((∃ e v', At 3 small_vector = Throw e v') ↔ GetSize small_vector ≤ 3)
  ∧ (GetSize small_vector ≤ 3 → At 3 small_vector = Throw out_of_range small_vector)
  ∧ (3 < GetSize small_vector →
     At 3 small_vector = operator_index 3 small_vector
     ∧ ∃ x, live small_vector !! Z.to_nat 3 = Some x
         ∧ At 3 small_vector = Return x small_vector).
Proof.
  assert (wf small_vector) as Hwf by (repeat split; simpl; lia).
  assert (is_size_t 3) as Hi by (unfold is_size_t, SIZE_MAX; lia).
  split; [exact Hwf|]. split; [exact Hi|].
  exact (At_checked small_vector 3 Hwf Hi).
Defined.

Lemma capacity_kept_when_shrinking_witness :
  1 < GetSize small_vector
  ∧ ∃ v', Resize 1 small_vector = Return tt v'
      ∧ GetCapacity v' = GetCapacity small_vector
      ∧ items_ v' = items_ small_vector
      ∧ GetSize v' = 1.
Proof.
  assert (1 < GetSize small_vector) as Hn by (simpl; lia).
  split; [exact Hn|].
  exact (proj2 (proj2 (capacity_kept_when_shrinking small_vector)) 1 Hn).
Defined.

Lemma size_within_capacity_witness :
  reachable sparse_vector
  ∧ 0 ≤ GetSize sparse_vector ≤ GetCapacity sparse_vector.
Proof.
  assert (reachable sparse_vector) as Hr.
  { apply (reach_PushBack reserved_vector (outside 7)).
    - apply (reach_reserve_ctor reserve_five).
      + unfold is_size_t, SIZE_MAX. simpl. lia.
      + reflexivity.
    - left. exists tt. reflexivity. }
  split; [exact Hr|].
  exact (size_within_capacity sparse_vector Hr).
Defined.

Lemma copy_capacity_is_source_size_witness :
  wf sparse_vector
  ∧ ∃ v, SimpleVector_copy sparse_vector = Return v tt
      ∧ GetCapacity v = GetSize sparse_vector
      ∧ GetSize v = GetSize sparse_vector
      ∧ live v = live sparse_vector
      ∧ (GetSize sparse_vector < GetCapacity sparse_vector →
         GetCapacity v < GetCapacity sparse_vector)
      ∧ wf v.
Proof.
  assert (wf sparse_vector) as Hwf by (repeat split; simpl; lia).
  split; [exact Hwf|].
  exact (copy_capacity_is_source_size sparse_vector Hwf).
Defined.

(** ** The further facts at concrete vectors *)

#[local] Existing Instance int_comparable.

Lemma Reserve_behaviour_witness :
  wf sparse_vector ∧ 10 ≤ alloc_limit
  ∧ ∃ v', Reserve 10 sparse_vector = Return tt v'
      ∧ GetCapacity v' = Z.max 10 (GetCapacity sparse_vector)
      ∧ take (Z.to_nat (GetSize sparse_vector)) (live v') = live sparse_vector
      ∧ wf v'.
Proof.
  assert (wf sparse_vector) as Hwf by (repeat split; simpl; lia).
  assert (10 ≤ alloc_limit) as Hn by (simpl; lia).
  split; [exact Hwf|]. split; [exact Hn|].
  destruct (Reserve_behaviour 10 sparse_vector Hwf Hn)
    as (v' & H1 & H2 & _ & H4 & _ & H6).
  exists v'. split; [exact H1|]. split; [exact H2|]. split; [exact H4|exact H6].
Defined.

Lemma allocation_failure_changes_nothing_witness :
  wf (H:=heap_4) small_vector
  ∧ PushBack (H:=heap_4) (outside 4) small_vector = Throw bad_alloc small_vector
  ∧ ∀ item e v', PushBack (H:=heap_4) item small_vector = Throw e v' →
      e = bad_alloc ∧ v' = small_vector
      ∧ GetSize small_vector = GetCapacity small_vector.
Proof.
  assert (wf (H:=heap_4) small_vector) as Hwf by (repeat split; simpl; lia).
  split; [exact Hwf|]. split; [reflexivity|].
  exact (proj1 (proj2 (proj2
           (allocation_failure_changes_nothing (H:=heap_4) small_vector Hwf)))).
Defined.

Lemma Insert_behaviour_witness :
  wf roomy_vector ∧ growth_granted roomy_vector
  ∧ 0 ≤ 0 ≤ GetSize roomy_vector ∧ 0 ≤ INT_MAX
  ∧ (∃ v', Insert (position roomy_vector 0) (outside 9) roomy_vector
           = Return (slot 0) v'
         ∧ live v' = take (Z.to_nat 0) (live roomy_vector)
                     ++ 9 :: drop (Z.to_nat 0) (live roomy_vector))
  ∧ (∃ y v', Insert (position roomy_vector 0) (element 1) roomy_vector
             = Return (slot 0) v'
           ∧ live v' = take (Z.to_nat 0) (live roomy_vector)
                       ++ y :: drop (Z.to_nat 0) (live roomy_vector)
           ∧ live roomy_vector !! Z.to_nat (1 - 1) = Some y).
Proof.
  assert (wf roomy_vector) as Hwf by (repeat split; simpl; lia).
  assert (growth_granted roomy_vector) as Hgr by (intros Hfull; simpl in *; lia).
  assert (0 ≤ 0 ≤ GetSize roomy_vector) as Hi by (simpl; lia).
  assert (0 ≤ INT_MAX) as Hint by (unfold INT_MAX; lia).
  assert (GetSize roomy_vector < GetCapacity roomy_vector) as Hroom
    by (simpl; lia).
  assert (0 ≤ 1 < GetCapacity roomy_vector) as Hk by (simpl; lia).
  assert (0 < 1 ≤ GetSize roomy_vector) as Hik by (simpl; lia).
  split; [exact Hwf|]. split; [exact Hgr|]. split; [exact Hi|].
  split; [exact Hint|]. split.
  - destruct (Insert_behaviour roomy_vector 0 (outside 9) Hwf Hgr Hi Hint)
      as (v' & H1 & _ & _ & _ & H5 & _).
    exists v'. split; [exact H1|exact H5].
  - destruct (proj2 (Insert_behaviour roomy_vector 0 (element 1)
                       Hwf Hgr Hi Hint) Hroom Hk)
      as (y & v' & H1 & _ & _ & H4 & _ & _ & _ & _ & H9 & _).
    exists y, v'. split; [exact H1|]. split; [exact H4|exact (H9 Hik)].
Defined.

Lemma Insert_at_end_is_PushBack_witness :
  wf small_vector ∧ GetSize small_vector ≤ INT_MAX
  ∧ map_value (λ _, tt) (Insert (end_ small_vector) (outside 9) small_vector)
    = PushBack (outside 9) small_vector.
Proof.
  assert (wf small_vector) as Hwf by (repeat split; simpl; lia).
  assert (GetSize small_vector ≤ INT_MAX) as Hint
    by (unfold INT_MAX; simpl; lia).
  split; [exact Hwf|]. split; [exact Hint|].
  exact (proj1 (Insert_at_end_is_PushBack small_vector (outside 9) Hwf Hint)).
Defined.

Lemma Insert_behind_end_is_undefined_witness :
  wf sparse_vector ∧ growth_granted sparse_vector
  ∧ GetSize sparse_vector < 3 ≤ INT_MAX
  ∧ Insert (position sparse_vector 3) (outside 9) sparse_vector = Undefined.
Proof.
  assert (wf sparse_vector) as Hwf by (repeat split; simpl; lia).
  assert (growth_granted sparse_vector) as Hgr by (intros Hfull; simpl in *; lia).
  assert (GetSize sparse_vector < 3 ≤ INT_MAX) as Hi
    by (unfold INT_MAX; simpl; lia).
  split; [exact Hwf|]. split; [exact Hgr|]. split; [exact Hi|].
  exact (Insert_behind_end_is_undefined sparse_vector 3 (outside 9) Hwf Hgr Hi).
Defined.

Lemma Erase_at_end_is_undefined_witness :
  wf small_vector ∧ Erase (end_ small_vector) small_vector = Undefined.
Proof.
  assert (wf small_vector) as Hwf by (repeat split; simpl; lia).
  split; [exact Hwf|].
  exact (proj1 (Erase_at_end_is_undefined small_vector Hwf)).
Defined.

Lemma Erase_after_Insert_witness :
  wf small_vector ∧ growth_granted small_vector
  ∧ 0 ≤ 1 ≤ GetSize small_vector ∧ 1 ≤ INT_MAX
  ∧ ∃ it v1 it' v2,
      Insert (position small_vector 1) (outside 9) small_vector = Return it v1
      ∧ Erase it v1 = Return it' v2
      ∧ live v2 = live small_vector
      ∧ GetSize v2 = GetSize small_vector
      ∧ GetCapacity v2 = GetCapacity v1.
Proof.
  assert (wf small_vector) as Hwf by (repeat split; simpl; lia).
  assert (growth_granted small_vector) as Hgr by (intros _; simpl; lia).
  assert (0 ≤ 1 ≤ GetSize small_vector) as Hi by (simpl; lia).
  assert (1 ≤ INT_MAX) as Hint by (unfold INT_MAX; lia).
  split; [exact Hwf|]. split; [exact Hgr|]. split; [exact Hi|].
  split; [exact Hint|].
  exact (proj1 (Erase_after_Insert small_vector 1 9 Hwf Hgr Hi Hint)).
Defined.

Lemma Insert_after_Erase_witness :
  wf small_vector ∧ 0 ≤ 1 < GetSize small_vector ∧ 1 ≤ INT_MAX
  ∧ live small_vector !! Z.to_nat 1 = Some 2
  ∧ ∃ it v1 it' v2,
      Erase (position small_vector 1) small_vector = Return it v1
      ∧ Insert (position v1 1) (outside 2) v1 = Return it' v2
      ∧ it' = slot 1
      ∧ live v2 = live small_vector
      ∧ GetSize v2 = GetSize small_vector
      ∧ GetCapacity v2 = GetCapacity small_vector.
Proof.
  assert (wf small_vector) as Hwf by (repeat split; simpl; lia).
  assert (0 ≤ 1 < GetSize small_vector) as Hi by (simpl; lia).
  assert (1 ≤ INT_MAX) as Hint by (unfold INT_MAX; lia).
  assert (live small_vector !! Z.to_nat 1 = Some 2) as Hx by reflexivity.
  split; [exact Hwf|]. split; [exact Hi|]. split; [exact Hint|].
  split; [exact Hx|].
  exact (Insert_after_Erase small_vector 1 2 Hwf Hi Hint Hx).
Defined.

Lemma PopBack_after_PushBack_witness :
  wf small_vector ∧ growth_granted small_vector
  ∧ ∃ v1 v2,
      PushBack (outside 4) small_vector = Return tt v1
      ∧ PopBack v1 = Return tt v2
      ∧ live v2 = live small_vector
      ∧ GetSize v2 = GetSize small_vector
      ∧ GetCapacity v2 = GetCapacity v1
      ∧ items_ v2 = items_ v1.
Proof.
  assert (wf small_vector) as Hwf by (repeat split; simpl; lia).
  assert (growth_granted small_vector) as Hgr by (intros _; simpl; lia).
  split; [exact Hwf|]. split; [exact Hgr|].
  exact (proj1 (PopBack_after_PushBack small_vector 4 Hwf Hgr)).
Defined.

Lemma Resize_behaviour_witness :
  wf roomy_vector ∧ 0 ≤ 3 ≤ alloc_limit
  ∧ ¬ (GetSize roomy_vector = 0 ∧ 0 < 3 ≤ GetCapacity roomy_vector)
  ∧ ∃ v', Resize 3 roomy_vector = Return tt v'
      ∧ GetSize v' = 3
      ∧ live v' = take (Z.to_nat 3) (live roomy_vector)
                  ++ replicate (Z.to_nat (3 - GetSize roomy_vector)) value_init
      ∧ GetCapacity v' = Z.max 3 (GetCapacity roomy_vector)
      ∧ wf v'.
Proof.
  assert (wf roomy_vector) as Hwf by (repeat split; simpl; lia).
  assert (0 ≤ 3 ≤ alloc_limit) as Hn by (simpl; lia).
  assert (¬ (GetSize roomy_vector = 0 ∧ 0 < 3 ≤ GetCapacity roomy_vector))
    as Hnot by (simpl; lia).
  split; [exact Hwf|]. split; [exact Hn|]. split; [exact Hnot|].
  exact (Resize_behaviour 3 roomy_vector Hwf Hn Hnot).
Defined.

Lemma Resize_after_Clear_is_undefined_witness :
  0 < 2 ≤ GetCapacity small_vector
  ∧ (Clear ;; Resize 2) small_vector = Undefined.
Proof.
  assert (0 < 2 ≤ GetCapacity small_vector) as Hn by (simpl; lia).
  split; [exact Hn|].
  exact (proj1 (Resize_after_Clear_is_undefined small_vector 2 Hn)).
Defined.

Lemma PushBack_sequence_witness :
  2 * Z.of_nat (length [1; 2; 3]) ≤ alloc_limit
  ∧ ∃ v0 v', SimpleVector_default = Return v0 tt
      ∧ push_all [1; 2; 3] v0 = Return tt v'
      ∧ live v' = [1; 2; 3]
      ∧ GetSize v' = Z.of_nat (length [1; 2; 3]).
Proof.
  assert (2 * Z.of_nat (length [1; 2; 3]) ≤ alloc_limit) as Hlim
    by (simpl; lia).
  split; [exact Hlim|].
  destruct (PushBack_sequence [1; 2; 3] Hlim)
    as (v0 & v' & H1 & H2 & H3 & H4 & _).
  exists v0, v'. split; [exact H1|]. split; [exact H2|].
  split; [exact H3|exact H4].
Defined.

Lemma reserved_then_pushed_witness :
  0 ≤ 5 ≤ alloc_limit ∧ Z.of_nat (length [1; 2; 3]) ≤ 5
  ∧ ∃ v0 v', SimpleVector_reserve {| capacity_to_reserve := 5 |} = Return v0 tt
      ∧ GetSize v0 = 0 ∧ GetCapacity v0 = 5 ∧ live v0 = []
      ∧ push_all [1; 2; 3] v0 = Return tt v'
      ∧ live v' = [1; 2; 3]
      ∧ GetSize v' = Z.of_nat (length [1; 2; 3])
      ∧ GetCapacity v' = 5.
Proof.
  assert (0 ≤ 5 ≤ alloc_limit) as Hn by (simpl; lia).
  assert (Z.of_nat (length [1; 2; 3]) ≤ 5) as Hl by (simpl; lia).
  split; [exact Hn|]. split; [exact Hl|].
  exact (reserved_then_pushed 5 [1; 2; 3] Hn Hl).
Defined.

Lemma fill_constructor_witness :
  0 ≤ 3 ∧ 3 ≤ alloc_limit
  ∧ ∃ v, SimpleVector_size_value 3 8 = Return v tt
      ∧ live v = replicate (Z.to_nat 3) 8
      ∧ GetSize v = 3 ∧ GetCapacity v = 3 ∧ wf v.
Proof.
  assert (0 ≤ 3) as Hn0 by lia.
  assert (3 ≤ alloc_limit) as Hn by (simpl; lia).
  split; [exact Hn0|]. split; [exact Hn|].
  exact (proj1 (fill_constructor 3 8 Hn0) Hn).
Defined.

Lemma init_list_constructor_witness :
  Z.of_nat (length [1; 2; 3]) ≤ alloc_limit
  ∧ ∃ v, SimpleVector_init_list [1; 2; 3] = Return v tt
      ∧ live v = [1; 2; 3]
      ∧ GetSize v = Z.of_nat (length [1; 2; 3])
      ∧ GetCapacity v = Z.of_nat (length [1; 2; 3])
      ∧ wf v.
Proof.
  assert (Z.of_nat (length [1; 2; 3]) ≤ alloc_limit) as Hn by (simpl; lia).
  split; [exact Hn|].
  exact (init_list_constructor [1; 2; 3] Hn).
Defined.

Lemma copy_assignment_witness :
  wf sparse_vector
  ∧ ∃ v', assign_copy (Some sparse_vector) small_vector = Return tt v'
      ∧ SimpleVector_copy sparse_vector = Return v' tt
      ∧ live v' = live sparse_vector
      ∧ GetSize v' = GetSize sparse_vector
      ∧ GetCapacity v' = GetSize sparse_vector
      ∧ wf v'.
Proof.
  assert (wf sparse_vector) as Hwf by (repeat split; simpl; lia).
  split; [exact Hwf|].
  exact (proj1 (copy_assignment small_vector sparse_vector Hwf)).
Defined.

Lemma moved_from_vector_witness :
  wf sparse_vector ∧ 1 ≤ alloc_limit
  ∧ SimpleVector_move sparse_vector = (sparse_vector, mk [] 0 0)
  ∧ assign_move (Some sparse_vector) small_vector
    = Return (Some (mk [] 0 0)) sparse_vector
  ∧ assign_move None small_vector = Return None small_vector
  ∧ PushBack (outside 9) (mk [] 0 0) = Return tt (mk [9] 1 1).
Proof.
  assert (wf sparse_vector) as Hwf by (repeat split; simpl; lia).
  assert (1 ≤ alloc_limit) as Hlim by (simpl; lia).
  split; [exact Hwf|]. split; [exact Hlim|].
  exact (moved_from_vector small_vector sparse_vector 9 Hwf Hlim).
Defined.

Lemma iterators_span_live_range_witness :
  wf small_vector
  ∧ distance (begin small_vector) (end_ small_vector)
    = Some (GetSize small_vector)
  ∧ distance (cbegin small_vector) (cend small_vector)
    = Some (GetSize small_vector)
  ∧ (begin small_vector = end_ small_vector ↔ GetSize small_vector = 0).
Proof.
  assert (wf small_vector) as Hwf by (repeat split; simpl; lia).
  split; [exact Hwf|].
  destruct (iterators_span_live_range small_vector Hwf) as (H1 & H2 & H3 & _).
  split; [exact H1|]. split; [exact H2|exact H3].
Defined.

Lemma begin_and_cbegin_witness :
  wf reserved_vector
  ∧ GetSize reserved_vector = 0 ∧ 0 < GetCapacity reserved_vector
  ∧ Insert (cbegin reserved_vector) (outside 9) reserved_vector = Undefined
  ∧ ∃ v', Insert (begin reserved_vector) (outside 9) reserved_vector = Return (slot 0) v'
      ∧ live v' = [9].
Proof.
  assert (wf reserved_vector) as Hwf by (repeat split; simpl; lia).
  assert (GetSize reserved_vector = 0) as Hz by reflexivity.
  assert (0 < GetCapacity reserved_vector) as Hc by (simpl; lia).
  split; [exact Hwf|]. split; [exact Hz|]. split; [exact Hc|].
  destruct (proj2 (begin_and_cbegin reserved_vector 9 Hwf) Hz Hc) as [Hu Hr].
  split; [exact (Hu (outside 9))|exact Hr].
Defined.

Lemma const_accessors_never_return_witness :
  GetSize small_vector ≤ 3
  ∧ At_const 100 3 small_vector = NoFuel
  ∧ At 3 small_vector = Throw out_of_range small_vector.
Proof.
  assert (GetSize small_vector ≤ 3) as Hi by (simpl; lia).
  split; [exact Hi|].
  destruct (const_accessors_never_return 100 3 small_vector) as (H1 & _ & H3).
  split; [exact H1|exact (H3 Hi)].
Defined.

Lemma buffer_matches_capacity_witness :
  reachable sparse_vector
  ∧ Z.of_nat (length (items_ sparse_vector)) = GetCapacity sparse_vector
  ∧ (GetCapacity sparse_vector = 0 ↔ items_ sparse_vector = [])
  ∧ GetCapacity sparse_vector ≤ alloc_limit.
Proof.
  assert (reachable sparse_vector) as Hr.
  { apply (reach_PushBack reserved_vector (outside 7)).
    - apply (reach_reserve_ctor reserve_five).
      + unfold is_size_t, SIZE_MAX. simpl. lia.
      + reflexivity.
    - left. exists tt. reflexivity. }
  split; [exact Hr|].
  exact (buffer_matches_capacity sparse_vector Hr).
Defined.

Lemma capacity_never_decreases_witness :
  wf small_vector
  ∧ leaves (PushBack (outside 4) small_vector) (mk [1; 2; 3; 4; 0; 0] 4 6)
  ∧ GetCapacity small_vector ≤ GetCapacity (mk [1; 2; 3; 4; 0; 0] 4 6).
Proof.
  assert (wf small_vector) as Hwf by (repeat split; simpl; lia).
  assert (leaves (PushBack (outside 4) small_vector) (mk [1; 2; 3; 4; 0; 0] 4 6)) as Hl
    by (left; exists tt; reflexivity).
  split; [exact Hwf|]. split; [exact Hl|].
  apply (capacity_never_decreases small_vector _ Hwf).
  left. exists (outside 4). exact Hl.
Defined.

Lemma operator_eq_compares_live_elements_witness :
  wf roomy_vector ∧ wf (mk [1; 2] 2 2)
  ∧ operator_eq roomy_vector (Some (mk [1; 2] 2 2))
    = Some (bool_decide (GetSize roomy_vector = GetSize (mk [1; 2] 2 2))
            && pairwise_eq (live roomy_vector) (live (mk [1; 2] 2 2)))
  ∧ operator_eq roomy_vector (Some (mk [1; 2] 2 2)) = Some true.
Proof.
  assert (wf roomy_vector) as Hwf1 by (repeat split; simpl; lia).
  assert (wf (mk [1; 2] 2 2)) as Hwf2 by (repeat split; simpl; lia).
  split; [exact Hwf1|]. split; [exact Hwf2|].
  split; [|reflexivity].
  exact (proj1 (operator_eq_compares_live_elements roomy_vector
                  (mk [1; 2] 2 2) Hwf1 Hwf2)).
Defined.

Lemma operator_eq_identity_witness :
  wf zero_one_vector ∧ live zero_one_vector = 0 :: [1]
  ∧ elem_eq (Comparable:=nan_like_comparable) 0 0 = false
  ∧ operator_eq (Comparable0:=nan_like_comparable) zero_one_vector None
    = Some true
  ∧ operator_ne (Comparable0:=nan_like_comparable) zero_one_vector None
    = Some false
  ∧ operator_eq (Comparable0:=nan_like_comparable) zero_one_vector
      (Some zero_one_vector) = Some false.
Proof.
  assert (wf zero_one_vector) as Hwf by (repeat split; simpl; lia).
  assert (live zero_one_vector = 0 :: [1]) as Hl by reflexivity.
  assert (elem_eq (Comparable:=nan_like_comparable) 0 0 = false) as Hx
    by reflexivity.
  split; [exact Hwf|]. split; [exact Hl|]. split; [exact Hx|].
  exact (operator_eq_identity (Comparable0:=nan_like_comparable)
           zero_one_vector 0 [1] Hwf Hl Hx).
Defined.

Lemma operator_lt_is_lexicographic_witness :
  wf small_vector ∧ wf (mk [1; 3] 2 2)
  ∧ operator_lt small_vector (mk [1; 3] 2 2)
    = Some (lexicographic_lt (live small_vector) (live (mk [1; 3] 2 2)))
  ∧ operator_lt small_vector (mk [1; 3] 2 2) = Some true.
Proof.
  assert (wf small_vector) as Hwf1 by (repeat split; simpl; lia).
  assert (wf (mk [1; 3] 2 2)) as Hwf2 by (repeat split; simpl; lia).
  split; [exact Hwf1|]. split; [exact Hwf2|].
  split; [|reflexivity].
  exact (proj1 (operator_lt_is_lexicographic small_vector (mk [1; 3] 2 2)
                  Hwf1 Hwf2)).
Defined.

Lemma operators_are_consistent_witness :
  trichotomous (Comparable0:=int_comparable)
  ∧ wf small_vector ∧ wf (mk [1; 3] 2 2)
  ∧ ∃ lt eq gt : bool,
      operator_lt small_vector (mk [1; 3] 2 2) = Some lt
      ∧ operator_eq small_vector (Some (mk [1; 3] 2 2)) = Some eq
      ∧ operator_gt small_vector (mk [1; 3] 2 2) = Some gt
      ∧ ((lt = true ∧ eq = false ∧ gt = false)
         ∨ (lt = false ∧ eq = true ∧ gt = false)
         ∨ (lt = false ∧ eq = false ∧ gt = true))
      ∧ operator_le small_vector (mk [1; 3] 2 2) = Some (lt || eq)
      ∧ operator_ge small_vector (mk [1; 3] 2 2) = Some (gt || eq)
      ∧ operator_ne small_vector (Some (mk [1; 3] 2 2)) = Some (lt || gt).
Proof.
  assert (trichotomous (Comparable0:=int_comparable)) as Htri.
  { unfold trichotomous, eq_is_equality. simpl.
    split; [intros x y; apply Z.eqb_eq|].
    split; [intros x; apply Z.ltb_irrefl|].
    split; intros x y Hxy.
    - destruct (Z.ltb_spec x y); [by left|right]. apply Z.ltb_lt. lia.
    - apply Z.ltb_lt in Hxy. apply Z.ltb_ge. lia. }
  assert (wf small_vector) as Hwf1 by (repeat split; simpl; lia).
  assert (wf (mk [1; 3] 2 2)) as Hwf2 by (repeat split; simpl; lia).
  split; [exact Htri|]. split; [exact Hwf1|]. split; [exact Hwf2|].
  exact (operators_are_consistent small_vector (mk [1; 3] 2 2)
           Htri Hwf1 Hwf2).
Defined.
